(** * Checkers bot: rules engine and search engine

    A shallow embedding of [game_board.py], [game_utilities.py] and
    [search_tool_box.py], followed by the properties of the rules engine
    (move generation, move application) and of the search engine
    (iterative deepening, minimax and alpha-beta). *)

From Stdlib Require Import ZArith QArith Lia Bool String Ascii Sorted.
From stdpp Require Import base list gmap pretty.

Local Open Scope Z_scope.

(** ** Exceptions

    Python list indexing raises [IndexError] when the index is out of range.
    [OutOfFuel] is not a Python exception: it marks the exhaustion of the
    recursion budget of [try_captures] below, and is proved unreachable. *)

Inductive exn := IndexError | OutOfFuel.

Inductive outcome (A : Type) : Type :=
| Ret (a : A)
| Raise (e : exn).
Arguments Ret {A} a.
Arguments Raise {A} e.

Definition bind {A B} (m : outcome A) (k : A -> outcome B) : outcome B :=
  match m with
  | Ret a => k a
  | Raise e => Raise e
  end.

Notation "'let!' x ':=' m 'in' k" := (bind m (fun x => k))
  (at level 10, x name, m at level 100, k at level 200, only parsing).
Notation "'let!' ' pat ':=' m 'in' k" := (bind m (fun x => match x with pat => k end))
  (at level 10, pat pattern, m at level 100, k at level 200, only parsing).

(** [for x in l: acc = body(x, acc)], stopping at the first exception. *)
Fixpoint for_each {A S} (body : A -> S -> outcome S) (l : list A) (s : S)
  : outcome S :=
  match l with
  | [] => Ret s
  | x :: l' => let! s' := body x s in for_each body l' s'
  end.

(** ** Python lists *)

(** The position a Python index denotes in a list of length [n]: negative
    indices count from the end, anything else out of range is an error. *)
Definition py_norm (n : nat) (i : Z) : option nat :=
  if (0 <=? i) && (i <? Z.of_nat n) then Some (Z.to_nat i)
  else if (- Z.of_nat n <=? i) && (i <? 0) then Some (Z.to_nat (Z.of_nat n + i))
  else None.

(** [l[i]] *)
Definition py_getitem {A} (l : list A) (i : Z) : outcome A :=
  match py_norm (length l) i with
  | Some k => match l !! k with Some x => Ret x | None => Raise IndexError end
  | None => Raise IndexError
  end.

(** [l[i] = x] *)
Definition py_setitem {A} (l : list A) (i : Z) (x : A) : outcome (list A) :=
  match py_norm (length l) i with
  | Some k => Ret (<[k:=x]> l)
  | None => Raise IndexError
  end.

(** [range(lo, hi)] *)
Definition range (lo hi : Z) : list Z :=
  map (fun k => lo + Z.of_nat k) (seq 0 (Z.to_nat (hi - lo))).

(** ** game_board.py *)

(** Square contents: ['.'], ['w'], ['W'], ['b'], ['B']. *)
Inductive cell := Vacant | WMan | WKing | BMan | BKing.

(** The side argument: ['w'] or ['b']. *)
Inductive Side := White | Black.

#[global] Instance cell_eq_dec : EqDecision cell.
Proof. solve_decision. Defined.
#[global] Instance Side_eq_dec : EqDecision Side.
Proof. solve_decision. Defined.

Abbreviation Coordinate := (Z * Z)%type.

Record Move := mkMove {
  StartingMoveLocation : Coordinate;
  TargetingMoveLocation : Coordinate;
  path : list Coordinate;
  is_capture : bool;
  captured : list Coordinate
}.

(** [self.board]: a list of rows. *)
Abbreviation Board := (list (list cell)).

(** [self.size] *)
Definition size : Z := 8.

Definition Clone (b : Board) : Board := map (fun row => row) b.

Definition Inside (r c : Z) : bool :=
  (0 <=? r) && (r <? size) && (0 <=? c) && (c <? size).

(** [self.board[r][c]] *)
Definition PieceAt (b : Board) (rc : Coordinate) : outcome cell :=
  let '(r, c) := rc in
  let! row := py_getitem b r in py_getitem row c.

(** [self.board[r][c] = piece] *)
Definition SetPiece (b : Board) (rc : Coordinate) (piece : cell) : outcome Board :=
  let '(r, c) := rc in
  let! row := py_getitem b r in
  let! row' := py_setitem row c piece in
  py_setitem b r row'.

Definition blank_board : Board :=
  replicate (Z.to_nat size) (replicate (Z.to_nat size) Vacant).

Definition place_on_dark (piece : cell) (rows : list Z) (b : Board) : outcome Board :=
  for_each (fun r b =>
    for_each (fun c b =>
      if (r + c) mod 2 =? 1 then SetPiece b (r, c) piece else Ret b)
      (range 0 size) b)
    rows b.

Definition _InitialBoard : outcome Board :=
  let! b := place_on_dark BMan (range 0 3) blank_board in
  place_on_dark WMan (range 5 8) b.

Definition side_targets (side : Side) : list cell :=
  match side with White => [WMan; WKing] | Black => [BMan; BKing] end.

Definition _HasPieces (b : Board) (side : Side) : bool :=
  existsb (fun row => existsb (fun c => bool_decide (c ∈ side_targets side)) row) b.

Definition _Directions (piece : cell) : list (Z * Z) :=
  if bool_decide (piece ∈ [WMan; WKing]) then
    let ups := [(-1, -1); (-1, 1)] in
    if bool_decide (piece = WKing) then ups ++ [(1, -1); (1, 1)] else ups
  else
    let downs := [(1, -1); (1, 1)] in
    if bool_decide (piece = BKing) then downs ++ [(-1, -1); (1, 1)] else downs.

Definition _Opponents (side : Side) : list cell :=
  match side with White => [BMan; BKing] | Black => [WMan; WKing] end.

(** The key under which a recorded chain is remembered in [seen]. *)
Abbreviation Key := (Coordinate * list Coordinate * list Coordinate)%type.

Definition move_key (mv : Move) : Key :=
  (StartingMoveLocation mv, path mv, captured mv).

(** The objects the closures of [_MovesFrom] mutate while the capture
    chains are explored. *)
Record GenState := mkGen {
  g_board : Board;
  g_captures : list Move;
  g_seen : gset Key
}.

Definition with_board (st : GenState) (b : Board) : GenState :=
  mkGen b (g_captures st) (g_seen st).

Definition try_quiet (b : Board) (fr fc dr dc : Z) (quiets : list Move)
  : outcome (list Move) :=
  let '(nr, nc) := (fr + dr, fc + dc) in
  if Inside nr nc then
    let! p := PieceAt b (nr, nc) in
    if bool_decide (p = Vacant) then
      Ret (quiets ++ [mkMove (fr, fc) (nr, nc) [(fr, fc); (nr, nc)] false []])
    else Ret quiets
  else Ret quiets.

(** The guard of the jump: landing square on the board and empty, jumped
    square on the board and held by an opponent (evaluated left to right). *)
Definition jump_guard (b : Board) (side : Side) (l m : Coordinate) : outcome bool :=
  if Inside l.1 l.2 then
    let! pl := PieceAt b l in
    if bool_decide (pl = Vacant) then
      if Inside m.1 m.2 then
        let! pm := PieceAt b m in
        Ret (bool_decide (pm ∈ _Opponents side))
      else Ret false
    else Ret false
  else Ret false.

Definition landed_piece (side : Side) (lr : Z) (piece_local : cell) : cell :=
  let landed := piece_local in
  let landed :=
    if bool_decide (side = White) && (lr =? 0) && bool_decide (piece_local = WMan)
    then WKing else landed in
  if bool_decide (side = Black) && (lr =? size - 1) && bool_decide (piece_local = BMan)
  then BKing else landed.

(** One iteration of the loop over directions in [try_captures]; [rec] is
    the recursive call. The accumulator is [found] and the mutable state. *)
Definition jump_step
    (rec : Z -> Z -> cell -> list Coordinate -> list Coordinate ->
           GenState -> outcome GenState)
    (side : Side) (fr fc : Z) (piece_local : cell)
    (path captured : list Coordinate)
    (d : Z * Z) (acc : bool * GenState) : outcome (bool * GenState) :=
  let '(found, st) := acc in
  let '(dr, dc) := d in
  let '(mr, mc) := (fr + dr, fc + dc) in
  let '(lr, lc) := (fr + 2 * dr, fc + 2 * dc) in
  let! ok := jump_guard (g_board st) side (lr, lc) (mr, mc) in
  if ok then
    let cap_pos := (mr, mc) in
    if bool_decide (cap_pos ∈ captured) then Ret (found, st)
    else
      let! orig := PieceAt (g_board st) (fr, fc) in
      let! b1 := SetPiece (g_board st) (fr, fc) Vacant in
      let! cap_orig := PieceAt b1 (mr, mc) in
      let! b2 := SetPiece b1 (mr, mc) Vacant in
      let landed := landed_piece side lr piece_local in
      let! dest_orig := PieceAt b2 (lr, lc) in
      let! b3 := SetPiece b2 (lr, lc) landed in
      let! st' := rec lr lc landed (path ++ [(lr, lc)]) (captured ++ [cap_pos])
                 (with_board st b3) in
      let! b4 := SetPiece (g_board st') (fr, fc) orig in
      let! b5 := SetPiece b4 (mr, mc) cap_orig in
      let! b6 := SetPiece b5 (lr, lc) dest_orig in
      Ret (true, with_board st' b6)
  else Ret (found, st).

(** The tail of [try_captures]: record the chain when no jump extended it. *)
Definition record_chain (found : bool) (path captured : list Coordinate)
    (st : GenState) : outcome GenState :=
  if negb found && (0 <? Z.of_nat (length captured)) then
    let! s := py_getitem path 0 in
    let! t := py_getitem path (-1) in
    let mv := mkMove s t path true captured in
    let key := move_key mv in
    if bool_decide (key ∈ g_seen st) then Ret st
    else Ret (mkGen (g_board st) (g_captures st ++ [mv]) ({[ key ]} ∪ g_seen st))
  else Ret st.

Fixpoint try_captures (fuel : nat) (side : Side) (fr fc : Z) (piece_local : cell)
    (path captured : list Coordinate) (st : GenState) : outcome GenState :=
  match fuel with
  | O => Raise OutOfFuel
  | S fuel' =>
    let! '(found, st') :=
      for_each (jump_step (try_captures fuel' side) side fr fc piece_local path captured)
               (_Directions piece_local) (false, st) in
    record_chain found path captured st'
  end.

(** Every jump captures a square not captured before, so a chain has at
    most 64 jumps and 65 nested calls. *)
Definition chain_fuel : nat := 65.

(** Returns [(captures, quiets)] and the board object after the call. *)
Definition _MovesFrom (b : Board) (rc : Coordinate) (piece : cell) (side : Side)
  : outcome (list Move * list Move * Board) :=
  let '(r, c) := rc in
  let! quiets := for_each (fun d qs => try_quiet b r c d.1 d.2 qs) (_Directions piece) [] in
  let! st := try_captures chain_fuel side r c piece [(r, c)] [] (mkGen b [] ∅) in
  Ret (g_captures st, quiets, g_board st).

Definition scan_cell (side : Side) (r c : Z) (acc : list Move * list Move * Board)
  : outcome (list Move * list Move * Board) :=
  let '(captures, quiets, b) := acc in
  let! piece := PieceAt b (r, c) in
  if bool_decide (piece = Vacant) then Ret acc
  else if bool_decide (side = White) && negb (bool_decide (piece ∈ [WMan; WKing])) then Ret acc
  else if bool_decide (side = Black) && negb (bool_decide (piece ∈ [BMan; BKing])) then Ret acc
  else
    let! '(caps, qs, b') := _MovesFrom b (r, c) piece side in
    Ret (captures ++ caps, quiets ++ qs, b').

(** The two nested loops of [AllLegalMoves]: the capture list, the quiet
    list, and the board object after the scan. *)
Definition scan_board (b : Board) (side : Side)
  : outcome (list Move * list Move * Board) :=
  for_each (fun r acc => for_each (fun c acc => scan_cell side r c acc) (range 0 size) acc)
           (range 0 size) ([], [], b).

(** Returns the move list and the board object after the call. *)
Definition AllLegalMoves (b : Board) (side : Side) : outcome (list Move * Board) :=
  let! '(captures, quiets, b') := scan_board b side in
  Ret (match captures with [] => quiets | _ => captures end, b').

Definition promoted (piece : cell) (tr : Z) : cell :=
  if bool_decide (piece = WMan) && (tr =? 0) then WKing
  else if bool_decide (piece = BMan) && (tr =? size - 1) then BKing
  else piece.

Definition ApplyMove (b : Board) (move : Move) : outcome Board :=
  let '(sr, sc) := StartingMoveLocation move in
  let '(tr, tc) := TargetingMoveLocation move in
  let! piece := PieceAt b (sr, sc) in
  let! b1 := SetPiece b (sr, sc) Vacant in
  let! b2 := for_each (fun c b => SetPiece b c Vacant) (captured move) b1 in
  SetPiece b2 (tr, tc) (promoted piece tr).

(** Short-circuit [or] of four tests; the two move enumerations run on the
    board object itself. *)
Definition IsTerminal (b : Board) : outcome (bool * Board) :=
  if negb (_HasPieces b White) then Ret (true, b)
  else if negb (_HasPieces b Black) then Ret (true, b)
  else
    let! '(mw, b1) := AllLegalMoves b White in
    if (Z.of_nat (length mw) =? 0) then Ret (true, b1)
    else
      let! '(mb, b2) := AllLegalMoves b1 Black in
      Ret (Z.of_nat (length mb) =? 0, b2).

(** The character a square holds, and the one-character string of it. *)
Definition cell_chr (p : cell) : ascii :=
  match p with
  | Vacant => "."
  | WMan => "w"
  | WKing => "W"
  | BMan => "b"
  | BKing => "B"
  end%char.

Definition cell_str (p : cell) : string := String (cell_chr p) EmptyString.

(** The line-feed string. *)
Definition newline : string := String (ascii_of_nat 10) EmptyString.

(** [sep.join(parts)] *)
Fixpoint join (sep : string) (parts : list string) : string :=
  match parts with
  | [] => EmptyString
  | [s] => s
  | s :: rest => s +:+ sep +:+ join sep rest
  end.

(** [str(n)] and the [{n}] of an f-string, for an integer. *)
Definition str (n : Z) : string := pretty n.

Definition Pretty (b : Board) : outcome string :=
  let header := "   " +:+ join " " (map str (range 0 size)) in
  let! lines :=
    for_each (fun r lines =>
      let! line :=
        for_each (fun c line =>
          let! p := PieceAt b (r, c) in Ret (line ++ [cell_str p]))
          (range 0 size) [str r] in
      Ret (lines ++ [str r +:+ "  " +:+ join " " (drop 1 line)]))
      (range 0 size) [header] in
  Ret (join newline lines).

(** ** game_utilities.py *)

Record MoveAnalytics := mkAnalytics {
  NodesExpanded : Z;
  MaxFringeSize : Z;
  AlphaBetaCuts : Z;
  OrderingComparisons : Z;
  OrderingGains : Z;
  ElapsedMs : Z
}.

(** [MoveAnalytics()] *)
Definition fresh_analytics : MoveAnalytics := mkAnalytics 0 0 0 0 0 0.

(** [CumulativeAnalytics]: the records added so far, oldest first. [Add]
    stores the record it is given; its callers hand it a record that
    nothing writes to afterwards. *)
Record CumulativeAnalytics := mkCumulative {
  PerMove : list MoveAnalytics
}.

(** [CumulativeAnalytics()] *)
Definition no_analytics : CumulativeAnalytics := mkCumulative [].

Definition Add (self : CumulativeAnalytics) (m : MoveAnalytics) : CumulativeAnalytics :=
  mkCumulative (PerMove self ++ [m]).

(** One iteration of the loop of [Summary]. *)
Definition accumulate (total m : MoveAnalytics) : MoveAnalytics :=
  mkAnalytics (NodesExpanded total + NodesExpanded m)
              (Z.max (MaxFringeSize total) (MaxFringeSize m))
              (AlphaBetaCuts total + AlphaBetaCuts m)
              (OrderingComparisons total + OrderingComparisons m)
              (OrderingGains total + OrderingGains m)
              (ElapsedMs total + ElapsedMs m).

(** The dictionary [Summary] returns, as its items in insertion order. *)
Definition Summary (self : CumulativeAnalytics) : list (string * Z) :=
  let total := foldl accumulate fresh_analytics (PerMove self) in
  [ ("TotalNodesExpanded", NodesExpanded total);
    ("MaxFringeSize", MaxFringeSize total);
    ("TotalAlphaBetaCuts", AlphaBetaCuts total);
    ("TotalOrderingComparisons", OrderingComparisons total);
    ("TotalOrderingGains", OrderingGains total);
    ("TotalElapsedMs", ElapsedMs total) ]%string.

Definition PrettyAnalytics (move_index : Z) (who : string) (m : MoveAnalytics) : string :=
  ("[Move " +:+ str move_index +:+ " - " +:+ who +:+ "] "
   +:+ "NodesExpanded=" +:+ str (NodesExpanded m)
   +:+ ", MaxFringeSize=" +:+ str (MaxFringeSize m) +:+ ", "
   +:+ "AlphaBetaCuts=" +:+ str (AlphaBetaCuts m)
   +:+ ", OrderingComparisons=" +:+ str (OrderingComparisons m) +:+ ", "
   +:+ "OrderingGains=" +:+ str (OrderingGains m)
   +:+ ", ElapsedMs=" +:+ str (ElapsedMs m))%string.

Definition cell_score (r : Z) (p : cell) : Z :=
  match p with
  | BMan => 3 + r
  | BKing => 5
  | WMan => - (3 + (size - 1 - r))
  | WKing => - 5
  | Vacant => 0
  end.

Definition HeuristicScore (board : Board) : outcome Z :=
  for_each (fun r value =>
    for_each (fun c value =>
      let! p := PieceAt board (r, c) in
      Ret (value + cell_score r p))
      (range 0 size) value)
    (range 0 size) 0.

(** ** search_tool_box.py *)

(** The fields of a [SearchToolBox] that [__init__] sets and nothing else
    assigns. The [Analytics] field is mutable and lives in [World]. *)
Record SearchToolBox := mkToolBox {
  mode : string;
  UseOrdering : bool;
  UseAlphaBeta : bool
}.

Definition SearchToolBox_init (mode : string) : SearchToolBox :=
  mkToolBox mode
    (String.eqb mode "alpha-beta-ordering")
    (String.eqb mode "alpha-beta" || String.eqb mode "alpha-beta-ordering").

(** What a search call reads and writes besides its board: the analytics
    record of the tool box and the number of clock readings taken so far. *)
Record World := mkWorld {
  Analytics : MoveAnalytics;
  ticks : nat
}.

Definition M (A : Type) : Type := World -> outcome (A * World).

Definition retM {A} (a : A) : M A := fun w => Ret (a, w).

Definition bindM {A B} (m : M A) (k : A -> M B) : M B :=
  fun w => match m w with
           | Ret (a, w') => k a w'
           | Raise e => Raise e
           end.

Notation "'let*' x ':=' m 'in' k" := (bindM m (fun x => k))
  (at level 10, x name, m at level 100, k at level 200, only parsing).
Notation "'let*' ' pat ':=' m 'in' k" := (bindM m (fun x => match x with pat => k end))
  (at level 10, pat pattern, m at level 100, k at level 200, only parsing).

Definition lift {A} (o : outcome A) : M A :=
  fun w => match o with Ret a => Ret (a, w) | Raise e => Raise e end.

Definition update_analytics (f : MoveAnalytics -> MoveAnalytics) : M unit :=
  fun w => Ret (tt, mkWorld (f (Analytics w)) (ticks w)).

Definition add_NodesExpanded (n : Z) (a : MoveAnalytics) : MoveAnalytics :=
  mkAnalytics (NodesExpanded a + n) (MaxFringeSize a) (AlphaBetaCuts a)
              (OrderingComparisons a) (OrderingGains a) (ElapsedMs a).
Definition add_AlphaBetaCuts (n : Z) (a : MoveAnalytics) : MoveAnalytics :=
  mkAnalytics (NodesExpanded a) (MaxFringeSize a) (AlphaBetaCuts a + n)
              (OrderingComparisons a) (OrderingGains a) (ElapsedMs a).
Definition add_OrderingComparisons (n : Z) (a : MoveAnalytics) : MoveAnalytics :=
  mkAnalytics (NodesExpanded a) (MaxFringeSize a) (AlphaBetaCuts a)
              (OrderingComparisons a + n) (OrderingGains a) (ElapsedMs a).
Definition add_OrderingGains (n : Z) (a : MoveAnalytics) : MoveAnalytics :=
  mkAnalytics (NodesExpanded a) (MaxFringeSize a) (AlphaBetaCuts a)
              (OrderingComparisons a) (OrderingGains a + n) (ElapsedMs a).
Definition add_ElapsedMs (n : Z) (a : MoveAnalytics) : MoveAnalytics :=
  mkAnalytics (NodesExpanded a) (MaxFringeSize a) (AlphaBetaCuts a)
              (OrderingComparisons a) (OrderingGains a) (ElapsedMs a + n).

(** [x > y] on clock readings. *)
Definition Qgtb (x y : Q) : bool := negb (Qle_bool x y).

(** [int(q)]: truncation toward zero. *)
Definition py_int (q : Q) : Z := Z.quot (Qnum q) (Z.pos (Qden q)).

(** Stable sort by descending score: [sort(key=..., reverse=True)]. *)
Fixpoint insert_desc (x : Z * Move) (l : list (Z * Move)) : list (Z * Move) :=
  match l with
  | [] => [x]
  | y :: l' => if x.1 <? y.1 then y :: insert_desc x l' else x :: y :: l'
  end.

Definition sort_desc (l : list (Z * Move)) : list (Z * Move) :=
  foldr insert_desc [] l.

Definition INF : Z := 10 ^ 9.

Section Search.

  (** The readings of [time.time()], in seconds, in the order they are
      taken: the [n]-th call returns [clock n]. A reading is a float, that
      is, a rational number; [>] on floats compares those numbers. *)
Variable clock : nat -> Q.

Definition time : M Q :=
    fun w => Ret (clock (ticks w), mkWorld (Analytics w) (S (ticks w))).

Variable self : SearchToolBox.

Definition score_move (board : Board) (side : Side) (m : Move) : outcome (Z * Move) :=
    let clone := Clone board in
    let! clone := ApplyMove clone m in
    let! score := HeuristicScore clone in
    let score := if bool_decide (side = White) then - score else score in
    Ret (score, m).

Definition _OrderMoves (board : Board) (side : Side) (moves : list Move)
    : M (list Move) :=
    if negb (UseOrdering self) then retM moves
    else
      let* scored :=
        lift (for_each (fun m scored =>
                          let! sm := score_move board side m in
                          Ret (scored ++ [sm]))
                       moves []) in
      let scored := sort_desc scored in
      let* _ := update_analytics
                  (add_OrderingComparisons (Z.max 0 (Z.of_nat (length scored) - 1))) in
      retM (map snd scored).

Section Depth.

Variable deadline : Q.

Definition static_value (bd : Board) : M (Z * Board) :=
      let* h := lift (HeuristicScore bd) in retM (h, bd).

    (** The loop over the ordered moves in [max_value]; [child] is
        [min_value] one ply down. *)
Fixpoint max_loop (child : Board -> Z -> Z -> M (Z * Board))
        (bd : Board) (ordered : list Move) (best a be : Z) : M Z :=
      match ordered with
      | [] => retM best
      | m :: rest =>
        let clone := Clone bd in
        let* clone := lift (ApplyMove clone m) in
        let* '(val, _) := child clone a be in
        let best := Z.max best val in
        let a := Z.max a best in
        if UseAlphaBeta self && (a >=? be) then
          let* _ := update_analytics (add_AlphaBetaCuts 1) in
          retM best
        else max_loop child bd rest best a be
      end.

    (** The loop over the ordered moves in [min_value]. *)
Fixpoint min_loop (child : Board -> Z -> Z -> M (Z * Board))
        (bd : Board) (ordered : list Move) (best a be : Z) : M Z :=
      match ordered with
      | [] => retM best
      | m :: rest =>
        let clone := Clone bd in
        let* clone := lift (ApplyMove clone m) in
        let* '(val, _) := child clone a be in
        let best := Z.min best val in
        let be := Z.min be best in
        if UseAlphaBeta self && (a >=? be) then
          let* _ := update_analytics (add_AlphaBetaCuts 1) in
          retM best
        else min_loop child bd rest best a be
      end.

    (** [max_value] and [min_value]; each returns its value and the board
        object it was given, as the call leaves it. *)
Fixpoint max_value (d : nat) (bd : Board) (a be : Z) {struct d} : M (Z * Board) :=
      let* t := time in
      if Qgtb t deadline then static_value bd
      else
        let* _ := update_analytics (add_NodesExpanded 1) in
        match d with
        | O => static_value bd
        | S d' =>
          let* '(terminal, bd) := lift (IsTerminal bd) in
          if terminal then static_value bd
          else
            let* '(moves, bd) := lift (AllLegalMoves bd Black) in
            match moves with
            | [] => static_value bd
            | _ =>
              let* ordered := _OrderMoves bd Black moves in
              let* best := max_loop (min_value d') bd ordered (- INF) a be in
              retM (best, bd)
            end
        end
    with min_value (d : nat) (bd : Board) (a be : Z) {struct d} : M (Z * Board) :=
      let* t := time in
      if Qgtb t deadline then static_value bd
      else
        let* _ := update_analytics (add_NodesExpanded 1) in
        match d with
        | O => static_value bd
        | S d' =>
          let* '(terminal, bd) := lift (IsTerminal bd) in
          if terminal then static_value bd
          else
            let* '(moves, bd) := lift (AllLegalMoves bd White) in
            match moves with
            | [] => static_value bd
            | _ =>
              let* ordered := _OrderMoves bd White moves in
              let* best := min_loop (max_value d') bd ordered INF a be in
              retM (best, bd)
            end
        end.

    (** The root loop of [_SearchDepth] over [enumerate(moves)]; [d] is
        [depth - 1]. *)
Fixpoint root_loop (maximizing : bool) (d : nat) (board : Board)
        (moves : list Move) (idx : Z)
        (best_move : option Move) (best_score alpha beta : Z)
      : M (option Move * Z) :=
      match moves with
      | [] => retM (best_move, best_score)
      | m :: rest =>
        let clone := Clone board in
        let* clone := lift (ApplyMove clone m) in
        let* '(best_move, best_score, alpha, beta) :=
          if maximizing then
            let* '(score, _) := min_value d clone alpha beta in
            let* '(best_move, best_score) :=
              if score >? best_score then
                let* _ := if idx >? 0 then update_analytics (add_OrderingGains 1)
                          else retM tt in
                retM (Some m, score)
              else retM (best_move, best_score) in
            retM (best_move, best_score, Z.max alpha best_score, beta)
          else
            let* '(score, _) := max_value d clone alpha beta in
            let* '(best_move, best_score) :=
              if score <? best_score then
                let* _ := if idx >? 0 then update_analytics (add_OrderingGains 1)
                          else retM tt in
                retM (Some m, score)
              else retM (best_move, best_score) in
            retM (best_move, best_score, alpha, Z.min beta best_score) in
        let* t := time in
        if Qgtb t deadline then retM (best_move, best_score)
        else root_loop maximizing d board rest (idx + 1) best_move best_score alpha beta
      end.

    (** [depth] is at least 1 in every call [ChooseMove] makes; the model
        covers those calls. Returns the move, the score, and the caller's
        board object as the call leaves it. The milliseconds added to
        [ElapsedMs] are counted on the exact difference of the two
        readings; Python rounds the difference and the product to floats
        before truncating, which can change the count in its last unit but
        cannot make it negative when the second reading is not the
        smaller. *)
Definition _SearchDepth (board : Board) (side : Side) (depth : nat)
      : M (option Move * option Z * Board) :=
      let* start := time in
      let maximizing := bool_decide (side = Black) in
      let* '(moves, board) := lift (AllLegalMoves board side) in
      match moves with
      | [] => retM (None, None, board)
      | _ =>
        let* moves := _OrderMoves board side moves in
        let best_score := if maximizing then - INF else INF in
        let* '(best_move, best_score) :=
          root_loop maximizing (Nat.pred depth) board moves 0 None best_score (- INF) INF in
        let* t := time in
        let* _ := update_analytics
                    (add_ElapsedMs (py_int ((t - start) * inject_Z 1000))) in
        retM (best_move, Some best_score, board)
      end.

End Depth.

  (** [x + n] for a float [x] and an integer [n], as Python computes it: the
      sum rounded to a float. Nothing is assumed about the rounding. *)
Variable float_add : Q -> Z -> Q.

  (** The iterative-deepening loop of [ChooseMove], with its [break]. *)
Fixpoint deepening (deadline : Q) (board : Board) (side : Side) (depths : list Z)
      (best_move : option Move) (best_score : option Z)
    : M (option Move * option Z * Board) :=
    match depths with
    | [] => retM (best_move, best_score, board)
    | depth :: rest =>
      let* '(move, score, board) := _SearchDepth deadline board side (Z.to_nat depth) in
      let* t := time in
      if Qgtb t deadline then retM (best_move, best_score, board)
      else
        match move with
        | Some _ => deepening deadline board side rest move score
        | None => deepening deadline board side rest best_move best_score
        end
    end.

  (** Returns the chosen move and the caller's board object as the call
      leaves it. *)
Definition ChooseMove (board : Board) (side : Side) (SecondsBudget PlyLimit : Z)
    : M (option Move * Board) :=
    let* _ := update_analytics (fun _ => fresh_analytics) in
    let* now := time in
    let deadline := float_add now (Z.max 1 SecondsBudget) in
    let* '(best_move, _, board) :=
      deepening deadline board side (range 1 (Z.max 1 PlyLimit + 1)) None None in
    match best_move with
    | None =>
      let* '(moves, board) := lift (AllLegalMoves board side) in
      retM (head moves, board)
    | Some _ => retM (best_move, board)
    end.

End Search.

(** ** playing_the_game.py *)

(** The fields of a [PlayingTheGame] that change during a game, and the
    lines printed so far. The analytics record of [self.Bot] lives in
    [World]. *)
Record PlayingTheGame := mkGame {
  game_Board : Board;
  Bot : SearchToolBox;
  game_SecondsBudget : Z;
  game_PlyLimit : Z;
  WhiteStats : CumulativeAnalytics;
  BlackStats : CumulativeAnalytics;
  printed : list string
}.

(** [PlayingTheGame(mode, seconds_budget, ply_limit)] *)
Definition PlayingTheGame_init (mode : string) (seconds_budget ply_limit : Z)
  : outcome PlayingTheGame :=
  let! board := _InitialBoard in
  Ret (mkGame board (SearchToolBox_init mode) seconds_budget ply_limit
              no_analytics no_analytics []).

(** [print(line)] *)
Definition print (line : string) (g : PlayingTheGame) : PlayingTheGame :=
  mkGame (game_Board g) (Bot g) (game_SecondsBudget g) (game_PlyLimit g)
         (WhiteStats g) (BlackStats g) (printed g ++ [line]).

(** Standard input as [InputMove] sees it: for each line to come, the
    integer [int(input(...))] makes of it, or None when that raises. At the
    end of the input [input] raises as well. *)
Definition Stdin := list (option Z).

(** [n] successive [int(input(...))], stopping at the first that raises:
    the integers read, or None, and the input left. *)
Fixpoint read_ints (n : nat) (stdin : Stdin) : option (list Z) * Stdin :=
  match n with
  | O => (Some [], stdin)
  | S n' =>
    match stdin with
    | [] => (None, [])
    | None :: rest => (None, rest)
    | Some v :: rest =>
      let '(vs, rest') := read_ints n' rest in
      (cons v <$> vs, rest')
    end
  end.

(** The loop of [InputMove] over the legal moves. *)
Fixpoint first_match (legal : list Move) (s t : Coordinate) : option Move :=
  match legal with
  | [] => None
  | m :: rest =>
    if bool_decide (StartingMoveLocation m = s) && bool_decide (TargetingMoveLocation m = t)
    then Some m
    else first_match rest s t
  end.

(** Returns the move, the game object as the call leaves it, and the input
    left. The prompts of [input] are not part of [printed]. *)
Definition InputMove (g : PlayingTheGame) (stdin : Stdin)
  : outcome (option Move * PlayingTheGame * Stdin) :=
  let! shown := Pretty (game_Board g) in
  let g := print shown g in
  match read_ints 4 stdin with
  | (Some [sx; sy; tx; ty], rest) =>
    let! '(legal, board) := AllLegalMoves (game_Board g) White in
    let g := mkGame board (Bot g) (game_SecondsBudget g) (game_PlyLimit g)
                    (WhiteStats g) (BlackStats g) (printed g) in
    match first_match legal (sx, sy) (tx, ty) with
    | Some m => Ret (Some m, g, rest)
    | None =>
      Ret (None,
           print "Illegal move (note: captures are mandatory if available). Try again." g,
           rest)
    end
  | (_, rest) =>
    Ret (None, print "Invalid input. Please enter integers 0..7." g, rest)
  end.

Section TextUI.

Variable clock : nat -> Q.
Variable float_add : Q -> Z -> Q.

(** Returns the flag and the game object as the call leaves it. *)
Definition BotTurn (g : PlayingTheGame) : M (bool * PlayingTheGame) :=
  let* '(mv, board) :=
    ChooseMove clock (Bot g) float_add (game_Board g) Black
               (game_SecondsBudget g) (game_PlyLimit g) in
  let g := mkGame board (Bot g) (game_SecondsBudget g) (game_PlyLimit g)
                  (WhiteStats g) (BlackStats g) (printed g) in
  match mv with
  | None => retM (false, print "Bot has no legal moves." g)
  | Some mv =>
    let* board := lift (ApplyMove (game_Board g) mv) in
    let* analytics := (fun w => Ret (Analytics w, w)) in
    let stats := Add (BlackStats g) analytics in
    let g := mkGame board (Bot g) (game_SecondsBudget g) (game_PlyLimit g)
                    (WhiteStats g) stats (printed g) in
    retM (true,
          print (PrettyAnalytics (Z.of_nat (length (PerMove stats)))
                                 "Bot(Black)" analytics) g)
  end.

End TextUI.

(** ** playing_the_game_gui.py *)

Definition BOARD_SIZE : Z := 8.
Definition SQUARE : Z := 80.
Definition PADDING : Z := 30.

(** The rectangle [_HighlightSquare] outlines for square [(r, c)]:
    [(x0, y0, x1, y1)], the same corners [DrawBoard] fills. *)
Definition _HighlightSquare (r c : Z) : Z * Z * Z * Z :=
  let x0 := PADDING + c * SQUARE in
  let y0 := PADDING + r * SQUARE in
  let x1 := x0 + SQUARE in
  let y1 := y0 + SQUARE in
  (x0, y0, x1, y1).

(** [//] is floor division. *)
Definition _PixelToSquare (x y : Z) : option Z * option Z :=
  if negb ((PADDING <=? x) && (x <=? PADDING + BOARD_SIZE * SQUARE)
           && (PADDING <=? y) && (y <=? PADDING + BOARD_SIZE * SQUARE))
  then (None, None)
  else
    let c := (x - PADDING) / SQUARE in
    let r := (y - PADDING) / SQUARE in
    (Some r, Some c).

(** * Well-formed boards

    Every [GameBoard] the program builds is an 8x8 grid: [_InitialBoard]
    builds one, [Clone] copies one, and [SetPiece] keeps the shape. On such
    a board, reads and writes at coordinates that pass [Inside] never raise,
    and have the pure descriptions [cell_at] and [set_at]. *)

Definition wf_board (b : Board) : Prop :=
  length b = 8%nat /\ Forall (fun row => length row = 8%nat) b.

Definition on_board (rc : Coordinate) : Prop := Inside rc.1 rc.2 = true.

Definition cell_at (b : Board) (rc : Coordinate) : cell :=
  match b !! Z.to_nat rc.1 with
  | Some row => default Vacant (row !! Z.to_nat rc.2)
  | None => Vacant
  end.

Definition set_at (b : Board) (rc : Coordinate) (x : cell) : Board :=
  alter (fun row => <[Z.to_nat rc.2 := x]> row) (Z.to_nat rc.1) b.

Lemma Inside_bounds r c :
  Inside r c = true <-> 0 <= r < 8 /\ 0 <= c < 8.
Proof. unfold Inside, size. lia. Qed.

Lemma on_board_bounds rc : on_board rc <-> 0 <= rc.1 < 8 /\ 0 <= rc.2 < 8.
Proof. apply Inside_bounds. Qed.

Lemma py_norm_in_range (n : nat) (i : Z) :
  0 <= i < Z.of_nat n -> py_norm n i = Some (Z.to_nat i).
Proof.
  intros Hi. unfold py_norm.
  destruct (0 <=? i) eqn:E1; [|lia].
  destruct (i <? Z.of_nat n) eqn:E2; [reflexivity|lia].
Qed.

Lemma wf_board_row (b : Board) (r : Z) :
  wf_board b -> 0 <= r < 8 ->
  exists row, b !! Z.to_nat r = Some row /\ length row = 8%nat.
Proof.
  intros [Hlen Hrows] Hr.
  destruct (lookup_lt_is_Some_2 b (Z.to_nat r)) as [row Hrow]; [lia|].
  exists row. split; [done|].
  rewrite Forall_forall in Hrows. apply Hrows.
  by apply list_elem_of_lookup_2 in Hrow.
Qed.

Lemma PieceAt_wf (b : Board) (rc : Coordinate) :
  wf_board b -> on_board rc -> PieceAt b rc = Ret (cell_at b rc).
Proof.
  intros Hwf Hin. destruct rc as [r c].
  apply on_board_bounds in Hin. simpl in Hin. destruct Hin as [Hr Hc].
  destruct (wf_board_row b r Hwf Hr) as (row & Hrow & Hlen).
  unfold PieceAt, cell_at, py_getitem. cbn [fst snd].
  rewrite py_norm_in_range by (destruct Hwf; lia).
  rewrite Hrow. cbn [bind].
  rewrite py_norm_in_range by lia.
  destruct (lookup_lt_is_Some_2 row (Z.to_nat c)) as [x Hx]; [lia|].
  by rewrite Hx.
Qed.

Lemma set_at_wf (b : Board) (rc : Coordinate) (x : cell) :
  wf_board b -> wf_board (set_at b rc x).
Proof.
  intros [Hlen Hrows]. unfold set_at. split.
  - by rewrite length_alter.
  - apply Forall_alter; [done|]. intros row _ Hrow. by rewrite length_insert.
Qed.

Lemma SetPiece_wf (b : Board) (rc : Coordinate) (x : cell) :
  wf_board b -> on_board rc -> SetPiece b rc x = Ret (set_at b rc x).
Proof.
  intros Hwf Hin. destruct rc as [r c].
  apply on_board_bounds in Hin. simpl in Hin. destruct Hin as [Hr Hc].
  destruct (wf_board_row b r Hwf Hr) as (row & Hrow & Hlen).
  unfold SetPiece, set_at, py_getitem, py_setitem. cbn [fst snd].
  rewrite py_norm_in_range by (destruct Hwf; lia).
  rewrite Hrow. cbn [bind].
  rewrite py_norm_in_range by lia. cbn [bind].
  f_equal. apply list_eq. intros i.
  destruct (decide (i = Z.to_nat r)) as [->|Hne].
  - rewrite list_lookup_alter_eq, Hrow. simpl.
    apply list_lookup_insert_eq. destruct Hwf; lia.
  - rewrite list_lookup_alter_ne by done. by rewrite list_lookup_insert_ne.
Qed.

Lemma cell_at_set_eq (b : Board) (rc : Coordinate) (x : cell) :
  wf_board b -> on_board rc -> cell_at (set_at b rc x) rc = x.
Proof.
  intros Hwf Hin. apply on_board_bounds in Hin. destruct Hin as [Hr Hc].
  destruct (wf_board_row b rc.1 Hwf Hr) as (row & Hrow & Hlen).
  unfold cell_at, set_at. rewrite list_lookup_alter_eq, Hrow. simpl.
  rewrite list_lookup_insert_eq by lia. done.
Qed.

Lemma cell_at_set_ne (b : Board) (rc rc' : Coordinate) (x : cell) :
  on_board rc -> on_board rc' -> rc <> rc' ->
  cell_at (set_at b rc x) rc' = cell_at b rc'.
Proof.
  intros Hin Hin' Hne.
  apply on_board_bounds in Hin. apply on_board_bounds in Hin'.
  unfold cell_at, set_at.
  destruct (decide (Z.to_nat rc.1 = Z.to_nat rc'.1)) as [Heq|Hneq].
  - rewrite <- Heq, list_lookup_alter_eq.
    destruct (b !! Z.to_nat rc.1) as [row|]; simpl; [|done].
    rewrite list_lookup_insert_ne; [done|].
    intros Heq2. apply Hne. destruct rc, rc'; simpl in *. f_equal; lia.
  - by rewrite list_lookup_alter_ne.
Qed.

Lemma cell_at_set (b : Board) (rc rc' : Coordinate) (x : cell) :
  wf_board b -> on_board rc -> on_board rc' ->
  cell_at (set_at b rc x) rc' = if decide (rc = rc') then x else cell_at b rc'.
Proof.
  intros. case_decide; subst.
  - by apply cell_at_set_eq.
  - by apply cell_at_set_ne.
Qed.

(** Two well-formed boards with the same contents are the same board. *)
Lemma board_ext (b1 b2 : Board) :
  wf_board b1 -> wf_board b2 ->
  (forall rc, on_board rc -> cell_at b1 rc = cell_at b2 rc) -> b1 = b2.
Proof.
  intros Hwf1 Hwf2 Hext. apply list_eq. intros i.
  destruct (decide (i < 8)%nat) as [Hi|Hi].
  2:{ rewrite !lookup_ge_None_2; [done|destruct Hwf2; lia|destruct Hwf1; lia]. }
  destruct (wf_board_row b1 (Z.of_nat i) Hwf1) as (r1 & Hr1 & Hl1); [lia|].
  destruct (wf_board_row b2 (Z.of_nat i) Hwf2) as (r2 & Hr2 & Hl2); [lia|].
  rewrite Nat2Z.id in Hr1, Hr2. rewrite Hr1, Hr2. f_equal.
  apply list_eq. intros j.
  destruct (decide (j < 8)%nat) as [Hj|Hj].
  2:{ rewrite !lookup_ge_None_2; [done|lia|lia]. }
  specialize (Hext (Z.of_nat i, Z.of_nat j)).
  unfold cell_at in Hext. simpl in Hext. rewrite !Nat2Z.id, Hr1, Hr2 in Hext.
  destruct (lookup_lt_is_Some_2 r1 j) as [x1 Hx1]; [lia|].
  destruct (lookup_lt_is_Some_2 r2 j) as [x2 Hx2]; [lia|].
  rewrite Hx1, Hx2 in *. simpl in Hext. f_equal. apply Hext.
  apply on_board_bounds. simpl. lia.
Qed.

(** * Capture chains

    A chain is described by the directions of its jumps. [mid] is the
    jumped square and [land] the landing square of a jump from [f] in
    direction [d]; [can_jump] is the guard of [try_captures] read on a
    well-formed board; [jump_board] is the board as [try_captures] sets it
    up for the recursive call. *)

Definition mid (f : Coordinate) (d : Z * Z) : Coordinate := (f.1 + d.1, f.2 + d.2).
Definition land (f : Coordinate) (d : Z * Z) : Coordinate :=
  (f.1 + 2 * d.1, f.2 + 2 * d.2).

Definition can_jump (b : Board) (side : Side) (f : Coordinate) (d : Z * Z) : bool :=
  Inside (land f d).1 (land f d).2
  && bool_decide (cell_at b (land f d) = Vacant)
  && Inside (mid f d).1 (mid f d).2
  && bool_decide (cell_at b (mid f d) ∈ _Opponents side).

Definition jump_board (b : Board) (side : Side) (f : Coordinate) (d : Z * Z)
    (p : cell) : Board :=
  set_at (set_at (set_at b f Vacant) (mid f d) Vacant)
         (land f d) (landed_piece side (land f d).1 p).

(** Landing squares and jumped squares of the chain [ds] started at [f]. *)
Fixpoint landings (f : Coordinate) (ds : list (Z * Z)) : list Coordinate :=
  match ds with
  | [] => []
  | d :: ds' => land f d :: landings (land f d) ds'
  end.

Fixpoint jumped (f : Coordinate) (ds : list (Z * Z)) : list Coordinate :=
  match ds with
  | [] => []
  | d :: ds' => mid f d :: jumped (land f d) ds'
  end.

(** Board, square and rank of the moving piece after the chain [ds]. *)
Fixpoint replay (side : Side) (b : Board) (f : Coordinate) (p : cell)
    (ds : list (Z * Z)) : Board * Coordinate * cell :=
  match ds with
  | [] => (b, f, p)
  | d :: ds' =>
    replay side (jump_board b side f d p) (land f d)
           (landed_piece side (land f d).1 p) ds'
  end.

(** Every jump of [ds] goes in a direction of the piece's current rank,
    over an opponent piece not captured earlier in the chain, onto an empty
    square. [cs] are the squares captured before [ds] starts. *)
Fixpoint chain_ok (side : Side) (b : Board) (f : Coordinate) (p : cell)
    (cs : list Coordinate) (ds : list (Z * Z)) : Prop :=
  match ds with
  | [] => True
  | d :: ds' =>
    d ∈ _Directions p /\ can_jump b side f d = true /\ (mid f d ∉ cs) /\
    chain_ok side (jump_board b side f d p) (land f d)
             (landed_piece side (land f d).1 p) (cs ++ [mid f d]) ds'
  end.

(** No jump is left: every direction of rank [p] from [f] either fails the
    guard or jumps a square already captured. *)
Definition stuck (b : Board) (side : Side) (f : Coordinate) (p : cell)
    (cs : list Coordinate) : Prop :=
  forall d, d ∈ _Directions p -> can_jump b side f d = true -> mid f d ∈ cs.

(** [mv] is the record of a maximal chain that continues the chain
    [(pth, cs)], whose head stands on [f] with rank [p] on board [b]. *)
Definition extends (side : Side) (b : Board) (f : Coordinate) (p : cell)
    (pth cs : list Coordinate) (mv : Move) : Prop :=
  exists ds,
    path mv = pth ++ landings f ds /\
    captured mv = cs ++ jumped f ds /\
    chain_ok side b f p cs ds /\
    stuck (replay side b f p ds).1.1 side (replay side b f p ds).1.2
          (replay side b f p ds).2 (captured mv) /\
    head pth = Some (StartingMoveLocation mv) /\
    TargetingMoveLocation mv = (replay side b f p ds).1.2 /\
    is_capture mv = true /\
    captured mv <> [].

(** [seen] holds exactly the keys of the recorded chains, each once. *)
Definition seen_ok (st : GenState) : Prop :=
  NoDup (map move_key (g_captures st)) /\
  g_seen st = list_to_set (map move_key (g_captures st)).

Lemma Directions_unit (p : cell) (d : Z * Z) :
  d ∈ _Directions p -> (d.1 = -1 \/ d.1 = 1) /\ (d.2 = -1 \/ d.2 = 1).
Proof.
  destruct p; vm_compute _Directions; intros Hd;
    repeat (apply elem_of_cons in Hd as [->|Hd]; [simpl; lia|]);
    by apply elem_of_nil in Hd.
Qed.

Lemma can_jump_spec (b : Board) (side : Side) (f : Coordinate) (d : Z * Z) :
  can_jump b side f d = true <->
  on_board (land f d) /\ cell_at b (land f d) = Vacant /\
  on_board (mid f d) /\ cell_at b (mid f d) ∈ _Opponents side.
Proof.
  unfold can_jump, on_board.
  rewrite !andb_true_iff, !bool_decide_eq_true. tauto.
Qed.

Lemma jump_guard_wf (b : Board) (side : Side) (f : Coordinate) (d : Z * Z) :
  wf_board b ->
  jump_guard b side (land f d) (mid f d) = Ret (can_jump b side f d).
Proof.
  intros Hwf. unfold jump_guard, can_jump.
  destruct (Inside (land f d).1 (land f d).2) eqn:Hl; [|done].
  rewrite PieceAt_wf by done. cbn [bind andb].
  destruct (bool_decide (cell_at b (land f d) = Vacant)); [|done].
  destruct (Inside (mid f d).1 (mid f d).2) eqn:Hm; [|done].
  rewrite PieceAt_wf by done. done.
Qed.

(** The three writes after the recursive call undo the three writes
    before it. *)
Lemma jump_restore (b : Board) (f m l : Coordinate) (x : cell) :
  wf_board b -> on_board f -> on_board m -> on_board l ->
  f <> m -> f <> l -> m <> l ->
  set_at
    (set_at
       (set_at (set_at (set_at (set_at b f Vacant) m Vacant) l x) f (cell_at b f))
       m (cell_at (set_at b f Vacant) m))
    l (cell_at (set_at (set_at b f Vacant) m Vacant) l) = b.
Proof.
  intros Hwf Hf Hm Hl Hfm Hfl Hml.
  apply board_ext; [by repeat apply set_at_wf|done|].
  intros rc Hrc.
  repeat (rewrite cell_at_set by (by repeat apply set_at_wf)).
  repeat case_decide; congruence.
Qed.

Lemma jump_squares_distinct (p : cell) (f : Coordinate) (d : Z * Z) :
  d ∈ _Directions p -> f <> mid f d /\ f <> land f d /\ mid f d <> land f d.
Proof.
  intros Hd. apply Directions_unit in Hd. destruct f as [r c], d as [dr dc].
  unfold mid, land. simpl in *.
  repeat split; intros [=]; lia.
Qed.

(** ** Loops *)

(** A loop that keeps an invariant and whose body never raises runs to the
    end. [I pre s] is the invariant after the elements [pre]. *)
Lemma for_each_inv {A S} (body : A -> S -> outcome S) (I : list A -> S -> Prop)
    (l : list A) (s0 : S) :
  I [] s0 ->
  (forall pre x post s, l = pre ++ x :: post -> I pre s ->
     exists s', body x s = Ret s' /\ I (pre ++ [x]) s') ->
  exists s', for_each body l s0 = Ret s' /\ I l s'.
Proof.
  intros H0 Hstep.
  assert (Hgen : forall post pre s, l = pre ++ post -> I pre s ->
            exists s', for_each body post s = Ret s' /\ I l s').
  { induction post as [|x post IH]; intros pre s Hl Hpre.
    - exists s. rewrite app_nil_r in Hl. by subst.
    - destruct (Hstep pre x post s Hl Hpre) as (s1 & Hb & H1).
      destruct (IH (pre ++ [x]) s1) as (s' & Hrun & Hend).
      + by rewrite <- app_assoc.
      + done.
      + exists s'. simpl. rewrite Hb. done. }
  by apply (Hgen l [] s0).
Qed.

Lemma py_getitem_first {A} (x : A) (l : list A) :
  py_getitem (x :: l) 0 = Ret x.
Proof.
  unfold py_getitem. rewrite py_norm_in_range by (simpl; lia). done.
Qed.

Lemma py_getitem_last {A} (x : A) (l : list A) :
  last l = Some x -> py_getitem l (-1) = Ret x.
Proof.
  intros Hlast. unfold py_getitem, py_norm.
  assert (Hlen : (1 <= length l)%nat) by (destruct l; [done|simpl; lia]).
  destruct (Z.leb_spec 0 (-1)); [lia|]. cbn [andb].
  destruct (Z.leb_spec (- Z.of_nat (length l)) (-1)); [|lia].
  destruct (Z.ltb_spec (-1) 0); [|lia]. cbn [andb].
  rewrite last_lookup in Hlast.
  replace (Z.to_nat (Z.of_nat (length l) + -1)) with (pred (length l)) by lia.
  by rewrite Hlast.
Qed.

(** ** The squares of the board *)

Lemma elem_of_range (lo hi x : Z) : x ∈ range lo hi <-> lo <= x < hi.
Proof.
  unfold range. rewrite list_elem_of_fmap. split.
  - intros (k & -> & Hk). apply elem_of_seq in Hk. lia.
  - intros Hx. exists (Z.to_nat (x - lo)). split; [lia|].
    apply elem_of_seq. lia.
Qed.

Lemma NoDup_range (lo hi : Z) : NoDup (range lo hi).
Proof.
  unfold range. apply NoDup_fmap_2; [|apply NoDup_seq].
  intros x y. lia.
Qed.

Definition all_squares : list Coordinate :=
  r ← range 0 size; c ← range 0 size; [(r, c)].

Lemma elem_of_all_squares (rc : Coordinate) : rc ∈ all_squares <-> on_board rc.
Proof.
  unfold all_squares. rewrite on_board_bounds. split.
  - intros Hin. apply list_elem_of_bind in Hin as (r & Hin & Hr).
    apply list_elem_of_bind in Hin as (c & Hin & Hc).
    apply list_elem_of_singleton in Hin as ->.
    apply elem_of_range in Hr, Hc. unfold size in *. simpl. lia.
  - intros [Hr Hc]. destruct rc as [r c]. cbn [fst snd] in *.
    apply list_elem_of_bind. exists r. split; [|apply elem_of_range; unfold size; lia].
    apply list_elem_of_bind. exists c. split; [|apply elem_of_range; unfold size; lia].
    by apply list_elem_of_singleton.
Qed.

(** A chain cannot capture more squares than the board has. *)
Lemma captured_bound (cs : list Coordinate) :
  NoDup cs -> Forall on_board cs -> (length cs <= 64)%nat.
Proof.
  intros Hnd Hon.
  change 64%nat with (length all_squares).
  apply submseteq_length, NoDup_submseteq; [done|].
  intros rc Hrc. apply elem_of_all_squares.
  rewrite Forall_forall in Hon. by apply Hon.
Qed.

(** ** [try_captures] *)

Section Chains.

Variable side : Side.

  (** What a call of [try_captures] may rely on: a well-formed board, a
      chain head on the board that ends the path, distinct captured
      squares, and fuel for the jumps that can still follow. *)
Definition chain_pre (fuel : nat) (f : Coordinate) (pth cs : list Coordinate)
      (st : GenState) : Prop :=
    wf_board (g_board st) /\ on_board f /\ last pth = Some f /\
    NoDup cs /\ Forall on_board cs /\ (65 <= fuel + length cs)%nat.

  (** What the call establishes: the board is as before; [seen] stays in
      step with the recorded chains; the chains it appends are maximal
      continuations of the current chain; and it records at least one
      chain when the current chain has a capture or can take one. *)
Definition chain_post (f : Coordinate) (p : cell) (pth cs : list Coordinate)
      (st st' : GenState) : Prop :=
    g_board st' = g_board st /\
    (seen_ok st -> seen_ok st') /\
    (exists new, g_captures st' = g_captures st ++ new /\
       Forall (extends side (g_board st) f p pth cs) new) /\
    (seen_ok st ->
     cs <> [] \/ (exists d, d ∈ _Directions p /\
                   can_jump (g_board st) side f d = true /\ mid f d ∉ cs) ->
     g_captures st' <> []).

Definition chain_correct (fuel : nat)
      (rec : Z -> Z -> cell -> list Coordinate -> list Coordinate ->
             GenState -> outcome GenState) : Prop :=
    forall fr fc p pth cs st,
      chain_pre fuel (fr, fc) pth cs st ->
      exists st', rec fr fc p pth cs st = Ret st' /\
                  chain_post (fr, fc) p pth cs st st'.

Lemma extends_step (b : Board) (f : Coordinate) (p : cell)
      (pth cs : list Coordinate) (d : Z * Z) (mv : Move) :
    pth <> [] ->
    d ∈ _Directions p -> can_jump b side f d = true -> mid f d ∉ cs ->
    extends side (jump_board b side f d p) (land f d)
            (landed_piece side (land f d).1 p)
            (pth ++ [land f d]) (cs ++ [mid f d]) mv ->
    extends side b f p pth cs mv.
  Proof.
    intros Hne Hd Hjump Hfresh (ds & Hpath & Hcap & Hok & Hstuck & Hhead & Htgt & Hflag & Hnn).
    exists (d :: ds). cbn [landings jumped chain_ok replay].
    split; [by rewrite Hpath, <- app_assoc|].
    split; [by rewrite Hcap, <- app_assoc|].
    split; [done|]. split; [done|].
    split; [|done]. by destruct pth.
  Qed.

  (** The invariant of the loop over directions: [b] is the board at loop
      entry, [st] the state at loop entry, [pre] the directions done. *)
Definition dirs_inv (f : Coordinate) (p : cell) (pth cs : list Coordinate)
      (st : GenState) (pre : list (Z * Z)) (acc : bool * GenState) : Prop :=
    g_board acc.2 = g_board st /\
    (seen_ok st -> seen_ok acc.2) /\
    (exists new, g_captures acc.2 = g_captures st ++ new /\
       Forall (extends side (g_board st) f p pth cs) new) /\
    (acc.1 = true -> seen_ok st -> g_captures acc.2 <> []) /\
    (acc.1 = false ->
     forall d, d ∈ pre -> can_jump (g_board st) side f d = true -> mid f d ∈ cs).

Lemma jump_step_correct (fuel : nat) rec (fr fc : Z) (p : cell)
      (pth cs : list Coordinate) (st : GenState)
      (pre : list (Z * Z)) (d : Z * Z) (acc : bool * GenState) :
    chain_correct fuel rec ->
    chain_pre (S fuel) (fr, fc) pth cs st ->
    d ∈ _Directions p ->
    dirs_inv (fr, fc) p pth cs st pre acc ->
    exists acc', jump_step rec side fr fc p pth cs d acc = Ret acc' /\
                 dirs_inv (fr, fc) p pth cs st (pre ++ [d]) acc'.
  Proof.
    intros Hrec (Hwf & Hf & Hlast & Hnd & Hon & Hfuel) Hd
           (Hb & Hseen & (new & Hnew & Hext) & Hfound & Hnone).
    destruct acc as [found stc]. destruct d as [dr dc]. simpl in Hb, Hseen, Hnew, Hfound, Hnone.
    unfold jump_step.
    change (fr + 2 * dr, fc + 2 * dc) with (land (fr, fc) (dr, dc)).
    change (fr + dr, fc + dc) with (mid (fr, fc) (dr, dc)).
    change (fr + 2 * dr) with (land (fr, fc) (dr, dc)).1.
    change (fc + 2 * dc) with (land (fr, fc) (dr, dc)).2.
    set (f := (fr, fc)) in *. set (d := (dr, dc)) in *.
    rewrite Hb, jump_guard_wf by done. cbn [bind].
    destruct (can_jump (g_board st) side f d) eqn:Hjump.
    2:{ eexists. split; [done|]. unfold dirs_inv; split_and!; simpl; try done.
        - by exists new.
        - intros Hnf d' Hd' Hj'. apply elem_of_app in Hd' as [Hd'|Hd'].
          + by apply Hnone.
          + apply list_elem_of_singleton in Hd' as ->. congruence. }
    destruct (bool_decide (mid f d ∈ cs)) eqn:Hcap.
    { apply bool_decide_eq_true in Hcap.
      eexists. split; [done|]. unfold dirs_inv; split_and!; simpl; try done.
      - by exists new.
      - intros Hnf d' Hd' Hj'. apply elem_of_app in Hd' as [Hd'|Hd'].
        + by apply Hnone.
        + by apply list_elem_of_singleton in Hd' as ->. }
    apply bool_decide_eq_false in Hcap.
    pose proof Hjump as Hj. apply can_jump_spec in Hj as (Hl & Hlv & Hm & Hmo).
    destruct (jump_squares_distinct p f d Hd) as (Hfm & Hfl & Hml).
    set (b := g_board st) in *.
    rewrite (PieceAt_wf b f), (SetPiece_wf b f) by done. cbn [bind].
    rewrite (PieceAt_wf (set_at b f Vacant)), (SetPiece_wf (set_at b f Vacant))
      by (done || by apply set_at_wf).
    cbn [bind].
    rewrite (PieceAt_wf (set_at (set_at b f Vacant) (mid f d) Vacant)),
            (SetPiece_wf (set_at (set_at b f Vacant) (mid f d) Vacant))
      by (done || by repeat apply set_at_wf).
    cbn [bind].
    change (fst (land f d)) with (land f d).1.
    fold (jump_board b side f d p).
    destruct (Hrec (land f d).1 (land f d).2 (landed_piece side (land f d).1 p)
                (pth ++ [land f d]) (cs ++ [mid f d])
                (with_board stc (jump_board b side f d p)))
      as (st' & Hrun & Hb' & Hseen' & (new' & Hnew' & Hext') & Hnn').
    { unfold chain_pre; split_and!; simpl.
      - by repeat apply set_at_wf.
      - done.
      - by rewrite last_snoc.
      - apply NoDup_app. repeat split; [done| |apply NoDup_singleton].
        intros x Hx Hx'. apply list_elem_of_singleton in Hx' as ->. done.
      - apply Forall_app. split; [done|]. by apply Forall_singleton.
      - rewrite length_app. simpl. lia. }
    change ((land f d).1, (land f d).2) with (land f d) in Hrun.
    change (fst (land f d)) with (land f d).1 in Hrun.
    rewrite Hrun. cbn [bind]. simpl in Hb'. rewrite Hb'.
    unfold jump_board.
    do 3 (rewrite SetPiece_wf by (done || by repeat apply set_at_wf); cbn [bind]).
    rewrite jump_restore by done.
    eexists. split; [done|]. unfold dirs_inv; split_and!; simpl.
    - done.
    - intros Hs. by apply Hseen', Hseen.
    - exists (new ++ new'). split.
      + simpl in Hnew'. by rewrite Hnew', Hnew, app_assoc.
      + apply Forall_app. split; [done|].
        eapply Forall_impl; [exact Hext'|]. intros mv Hmv. simpl in Hmv.
        apply (extends_step b f p pth cs d); try done.
        intros ->. done.
    - intros _ Hs. apply Hnn'; [by apply Hseen|].
      left. intros Heq. by apply app_eq_nil in Heq as [_ [=]].
    - done.
  Qed.

Lemma record_chain_correct (f : Coordinate) (p : cell)
      (pth cs : list Coordinate) (st : GenState) (acc : bool * GenState) :
    last pth = Some f ->
    dirs_inv f p pth cs st (_Directions p) acc ->
    exists st', record_chain acc.1 pth cs acc.2 = Ret st' /\
                chain_post f p pth cs st st'.
  Proof.
    intros Hlast (Hb & Hseen & (new & Hnew & Hext) & Hfound & Hnone).
    destruct acc as [found st1]. simpl in *.
    unfold record_chain. destruct found; cbn [negb andb].
    { exists st1. split; [done|]. unfold chain_post; split_and!; try done.
      - by exists new.
      - intros Hs _. by apply Hfound. }
    specialize (Hnone eq_refl).
    destruct (decide (cs = [])) as [->|Hcs].
    { exists st1. split; [done|]. unfold chain_post; split_and!; try done.
      - by exists new.
      - intros _ [?|(d & Hd & Hj & Hfresh)]; [done|].
        exfalso. apply Hfresh. by apply Hnone. }
    assert (Hlen : (0 <? Z.of_nat (length cs)) = true).
    { apply Z.ltb_lt. destruct cs; [done|]. simpl. lia. }
    rewrite Hlen.
    assert (Hfirst : exists s, head pth = Some s /\ py_getitem pth 0 = Ret s).
    { destruct pth as [|s pth']; [done|]. exists s. by rewrite py_getitem_first. }
    destruct Hfirst as (s & Hhead & ->).
    rewrite (py_getitem_last f pth Hlast). cbn [bind].
    set (mv := mkMove s f pth true cs).
    assert (Hmv : extends side (g_board st) f p pth cs mv).
    { exists []. cbn [landings jumped chain_ok replay]. rewrite !app_nil_r.
      by split_and!. }
    destruct (bool_decide (move_key mv ∈ g_seen st1)) eqn:Hkey.
    - apply bool_decide_eq_true in Hkey.
      exists st1. split; [done|]. unfold chain_post; split_and!; try done.
      + by exists new.
      + intros Hs _ Hnil. destruct (Hseen Hs) as [_ Hset].
        rewrite Hset, Hnil in Hkey. set_solver.
    - apply bool_decide_eq_false in Hkey.
      eexists. split; [done|]. unfold chain_post; split_and!; simpl; try done.
      + intros Hs. destruct (Hseen Hs) as [Hnd Hset]. split; simpl.
        * rewrite fmap_app. apply NoDup_app. split_and!; [done| |apply NoDup_singleton].
          intros k Hk Hk'. apply list_elem_of_singleton in Hk' as ->.
          apply Hkey. rewrite Hset. by apply elem_of_list_to_set.
        * rewrite Hset, fmap_app, list_to_set_app_L. simpl.
          rewrite (right_id_L ∅ (∪)). apply (comm_L (∪)).
      + exists (new ++ [mv]). split.
        * by rewrite Hnew, app_assoc.
        * apply Forall_app. split; [done|]. by apply Forall_singleton.
      + intros _ _ Hnil. by apply app_eq_nil in Hnil as [_ [=]].
  Qed.

  (** [try_captures] returns, with enough fuel, and meets its contract. *)
Lemma try_captures_correct (fuel : nat) :
    chain_correct fuel (try_captures fuel side).
  Proof.
    induction fuel as [|fuel IH]; intros fr fc p pth cs st Hpre.
    { destruct Hpre as (_ & _ & _ & Hnd & Hon & Hfuel).
      pose proof (captured_bound cs Hnd Hon). lia. }
    cbn [try_captures].
    destruct (for_each_inv
                (jump_step (try_captures fuel side) side fr fc p pth cs)
                (dirs_inv (fr, fc) p pth cs st) (_Directions p) (false, st))
      as (acc & Hrun & Hinv).
    { unfold dirs_inv; split_and!; simpl; try done.
      - exists []. by rewrite app_nil_r.
      - intros _ d Hd. by apply elem_of_nil in Hd. }
    { intros pre d post acc Hdirs Hinv.
      apply (jump_step_correct fuel); try done.
      rewrite Hdirs. apply elem_of_app. right. apply elem_of_cons. by left. }
    rewrite Hrun. cbn [bind]. destruct acc as [found st1].
    apply (record_chain_correct (fr, fc) p pth cs st (found, st1)); [|done].
    by destruct Hpre as (_ & _ & Hlast & _).
  Qed.

End Chains.

(** ** The recursion budget

    On any list of lists, well-formed or not, [try_captures] with the
    budget [_MovesFrom] gives it never stops for lack of fuel: a run either
    returns or raises [IndexError], as the Python code does. *)

Definition fuel_safe {A} (o : outcome A) : Prop := o <> Raise OutOfFuel.

Lemma fuel_safe_bind {A B} (m : outcome A) (k : A -> outcome B) :
  fuel_safe m -> (forall a, m = Ret a -> fuel_safe (k a)) -> fuel_safe (bind m k).
Proof.
  intros Hm Hk. destruct m as [a|e]; simpl; [by apply Hk|].
  intros [=->]. by apply Hm.
Qed.

Lemma fuel_safe_getitem {A} (l : list A) (i : Z) : fuel_safe (py_getitem l i).
Proof.
  unfold py_getitem, fuel_safe. destruct (py_norm (length l) i); [|done].
  by destruct (l !! n).
Qed.

Lemma fuel_safe_setitem {A} (l : list A) (i : Z) (x : A) :
  fuel_safe (py_setitem l i x).
Proof. unfold py_setitem, fuel_safe. by destruct (py_norm (length l) i). Qed.

Lemma fuel_safe_PieceAt (b : Board) (rc : Coordinate) : fuel_safe (PieceAt b rc).
Proof.
  destruct rc as [r c]. unfold PieceAt.
  apply fuel_safe_bind; [apply fuel_safe_getitem|]. intros; apply fuel_safe_getitem.
Qed.

Lemma fuel_safe_SetPiece (b : Board) (rc : Coordinate) (x : cell) :
  fuel_safe (SetPiece b rc x).
Proof.
  destruct rc as [r c]. unfold SetPiece.
  apply fuel_safe_bind; [apply fuel_safe_getitem|]. intros row _.
  apply fuel_safe_bind; [apply fuel_safe_setitem|]. intros; apply fuel_safe_setitem.
Qed.

Lemma fuel_safe_for_each {A S} (body : A -> S -> outcome S) (l : list A) (s : S) :
  (forall x s, x ∈ l -> fuel_safe (body x s)) -> fuel_safe (for_each body l s).
Proof.
  revert s. induction l as [|x l IH]; intros s Hbody; [done|].
  cbn [for_each]. apply fuel_safe_bind; [apply Hbody; by left|].
  intros s' _. apply IH. intros; apply Hbody; by right.
Qed.

Lemma jump_guard_true (b : Board) (side : Side) (l m : Coordinate) :
  jump_guard b side l m = Ret true -> on_board m.
Proof.
  unfold jump_guard, on_board.
  destruct (Inside l.1 l.2); [|done].
  destruct (PieceAt b l) as [pl|]; [|done]. cbn [bind].
  destruct (bool_decide (pl = Vacant)); [|done].
  by destruct (Inside m.1 m.2).
Qed.

Lemma fuel_safe_jump_guard (b : Board) (side : Side) (l m : Coordinate) :
  fuel_safe (jump_guard b side l m).
Proof.
  unfold jump_guard. destruct (Inside l.1 l.2); [|done].
  apply fuel_safe_bind; [apply fuel_safe_PieceAt|]. intros pl _.
  destruct (bool_decide (pl = Vacant)); [|done].
  destruct (Inside m.1 m.2); [|done].
  apply fuel_safe_bind; [apply fuel_safe_PieceAt|]. done.
Qed.

Lemma fuel_safe_record_chain (found : bool) (pth cs : list Coordinate)
    (st : GenState) :
  fuel_safe (record_chain found pth cs st).
Proof.
  unfold record_chain. destruct (negb found && _); [|done].
  apply fuel_safe_bind; [apply fuel_safe_getitem|]. intros s _.
  apply fuel_safe_bind; [apply fuel_safe_getitem|]. intros t _.
  by destruct (bool_decide _).
Qed.

Lemma try_captures_fuel_safe (fuel : nat) (side : Side) (fr fc : Z) (p : cell)
    (pth cs : list Coordinate) (st : GenState) :
  NoDup cs -> Forall on_board cs -> (65 <= fuel + length cs)%nat ->
  fuel_safe (try_captures fuel side fr fc p pth cs st).
Proof.
  revert fr fc p pth cs st.
  induction fuel as [|fuel IH]; intros fr fc p pth cs st Hnd Hon Hfuel.
  { pose proof (captured_bound cs Hnd Hon). simpl in Hfuel. lia. }
  cbn [try_captures]. apply fuel_safe_bind.
  2:{ intros [found st'] _. apply fuel_safe_record_chain. }
  apply fuel_safe_for_each. intros [dr dc] [found stc] _.
  unfold jump_step.
  apply fuel_safe_bind; [apply fuel_safe_jump_guard|]. intros ok Hok.
  destruct ok; [|done].
  destruct (bool_decide ((fr + dr, fc + dc) ∈ cs)) eqn:Hcap; [done|].
  apply bool_decide_eq_false in Hcap. apply jump_guard_true in Hok.
  apply fuel_safe_bind; [apply fuel_safe_PieceAt|]. intros orig _.
  apply fuel_safe_bind; [apply fuel_safe_SetPiece|]. intros b1 _.
  apply fuel_safe_bind; [apply fuel_safe_PieceAt|]. intros cap_orig _.
  apply fuel_safe_bind; [apply fuel_safe_SetPiece|]. intros b2 _.
  apply fuel_safe_bind; [apply fuel_safe_PieceAt|]. intros dest_orig _.
  apply fuel_safe_bind; [apply fuel_safe_SetPiece|]. intros b3 _.
  apply fuel_safe_bind.
  { apply IH.
    - apply NoDup_app. split_and!; [done| |apply NoDup_singleton].
      intros x Hx Hx'. by apply list_elem_of_singleton in Hx' as ->.
    - apply Forall_app. split; [done|]. by apply Forall_singleton.
    - rewrite length_app. simpl. lia. }
  intros st' _.
  apply fuel_safe_bind; [apply fuel_safe_SetPiece|]. intros b4 _.
  apply fuel_safe_bind; [apply fuel_safe_SetPiece|]. intros b5 _.
  apply fuel_safe_bind; [apply fuel_safe_SetPiece|]. done.
Qed.

Lemma MovesFrom_fuel_safe (b : Board) (rc : Coordinate) (piece : cell) (side : Side) :
  fuel_safe (_MovesFrom b rc piece side).
Proof.
  destruct rc as [r c]. unfold _MovesFrom.
  apply fuel_safe_bind.
  { apply fuel_safe_for_each. intros d qs _. unfold try_quiet.
    destruct (Inside _ _); [|done].
    apply fuel_safe_bind; [apply fuel_safe_PieceAt|]. intros q _.
    by destruct (bool_decide _). }
  intros quiets _. apply fuel_safe_bind; [|done].
  apply try_captures_fuel_safe; [constructor|constructor|].
  unfold chain_fuel. simpl. lia.
Qed.

(** ** What a valid chain looks like *)

Lemma chain_ok_on_board side b f p cs ds :
  chain_ok side b f p cs ds ->
  Forall on_board (landings f ds) /\ Forall on_board (jumped f ds).
Proof.
  revert b f p cs. induction ds as [|d ds IH]; intros b f p cs Hok; simpl.
  - split; constructor.
  - destruct Hok as (Hd & Hj & Hfresh & Hok).
    apply can_jump_spec in Hj as (Hl & _ & Hm & _).
    destruct (IH _ _ _ _ Hok) as [IH1 IH2].
    split; by constructor.
Qed.

Lemma chain_ok_NoDup side b f p cs ds :
  chain_ok side b f p cs ds -> NoDup cs -> NoDup (cs ++ jumped f ds).
Proof.
  revert b f p cs. induction ds as [|d ds IH]; intros b f p cs Hok Hnd; simpl.
  - by rewrite app_nil_r.
  - destruct Hok as (Hd & Hj & Hfresh & Hok).
    rewrite cons_middle, (assoc_L (++)). eapply IH; [exact Hok|].
    apply NoDup_app. split_and!; [done| |apply NoDup_singleton].
    intros x Hx Hx'. by apply list_elem_of_singleton in Hx' as ->.
Qed.

Definition parity (rc : Coordinate) : Z := (rc.1 + rc.2) mod 2.

Lemma parity_land (p : cell) (f : Coordinate) (d : Z * Z) :
  d ∈ _Directions p -> parity (land f d) = parity f.
Proof.
  intros Hd. apply Directions_unit in Hd. unfold parity, land. simpl.
  replace (f.1 + 2 * d.1 + (f.2 + 2 * d.2)) with (f.1 + f.2 + (d.1 + d.2) * 2) by lia.
  by rewrite Z.mod_add.
Qed.

Lemma parity_mid (p : cell) (f : Coordinate) (d : Z * Z) :
  d ∈ _Directions p -> parity (mid f d) = parity f.
Proof.
  intros Hd. apply Directions_unit in Hd. unfold parity, mid. simpl.
  destruct Hd as [[-> | ->] [-> | ->]].
  - replace (f.1 + -1 + (f.2 + -1)) with (f.1 + f.2 + (-1) * 2) by lia.
    by rewrite Z.mod_add.
  - f_equal. lia.
  - f_equal. lia.
  - replace (f.1 + 1 + (f.2 + 1)) with (f.1 + f.2 + 1 * 2) by lia.
    by rewrite Z.mod_add.
Qed.

(** Where a valid chain ends: on the board, on a square of the colour it
    started from, which is the last square of its path. *)
Lemma chain_ok_end side b f p cs ds :
  chain_ok side b f p cs ds -> on_board f ->
  on_board (replay side b f p ds).1.2 /\
  parity (replay side b f p ds).1.2 = parity f /\
  last (f :: landings f ds) = Some (replay side b f p ds).1.2.
Proof.
  revert b f p cs. induction ds as [|d ds IH]; intros b f p cs Hok Hf.
  - done.
  - destruct Hok as (Hd & Hj & Hfresh & Hok). cbn [replay landings].
    apply can_jump_spec in Hj as (Hl & _).
    destruct (IH _ _ _ _ Hok Hl) as (H1 & H2 & H3).
    split_and!; [done| |done].
    rewrite H2. by eapply parity_land.
Qed.

Lemma replay_wf side b f p ds :
  wf_board b -> wf_board (replay side b f p ds).1.1.
Proof.
  revert b f p. induction ds as [|d ds IH]; intros b f p Hwf; [done|].
  cbn [replay]. apply IH. unfold jump_board. by repeat apply set_at_wf.
Qed.

(** ** [_MovesFrom] and [AllLegalMoves] on a well-formed board *)

Definition owned (side : Side) (p : cell) : bool :=
  bool_decide (p ∈ side_targets side).

(** The quiet step from [rc] in direction [d], when it is possible. *)
Definition quiet_from (b : Board) (rc : Coordinate) (d : Z * Z) : option Move :=
  let n := mid rc d in
  if Inside n.1 n.2 && bool_decide (cell_at b n = Vacant)
  then Some (mkMove rc n [rc; n] false [])
  else None.

Definition quiets_from (b : Board) (piece : cell) (rc : Coordinate) : list Move :=
  omap (quiet_from b rc) (_Directions piece).

Definition captures_from (b : Board) (side : Side) (piece : cell) (rc : Coordinate)
  : list Move :=
  match try_captures chain_fuel side rc.1 rc.2 piece [rc] [] (mkGen b [] ∅) with
  | Ret st => g_captures st
  | Raise _ => []
  end.

Lemma try_quiet_wf (b : Board) (rc : Coordinate) (d : Z * Z) (qs : list Move) :
  wf_board b ->
  try_quiet b rc.1 rc.2 d.1 d.2 qs =
  Ret (qs ++ match quiet_from b rc d with Some m => [m] | None => [] end).
Proof.
  intros Hwf. unfold try_quiet, quiet_from.
  change (rc.1 + d.1, rc.2 + d.2) with (mid rc d).
  change (rc.1 + d.1) with (mid rc d).1. change (rc.2 + d.2) with (mid rc d).2.
  destruct (Inside (mid rc d).1 (mid rc d).2) eqn:Hin; cbn [andb].
  - rewrite PieceAt_wf by done. cbn [bind].
    destruct rc as [r c].
    destruct (bool_decide (cell_at b (mid (r, c) d) = Vacant)); [done|].
    by rewrite app_nil_r.
  - by rewrite app_nil_r.
Qed.

Lemma quiets_loop_wf (b : Board) (rc : Coordinate) (ds : list (Z * Z)) (qs : list Move) :
  wf_board b ->
  for_each (fun d qs => try_quiet b rc.1 rc.2 d.1 d.2 qs) ds qs =
  Ret (qs ++ omap (quiet_from b rc) ds).
Proof.
  intros Hwf. revert qs. induction ds as [|d ds IH]; intros qs; simpl.
  - by rewrite app_nil_r.
  - rewrite try_quiet_wf by done. cbn [bind]. rewrite IH.
    destruct (quiet_from b rc d); simpl; by rewrite <- ?app_assoc, ?app_nil_r.
Qed.

Lemma captures_from_correct (b : Board) (side : Side) (piece : cell) (rc : Coordinate) :
  wf_board b -> on_board rc ->
  exists st,
    try_captures chain_fuel side rc.1 rc.2 piece [rc] [] (mkGen b [] ∅) = Ret st /\
    g_board st = b /\
    g_captures st = captures_from b side piece rc /\
    NoDup (map move_key (captures_from b side piece rc)) /\
    Forall (extends side b rc piece [rc] []) (captures_from b side piece rc) /\
    ((exists d, d ∈ _Directions piece /\ can_jump b side rc d = true) ->
     captures_from b side piece rc <> []).
Proof.
  intros Hwf Hrc. destruct rc as [r c]. cbn [fst snd].
  destruct (try_captures_correct side chain_fuel r c piece [(r, c)] [] (mkGen b [] ∅))
    as (st & Hrun & Hb & Hseen & (new & Hnew & Hext) & Hnn).
  { unfold chain_pre; split_and!; simpl; try done. constructor. }
  assert (Hs0 : seen_ok (mkGen b [] ∅)) by (split; [constructor|done]).
  exists st. unfold captures_from. cbn [fst snd]. rewrite Hrun.
  cbn [g_board g_captures g_seen app] in *.
  split_and!; try done.
  - by apply Hseen.
  - by rewrite Hnew.
  - intros (d & Hd & Hj). apply Hnn; [done|].
    right. exists d. split_and!; [done|done|]. apply not_elem_of_nil.
Qed.

Lemma MovesFrom_wf (b : Board) (side : Side) (piece : cell) (rc : Coordinate) :
  wf_board b -> on_board rc ->
  _MovesFrom b rc piece side =
  Ret (captures_from b side piece rc, quiets_from b piece rc, b).
Proof.
  intros Hwf Hrc.
  destruct (captures_from_correct b side piece rc Hwf Hrc)
    as (st & Hrun & Hb & Hcaps & _).
  unfold _MovesFrom. destruct rc as [r c].
  rewrite (quiets_loop_wf b (r, c)) by done. cbn [bind].
  cbn [fst snd] in Hrun. rewrite Hrun. cbn [bind].
  by rewrite Hb, Hcaps.
Qed.

Lemma for_each_app {A S} (body : A -> S -> outcome S) (l1 l2 : list A) (s : S) :
  for_each body (l1 ++ l2) s =
  bind (for_each body l1 s) (for_each body l2).
Proof.
  revert s. induction l1 as [|x l1 IH]; intros s; simpl; [done|].
  destruct (body x s); simpl; [apply IH|done].
Qed.

(** Two nested loops visit the pairs in row-major order. *)
Lemma for_each_nest {A B S} (body : A * B -> S -> outcome S)
    (rs : list A) (cs : list B) (s : S) :
  for_each (fun r acc => for_each (fun c acc => body (r, c) acc) cs acc) rs s =
  for_each body (r ← rs; c ← cs; [(r, c)]) s.
Proof.
  revert s. induction rs as [|r rs IH]; intros s; [done|].
  cbn [for_each mbind list_bind]. change (list_bind ?f ?l) with (l ≫= f).
  rewrite for_each_app.
  assert (Hin : forall s, for_each (fun c acc => body (r, c) acc) cs s =
                          for_each body (c ← cs; [(r, c)]) s).
  { clear. induction cs as [|c cs IH]; intros s; [done|].
    simpl. destruct (body (r, c) s); simpl; [apply IH|done]. }
  rewrite Hin. destruct (for_each body (c ← cs; [(r, c)]) s); simpl; [apply IH|done].
Qed.

(** The squares of [side]'s pieces, in scanning order. *)
Definition side_squares (b : Board) (side : Side) : list Coordinate :=
  filter (fun rc => owned side (cell_at b rc) = true) all_squares.

(** The capture list and the quiet list [AllLegalMoves] builds. *)
Definition all_captures (b : Board) (side : Side) : list Move :=
  rc ← side_squares b side; captures_from b side (cell_at b rc) rc.

Definition all_quiets (b : Board) (side : Side) : list Move :=
  rc ← side_squares b side; quiets_from b (cell_at b rc) rc.

Definition legal_moves (b : Board) (side : Side) : list Move :=
  match all_captures b side with
  | [] => all_quiets b side
  | caps => caps
  end.

Lemma scan_cell_wf (b : Board) (side : Side) (rc : Coordinate)
    (caps qs : list Move) :
  wf_board b -> on_board rc ->
  scan_cell side rc.1 rc.2 (caps, qs, b) =
  Ret (if owned side (cell_at b rc)
       then (caps ++ captures_from b side (cell_at b rc) rc,
             qs ++ quiets_from b (cell_at b rc) rc, b)
       else (caps, qs, b)).
Proof.
  intros Hwf Hrc. unfold scan_cell. destruct rc as [r c]. cbn [fst snd].
  rewrite PieceAt_wf by done. cbn [bind].
  destruct (cell_at b (r, c)) eqn:Hp, side; try done;
    cbn [bool_decide andb negb];
    by rewrite MovesFrom_wf.
Qed.

Lemma scan_squares_wf (b : Board) (side : Side) (sq : list Coordinate)
    (caps qs : list Move) :
  wf_board b -> Forall on_board sq ->
  for_each (fun rc acc => scan_cell side rc.1 rc.2 acc) sq (caps, qs, b) =
  Ret (caps ++ (rc ← filter (fun rc => owned side (cell_at b rc) = true) sq;
                captures_from b side (cell_at b rc) rc),
       qs ++ (rc ← filter (fun rc => owned side (cell_at b rc) = true) sq;
              quiets_from b (cell_at b rc) rc),
       b).
Proof.
  intros Hwf Hsq. revert caps qs.
  induction Hsq as [|rc sq Hrc Hsq IH]; intros caps qs.
  - simpl. by rewrite !app_nil_r.
  - cbn [for_each]. rewrite scan_cell_wf by done. cbn [bind].
    rewrite filter_cons.
    destruct (owned side (cell_at b rc)) eqn:Ho.
    + rewrite decide_True by done. rewrite IH. cbn [mbind list_bind].
      by rewrite !app_assoc.
    + rewrite decide_False by done. apply IH.
Qed.

Lemma scan_board_wf (b : Board) (side : Side) :
  wf_board b ->
  scan_board b side = Ret (all_captures b side, all_quiets b side, b).
Proof.
  intros Hwf. unfold scan_board.
  rewrite (for_each_nest (fun rc acc => scan_cell side rc.1 rc.2 acc)).
  fold all_squares. rewrite scan_squares_wf; [done|done|].
  apply Forall_forall. intros rc. apply elem_of_all_squares.
Qed.

(** On a well-formed board [AllLegalMoves] returns, and hands the board
    back as it found it. *)
Lemma AllLegalMoves_wf (b : Board) (side : Side) :
  wf_board b -> AllLegalMoves b side = Ret (legal_moves b side, b).
Proof.
  intros Hwf. unfold AllLegalMoves, legal_moves. rewrite scan_board_wf by done.
  cbn [bind]. by destruct (all_captures b side).
Qed.

Lemma NoDup_all_squares : NoDup all_squares.
Proof.
  unfold all_squares. apply NoDup_bind; [| |apply NoDup_range].
  - intros r1 r2 rc _ _ H1 H2.
    apply list_elem_of_bind in H1 as (c1 & H1 & _).
    apply list_elem_of_bind in H2 as (c2 & H2 & _).
    apply list_elem_of_singleton in H1, H2. congruence.
  - intros r _. apply NoDup_bind; [| |apply NoDup_range].
    + intros c1 c2 rc _ _ H1 H2. apply list_elem_of_singleton in H1, H2. congruence.
    + intros c _. apply NoDup_singleton.
Qed.

Lemma elem_of_side_squares (b : Board) (side : Side) (rc : Coordinate) :
  rc ∈ side_squares b side <-> on_board rc /\ owned side (cell_at b rc) = true.
Proof.
  unfold side_squares. rewrite list_elem_of_filter, elem_of_all_squares. tauto.
Qed.

Lemma fmap_bind_comm {A B C} (f : B -> C) (g : A -> list B) (l : list A) :
  f <$> (l ≫= g) = l ≫= (fun x => f <$> g x).
Proof.
  induction l as [|x l IH]; [done|].
  cbn [mbind list_bind]. change (list_bind ?f ?l) with (l ≫= f).
  by rewrite fmap_app, IH.
Qed.

(** A recorded chain starts where the enumeration started. *)
Lemma extends_start side b rc piece mv :
  extends side b rc piece [rc] [] mv -> StartingMoveLocation mv = rc.
Proof. intros (ds & _ & _ & _ & _ & Hhead & _). simpl in Hhead. congruence. Qed.

Lemma elem_of_all_captures (b : Board) (side : Side) (mv : Move) :
  wf_board b -> mv ∈ all_captures b side ->
  on_board (StartingMoveLocation mv) /\
  owned side (cell_at b (StartingMoveLocation mv)) = true /\
  extends side b (StartingMoveLocation mv) (cell_at b (StartingMoveLocation mv))
          [StartingMoveLocation mv] [] mv.
Proof.
  intros Hwf Hmv. apply list_elem_of_bind in Hmv as (rc & Hmv & Hrc).
  apply elem_of_side_squares in Hrc as [Hrc Ho].
  destruct (captures_from_correct b side (cell_at b rc) rc Hwf Hrc)
    as (_ & _ & _ & _ & _ & Hext & _).
  rewrite Forall_forall in Hext. specialize (Hext mv Hmv).
  by rewrite (extends_start _ _ _ _ _ Hext).
Qed.

Lemma all_captures_NoDup (b : Board) (side : Side) :
  wf_board b -> NoDup (map move_key (all_captures b side)).
Proof.
  intros Hwf. unfold all_captures.
  change (map move_key ?l) with (move_key <$> l). rewrite fmap_bind_comm.
  apply NoDup_bind.
  - intros rc1 rc2 k Hrc1 Hrc2 Hk1 Hk2.
    apply elem_of_side_squares in Hrc1 as [Hrc1 _], Hrc2 as [Hrc2 _].
    apply list_elem_of_fmap in Hk1 as (m1 & -> & Hm1).
    apply list_elem_of_fmap in Hk2 as (m2 & Hk & Hm2).
    destruct (captures_from_correct b side (cell_at b rc1) rc1 Hwf Hrc1)
      as (_ & _ & _ & _ & _ & Hext1 & _).
    destruct (captures_from_correct b side (cell_at b rc2) rc2 Hwf Hrc2)
      as (_ & _ & _ & _ & _ & Hext2 & _).
    rewrite Forall_forall in Hext1, Hext2.
    apply Hext1, extends_start in Hm1. apply Hext2, extends_start in Hm2.
    unfold move_key in Hk. congruence.
  - intros rc Hrc. apply elem_of_side_squares in Hrc as [Hrc _].
    by destruct (captures_from_correct b side (cell_at b rc) rc Hwf Hrc)
      as (_ & _ & _ & _ & Hnd & _).
  - apply NoDup_filter, NoDup_all_squares.
Qed.

(** Some piece of [side] has a jump: in one of its movement directions the
    next square holds an opponent and the square beyond is empty. *)
Definition capture_available (b : Board) (side : Side) : Prop :=
  exists rc d,
    on_board rc /\ owned side (cell_at b rc) = true /\
    d ∈ _Directions (cell_at b rc) /\ can_jump b side rc d = true.

Lemma all_captures_nonempty (b : Board) (side : Side) :
  wf_board b -> all_captures b side <> [] <-> capture_available b side.
Proof.
  intros Hwf. split.
  - intros Hne. destruct (all_captures b side) as [|mv caps] eqn:Hcaps; [done|].
    assert (Hmv : mv ∈ all_captures b side) by (rewrite Hcaps; left).
    apply elem_of_all_captures in Hmv as (Hrc & Ho & ds & _ & Hcap & Hok & _ & _ & _ & _ & Hnn);
      [|done].
    destruct ds as [|d ds]; [by rewrite Hcap in Hnn|].
    destruct Hok as (Hd & Hj & _).
    by exists (StartingMoveLocation mv), d.
  - intros (rc & d & Hrc & Ho & Hd & Hj) Hnil.
    destruct (captures_from_correct b side (cell_at b rc) rc Hwf Hrc)
      as (_ & _ & _ & _ & _ & _ & Hnn).
    apply Hnn; [by exists d|].
    assert (Hin : rc ∈ side_squares b side) by by apply elem_of_side_squares.
    destruct (captures_from b side (cell_at b rc) rc) as [|mv caps] eqn:Hc; [done|].
    assert (Hmv : mv ∈ all_captures b side).
    { apply list_elem_of_bind. exists rc. split; [|done]. rewrite Hc. left. }
    rewrite Hnil in Hmv. by apply elem_of_nil in Hmv.
Qed.

Lemma all_captures_flag (b : Board) (side : Side) :
  wf_board b ->
  Forall (fun m => is_capture m = true /\ captured m <> []) (all_captures b side).
Proof.
  intros Hwf. apply Forall_forall. intros mv Hmv.
  by apply elem_of_all_captures in Hmv
    as (_ & _ & ds & _ & _ & _ & _ & _ & _ & ? & ?).
Qed.

Lemma all_quiets_flag (b : Board) (side : Side) :
  Forall (fun m => is_capture m = false /\ captured m = []) (all_quiets b side).
Proof.
  apply Forall_forall. intros mv Hmv.
  apply list_elem_of_bind in Hmv as (rc & Hmv & _).
  apply list_elem_of_omap in Hmv as (d & _ & Hq).
  unfold quiet_from in Hq. case_match; [|done]. by injection Hq as <-.
Qed.

Lemma HasPieces_owned (b : Board) (side : Side) (rc : Coordinate) :
  owned side (cell_at b rc) = true -> _HasPieces b side = true.
Proof.
  unfold owned, cell_at, _HasPieces. intros Ho.
  destruct (b !! Z.to_nat rc.1) as [row|] eqn:Hrow; [|by destruct side].
  destruct (row !! Z.to_nat rc.2) as [x|] eqn:Hx; [|by destruct side].
  simpl in Ho. apply existsb_exists. exists row. split.
  - apply list_elem_of_In. by eapply list_elem_of_lookup_2.
  - apply existsb_exists. exists x. split; [|done].
    apply list_elem_of_In. by eapply list_elem_of_lookup_2.
Qed.

Lemma no_pieces_no_squares (b : Board) (side : Side) :
  _HasPieces b side = false -> side_squares b side = [].
Proof.
  intros Hno. destruct (side_squares b side) as [|rc sq] eqn:Hsq; [done|].
  assert (Hrc : rc ∈ side_squares b side) by (rewrite Hsq; left).
  apply elem_of_side_squares in Hrc as [_ Ho].
  apply HasPieces_owned in Ho. congruence.
Qed.

(** * Sample positions *)

Definition initial_board : Board :=
  [ [Vacant; BMan; Vacant; BMan; Vacant; BMan; Vacant; BMan];
    [BMan; Vacant; BMan; Vacant; BMan; Vacant; BMan; Vacant];
    [Vacant; BMan; Vacant; BMan; Vacant; BMan; Vacant; BMan];
    [Vacant; Vacant; Vacant; Vacant; Vacant; Vacant; Vacant; Vacant];
    [Vacant; Vacant; Vacant; Vacant; Vacant; Vacant; Vacant; Vacant];
    [WMan; Vacant; WMan; Vacant; WMan; Vacant; WMan; Vacant];
    [Vacant; WMan; Vacant; WMan; Vacant; WMan; Vacant; WMan];
    [WMan; Vacant; WMan; Vacant; WMan; Vacant; WMan; Vacant] ].

(** A White king at (2,1) ringed by four Black men: it can take all four
    and come back to where it started. *)
Definition ring_board : Board :=
  [ [Vacant; Vacant; Vacant; Vacant; Vacant; Vacant; Vacant; Vacant];
    [Vacant; Vacant; BMan; Vacant; BMan; Vacant; Vacant; Vacant];
    [Vacant; WKing; Vacant; Vacant; Vacant; Vacant; Vacant; Vacant];
    [Vacant; Vacant; BMan; Vacant; BMan; Vacant; Vacant; Vacant];
    [Vacant; Vacant; Vacant; Vacant; Vacant; Vacant; Vacant; Vacant];
    [Vacant; Vacant; Vacant; Vacant; Vacant; Vacant; Vacant; Vacant];
    [Vacant; Vacant; Vacant; Vacant; Vacant; Vacant; Vacant; Vacant];
    [Vacant; Vacant; Vacant; Vacant; Vacant; Vacant; Vacant; Vacant] ].

(** A Black king at (4,1) with a White man up-right of it at (3,2) and the
    square beyond, (2,3), empty. *)
Definition black_king_board : Board :=
  [ [Vacant; Vacant; Vacant; Vacant; Vacant; Vacant; Vacant; Vacant];
    [Vacant; Vacant; Vacant; Vacant; Vacant; Vacant; Vacant; Vacant];
    [Vacant; Vacant; Vacant; Vacant; Vacant; Vacant; Vacant; Vacant];
    [Vacant; Vacant; WMan; Vacant; Vacant; Vacant; Vacant; Vacant];
    [Vacant; BKing; Vacant; Vacant; Vacant; Vacant; Vacant; Vacant];
    [Vacant; Vacant; Vacant; Vacant; Vacant; Vacant; Vacant; Vacant];
    [Vacant; Vacant; Vacant; Vacant; Vacant; Vacant; Vacant; Vacant];
    [Vacant; Vacant; Vacant; Vacant; Vacant; Vacant; Vacant; Vacant] ].

Lemma InitialBoard_value : _InitialBoard = Ret initial_board.
Proof. reflexivity. Qed.

Lemma initial_board_wf : wf_board initial_board.
Proof. split; [reflexivity|repeat constructor]. Defined.

Lemma ring_board_wf : wf_board ring_board.
Proof. split; [reflexivity|repeat constructor]. Defined.

Lemma black_king_board_wf : wf_board black_king_board.
Proof. split; [reflexivity|repeat constructor]. Defined.

Example opening_moves :
  exists moves, AllLegalMoves initial_board Black = Ret (moves, initial_board) /\
                length moves = 7%nat.
Proof. eexists. split; [vm_compute; reflexivity|reflexivity]. Qed.

(** A Black man at (2,1) that can jump the White man at (3,2) and then has
    nothing more to take. *)
Definition single_jump_board : Board :=
  [ [Vacant; Vacant; Vacant; Vacant; Vacant; Vacant; Vacant; Vacant];
    [Vacant; Vacant; Vacant; Vacant; Vacant; Vacant; Vacant; Vacant];
    [Vacant; BMan; Vacant; Vacant; Vacant; Vacant; Vacant; Vacant];
    [Vacant; Vacant; WMan; Vacant; Vacant; Vacant; Vacant; Vacant];
    [Vacant; Vacant; Vacant; Vacant; Vacant; Vacant; Vacant; Vacant];
    [Vacant; Vacant; Vacant; Vacant; Vacant; Vacant; Vacant; Vacant];
    [Vacant; Vacant; Vacant; Vacant; Vacant; Vacant; Vacant; Vacant];
    [Vacant; Vacant; Vacant; Vacant; Vacant; Vacant; Vacant; Vacant] ].

Example single_jump :
  AllLegalMoves single_jump_board Black =
  Ret ([mkMove (2, 1) (4, 3) [(2, 1); (4, 3)] true [(3, 2)]], single_jump_board).
Proof. vm_compute. reflexivity. Qed.

(** A Black man that is crowned in the middle of a chain goes on as a
    king: from (5,4) it takes (6,3), lands on the back rank at (7,2), and
    takes (6,1) backwards, ending on (5,0). *)
Definition crowning_board : Board :=
  [ [Vacant; Vacant; Vacant; Vacant; Vacant; Vacant; Vacant; Vacant];
    [Vacant; Vacant; Vacant; Vacant; Vacant; Vacant; Vacant; Vacant];
    [Vacant; Vacant; Vacant; Vacant; Vacant; Vacant; Vacant; Vacant];
    [Vacant; Vacant; Vacant; Vacant; Vacant; Vacant; Vacant; Vacant];
    [Vacant; Vacant; Vacant; Vacant; Vacant; Vacant; Vacant; Vacant];
    [Vacant; Vacant; Vacant; Vacant; BMan; Vacant; Vacant; Vacant];
    [Vacant; WMan; Vacant; WMan; Vacant; Vacant; Vacant; Vacant];
    [Vacant; Vacant; Vacant; Vacant; Vacant; Vacant; Vacant; Vacant] ].

Example crowning_chain :
  AllLegalMoves crowning_board Black =
  Ret ([mkMove (5, 4) (5, 0) [(5, 4); (7, 2); (5, 0)] true [(6, 3); (6, 1)]],
       crowning_board).
Proof. vm_compute. reflexivity. Qed.

(** * Movement directions *)

(** C1. The direction set of a Black king is not the four diagonals: the
    code returns down-left, down-right, up-left and down-right again, so
    up-right, (-1,1), is missing, whereas a White king gets all four. On
    [black_king_board] the Black king therefore neither captures the man
    up-right of it nor steps anywhere up-right: the moves returned are the
    quiet steps to (5,0), (5,2), (3,0) and (5,2) again. *)
Theorem Directions_black_king :
  _Directions BKing = [(1, -1); (1, 1); (-1, -1); (1, 1)] /\
  ((-1, 1) ∉ _Directions BKing) /\
  _Directions WKing = [(-1, -1); (-1, 1); (1, -1); (1, 1)] /\
  _Directions WMan = [(-1, -1); (-1, 1)] /\
  _Directions BMan = [(1, -1); (1, 1)] /\
  (cell_at black_king_board (4, 1) = BKing /\
   cell_at black_king_board (3, 2) = WMan /\
   cell_at black_king_board (2, 3) = Vacant /\
   exists moves,
     AllLegalMoves black_king_board Black = Ret (moves, black_king_board) /\
     map TargetingMoveLocation moves = [(5, 0); (5, 2); (3, 0); (5, 2)] /\
     Forall (fun m => is_capture m = false) moves).
Proof.
  split_and!; try reflexivity.
  - vm_compute _Directions. intros Hin.
    repeat (apply elem_of_cons in Hin as [[=]|Hin]).
    by apply elem_of_nil in Hin.
  - eexists. split; [vm_compute; reflexivity|].
    split; [reflexivity|repeat constructor].
Qed.

(** * The directions of the rules

    A man moves diagonally forward only, a king diagonally in all four
    directions, whatever its colour. *)

Definition rule_directions (piece : cell) : list (Z * Z) :=
  match piece with
  | Vacant => []
  | WMan => [(-1, -1); (-1, 1)]
  | BMan => [(1, -1); (1, 1)]
  | WKing | BKing => [(-1, -1); (-1, 1); (1, -1); (1, 1)]
  end.

(** A capture exists for [side]: one of its pieces has, in a direction the
    rules give its rank, an opponent piece next to it and an empty square
    beyond. *)
Definition capture_exists (b : Board) (side : Side) : Prop :=
  exists rc d,
    on_board rc /\ owned side (cell_at b rc) = true /\
    d ∈ rule_directions (cell_at b rc) /\ can_jump b side rc d = true.

(** A further jump is possible: the piece that stands on [f] with rank [p],
    having captured [cs], can jump, in a direction the rules give its rank,
    over an opponent piece not yet captured onto an empty square. *)
Definition further_jump (b : Board) (side : Side) (f : Coordinate) (p : cell)
    (cs : list Coordinate) : Prop :=
  exists d,
    d ∈ rule_directions p /\ can_jump b side f d = true /\ mid f d ∉ cs.

(** [_Directions] gives every piece but the Black king the directions of
    the rules. *)
Lemma Directions_by_the_rules (p : cell) :
  p <> Vacant -> p <> BKing -> _Directions p = rule_directions p.
Proof. by destruct p. Qed.

Lemma White_ranks (p : cell) :
  owned White p = true -> p <> Vacant /\ p <> BKing.
Proof. by destruct p. Qed.

(** * Mandatory capture *)

(** What the two loops of [AllLegalMoves] compute, on every board and for
    either side, with the directions [_Directions] gives each rank: the
    capture list is not empty exactly when some piece of the side has a
    jump in one of those directions; then the result is that list, each
    move flagged as a capture with a non-empty captured list; otherwise it
    is the list of quiet steps; for a side without pieces it is empty. *)
Lemma AllLegalMoves_captures_first (b : Board) (side : Side) :
  wf_board b ->
  exists moves,
    AllLegalMoves b side = Ret (moves, b) /\
    (all_captures b side <> [] <-> capture_available b side) /\
    (capture_available b side ->
       moves = all_captures b side /\ moves <> [] /\
       Forall (fun m => is_capture m = true /\ captured m <> []) moves) /\
    (~ capture_available b side ->
       moves = all_quiets b side /\
       Forall (fun m => is_capture m = false /\ captured m = []) moves) /\
    (_HasPieces b side = false -> moves = []).
Proof.
  intros Hwf. exists (legal_moves b side).
  split; [by apply AllLegalMoves_wf|].
  pose proof (all_captures_nonempty b side Hwf) as Hav.
  split; [exact Hav|].
  unfold legal_moves. split_and!.
  - intros Hc. apply Hav in Hc.
    destruct (all_captures b side) as [|mv caps] eqn:Hcaps; [done|].
    split_and!; [done|done|]. rewrite <- Hcaps. by apply all_captures_flag.
  - intros Hc.
    destruct (all_captures b side) as [|mv caps] eqn:Hcaps.
    + split; [done|]. apply all_quiets_flag.
    + exfalso. apply Hc, Hav. done.
  - intros Hno. unfold all_captures, all_quiets.
    by rewrite (no_pieces_no_squares b side Hno).
Qed.

(** For White the jumps the code looks for are the jumps of the rules, so
    mandatory capture holds for White on every board: if a capture exists,
    only captures are returned, and otherwise only quiet steps. *)
Lemma mandatory_capture_White (b : Board) :
  wf_board b ->
  exists moves,
    AllLegalMoves b White = Ret (moves, b) /\
    (capture_exists b White ->
       moves <> [] /\
       Forall (fun m => is_capture m = true /\ captured m <> []) moves) /\
    (~ capture_exists b White ->
       moves = all_quiets b White /\
       Forall (fun m => is_capture m = false /\ captured m = []) moves).
Proof.
  intros Hwf.
  assert (Hsame : capture_exists b White <-> capture_available b White).
  { split; intros (rc & d & Hrc & Ho & Hd & Hj); exists rc, d;
      destruct (White_ranks _ Ho) as [Hv Hk];
      rewrite Directions_by_the_rules in * by done; done. }
  destruct (AllLegalMoves_captures_first b White Hwf)
    as (moves & Hrun & _ & Hcap & Hquiet & _).
  exists moves. split; [exact Hrun|]. split.
  - intros Hc. apply Hsame in Hc. by destruct (Hcap Hc) as (_ & ? & ?).
  - intros Hc. apply Hquiet. by rewrite <- Hsame.
Qed.

(** C2. Mandatory capture fails for a Black king. On [black_king_board]
    the Black king on (4,1) has a White man next to it on (3,2) and the
    square beyond, (2,3), is empty: a capture exists for Black. Yet
    [AllLegalMoves] returns for Black the four quiet steps of the king and
    no capture. The cause is the direction list of the Black king, which
    lacks up-right. *)
Theorem mandatory_capture_missed :
  capture_exists black_king_board Black /\
  AllLegalMoves black_king_board Black =
  Ret ([mkMove (4, 1) (5, 0) [(4, 1); (5, 0)] false [];
        mkMove (4, 1) (5, 2) [(4, 1); (5, 2)] false [];
        mkMove (4, 1) (3, 0) [(4, 1); (3, 0)] false [];
        mkMove (4, 1) (5, 2) [(4, 1); (5, 2)] false []],
       black_king_board).
Proof.
  split.
  - exists (4, 1), (-1, 1). split_and!; [done|done| |done].
    change (cell_at black_king_board (4, 1)) with BKing. by right; left.
  - vm_compute. reflexivity.
Qed.

(** * Capture chains *)

Lemma filter_keeps_all {A} (P : A -> Prop) `{forall x, Decision (P x)} (l : list A) :
  Forall P l -> filter P l = l.
Proof.
  induction 1 as [|x l Hx Hl IH]; [done|].
  rewrite filter_cons, decide_True by done. by rewrite IH.
Qed.

Lemma filter_drops_all {A} (P : A -> Prop) `{forall x, Decision (P x)} (l : list A) :
  Forall (fun x => ~ P x) l -> filter P l = [].
Proof.
  induction 1 as [|x l Hx Hl IH]; [done|].
  by rewrite filter_cons, decide_False.
Qed.

(** What the chain search records, on every board and for either side:
    every capture move returned is the record of a chain of jumps [ds] from
    its start square; its path is the start followed by the landing
    squares, its captured list the jumped squares; every jump is in a
    direction [_Directions] gives the rank the piece holds at that point,
    over an opponent piece not captured before, onto an empty square; where
    the chain ends, none of the directions [_Directions] gives the rank the
    piece then has offers a jump over a piece not yet captured; the
    captured list has no repetition; and no two capture moves returned have
    the same (start, path, captured) key. *)
Lemma recorded_chains (b : Board) (side : Side) :
  wf_board b ->
  exists moves,
    AllLegalMoves b side = Ret (moves, b) /\
    NoDup (map move_key (filter (fun m => is_capture m = true) moves)) /\
    forall mv, mv ∈ moves -> is_capture mv = true ->
      NoDup (captured mv) /\
      exists ds,
        let start := StartingMoveLocation mv in
        let piece := cell_at b start in
        let after := replay side b start piece ds in
        path mv = start :: landings start ds /\
        captured mv = jumped start ds /\
        chain_ok side b start piece [] ds /\
        TargetingMoveLocation mv = after.1.2 /\
        owned side piece = true /\
        stuck after.1.1 side after.1.2 after.2 (captured mv).
Proof.
  intros Hwf. exists (legal_moves b side).
  split; [by apply AllLegalMoves_wf|].
  assert (Hcase : legal_moves b side = all_captures b side \/
                  all_captures b side = [] /\ legal_moves b side = all_quiets b side).
  { unfold legal_moves. destruct (all_captures b side); [by right|by left]. }
  split.
  - destruct Hcase as [-> | [_ ->]].
    + rewrite filter_keeps_all; [by apply all_captures_NoDup|].
      eapply Forall_impl; [by apply all_captures_flag|]. by intros m [Hm _].
    + rewrite filter_drops_all; [constructor|].
      eapply Forall_impl; [apply all_quiets_flag|].
      intros m [Hm _]. congruence.
  - intros mv Hmv Hflag.
    assert (Hin : mv ∈ all_captures b side).
    { destruct Hcase as [<- | [_ Hq]]; [done|].
      rewrite Hq in Hmv. pose proof (all_quiets_flag b side) as Hf.
      rewrite Forall_forall in Hf. destruct (Hf mv Hmv). congruence. }
    apply elem_of_all_captures in Hin
      as (Hrc & Ho & ds & Hpath & Hcap & Hok & Hstuck & _ & Htgt & _ & _); [|done].
    split.
    + rewrite Hcap. apply (chain_ok_NoDup _ _ _ _ [] _ Hok). constructor.
    + exists ds. cbv zeta. by split_and!.
Qed.

(** The rank of a White piece stays White along a chain. *)
Lemma replay_White (b : Board) (f : Coordinate) (p : cell) (ds : list (Z * Z)) :
  owned White p = true -> owned White (replay White b f p ds).2 = true.
Proof.
  revert b f p. induction ds as [|d ds IH]; intros b f p Ho; [done|].
  cbn [replay]. apply IH. unfold landed_piece.
  change (bool_decide (White = Black)) with false. cbn [andb].
  destruct p; try done; by destruct (_ && _).
Qed.

(** For White every recorded capture is a maximal chain: where it ends, no
    further jump is possible. *)
Lemma maximal_chains_White (b : Board) :
  wf_board b ->
  exists moves,
    AllLegalMoves b White = Ret (moves, b) /\
    forall mv, mv ∈ moves -> is_capture mv = true ->
      exists ds,
        let start := StartingMoveLocation mv in
        let after := replay White b start (cell_at b start) ds in
        path mv = start :: landings start ds /\
        captured mv = jumped start ds /\
        TargetingMoveLocation mv = after.1.2 /\
        ~ further_jump after.1.1 White after.1.2 after.2 (captured mv).
Proof.
  intros Hwf.
  destruct (recorded_chains b White Hwf) as (moves & Hrun & _ & Hall).
  exists moves. split; [exact Hrun|].
  intros mv Hmv Hflag.
  destruct (Hall mv Hmv Hflag) as (_ & ds & Hpath & Hcap & _ & Htgt & Ho & Hstuck).
  exists ds. cbv zeta in *. split_and!; [done|done|done|].
  intros (d & Hd & Hj & Hnew). apply Hnew. apply Hstuck; [|done].
  destruct (White_ranks _ (replay_White b (StartingMoveLocation mv) _ ds Ho)) as [Hv Hk].
  by rewrite Directions_by_the_rules.
Qed.

(** A Black king at (2,1) with White men at (3,2) and (3,4): having taken
    the first it stands on (4,3), from where the second can be taken onto
    (2,5). *)
Definition king_chain_board : Board :=
  [ [Vacant; Vacant; Vacant; Vacant; Vacant; Vacant; Vacant; Vacant];
    [Vacant; Vacant; Vacant; Vacant; Vacant; Vacant; Vacant; Vacant];
    [Vacant; BKing; Vacant; Vacant; Vacant; Vacant; Vacant; Vacant];
    [Vacant; Vacant; WMan; Vacant; WMan; Vacant; Vacant; Vacant];
    [Vacant; Vacant; Vacant; Vacant; Vacant; Vacant; Vacant; Vacant];
    [Vacant; Vacant; Vacant; Vacant; Vacant; Vacant; Vacant; Vacant];
    [Vacant; Vacant; Vacant; Vacant; Vacant; Vacant; Vacant; Vacant];
    [Vacant; Vacant; Vacant; Vacant; Vacant; Vacant; Vacant; Vacant] ].

(** A Black man at (5,0) with White men at (6,1) and (6,3): taking the
    first it is crowned on (7,2), from where a king can take the second
    onto (5,4). *)
Definition crowned_chain_board : Board :=
  [ [Vacant; Vacant; Vacant; Vacant; Vacant; Vacant; Vacant; Vacant];
    [Vacant; Vacant; Vacant; Vacant; Vacant; Vacant; Vacant; Vacant];
    [Vacant; Vacant; Vacant; Vacant; Vacant; Vacant; Vacant; Vacant];
    [Vacant; Vacant; Vacant; Vacant; Vacant; Vacant; Vacant; Vacant];
    [Vacant; Vacant; Vacant; Vacant; Vacant; Vacant; Vacant; Vacant];
    [BMan; Vacant; Vacant; Vacant; Vacant; Vacant; Vacant; Vacant];
    [Vacant; WMan; Vacant; WMan; Vacant; Vacant; Vacant; Vacant];
    [Vacant; Vacant; Vacant; Vacant; Vacant; Vacant; Vacant; Vacant] ].

(** C3. A recorded capture of a Black king need not be a maximal chain. On
    [king_chain_board] the only move [AllLegalMoves] returns for Black is
    the single jump from (2,1) over (3,2) to (4,3), although the king
    standing on (4,3) can jump on, up-right over the man on (3,4), not yet
    captured, onto the empty (2,5). On [crowned_chain_board] the only move
    is the jump of the man from (5,0) over (6,1) to (7,2), where it is
    crowned, although the new king can jump on over (6,3) onto (5,4). The
    cause is the direction list of the Black king, which lacks
    up-right. *)
Theorem capture_chain_cut_short :
  (let b := king_chain_board in
   let after := replay Black b (2, 1) (cell_at b (2, 1)) [(1, 1)] in
   AllLegalMoves b Black =
     Ret ([mkMove (2, 1) (4, 3) [(2, 1); (4, 3)] true [(3, 2)]], b) /\
   after.1.2 = (4, 3) /\ after.2 = BKing /\
   further_jump after.1.1 Black (4, 3) BKing [(3, 2)]) /\
  (let b := crowned_chain_board in
   let after := replay Black b (5, 0) (cell_at b (5, 0)) [(1, 1)] in
   AllLegalMoves b Black =
     Ret ([mkMove (5, 0) (7, 2) [(5, 0); (7, 2)] true [(6, 1)]], b) /\
   after.1.2 = (7, 2) /\ after.2 = BKing /\
   further_jump after.1.1 Black (7, 2) BKing [(6, 1)]).
Proof.
  split; cbv zeta.
  - split_and!; [vm_compute; reflexivity|done|done|].
    exists (-1, 1). split_and!; [by right; left|by vm_compute|].
    cbn [mid fst snd]. intros Hin.
    apply elem_of_cons in Hin as [[=]|Hin]. by apply elem_of_nil in Hin.
  - split_and!; [vm_compute; reflexivity|done|done|].
    exists (-1, 1). split_and!; [by right; left|by vm_compute|].
    cbn [mid fst snd]. intros Hin.
    apply elem_of_cons in Hin as [[=]|Hin]. by apply elem_of_nil in Hin.
Qed.

(** * Applying a move *)

(** [ApplyMove] as a function on well-formed boards. *)
Definition apply_move (b : Board) (mv : Move) : Board :=
  set_at
    (foldl (fun b c => set_at b c Vacant)
           (set_at b (StartingMoveLocation mv) Vacant) (captured mv))
    (TargetingMoveLocation mv)
    (promoted (cell_at b (StartingMoveLocation mv)) (TargetingMoveLocation mv).1).

(** The coordinates of a move are all on the board. *)
Definition move_on_board (mv : Move) : Prop :=
  on_board (StartingMoveLocation mv) /\ on_board (TargetingMoveLocation mv) /\
  Forall on_board (captured mv).

Lemma clear_squares_wf (b : Board) (cs : list Coordinate) :
  wf_board b -> Forall on_board cs ->
  for_each (fun c b => SetPiece b c Vacant) cs b =
  Ret (foldl (fun b c => set_at b c Vacant) b cs) /\
  wf_board (foldl (fun b c => set_at b c Vacant) b cs).
Proof.
  intros Hwf Hcs. revert b Hwf.
  induction Hcs as [|c cs Hc Hcs IH]; intros b Hwf; [done|].
  cbn [for_each foldl]. rewrite SetPiece_wf by done. cbn [bind].
  apply IH. by apply set_at_wf.
Qed.

Lemma cell_at_clear_squares (b : Board) (cs : list Coordinate) (rc : Coordinate) :
  wf_board b -> Forall on_board cs -> on_board rc ->
  cell_at (foldl (fun b c => set_at b c Vacant) b cs) rc =
  if decide (rc ∈ cs) then Vacant else cell_at b rc.
Proof.
  intros Hwf Hcs Hrc. revert b Hwf.
  induction Hcs as [|c cs Hc Hcs IH]; intros b Hwf.
  - cbn [foldl]. case_decide as Hin; [by apply elem_of_nil in Hin|done].
  - cbn [foldl]. rewrite IH by by apply set_at_wf.
    rewrite cell_at_set by done.
    destruct (decide (rc ∈ c :: cs)) as [Hin'|Hnin'],
      (decide (rc ∈ cs)) as [Hin|Hnin], (decide (c = rc)) as [Heq|Hne]; try done.
    + apply elem_of_cons in Hin' as [->|?]; done.
    + exfalso. apply Hnin'. by right.
    + exfalso. apply Hnin'. by right.
    + exfalso. apply Hnin'. subst. by left.
Qed.

Lemma ApplyMove_wf (b : Board) (mv : Move) :
  wf_board b -> move_on_board mv ->
  ApplyMove b mv = Ret (apply_move b mv) /\ wf_board (apply_move b mv).
Proof.
  intros Hwf (Hs & Ht & Hcs). unfold ApplyMove, apply_move.
  destruct (StartingMoveLocation mv) as [sr sc] eqn:Hstart.
  destruct (TargetingMoveLocation mv) as [tr tc] eqn:Htarget.
  rewrite PieceAt_wf, SetPiece_wf by done. cbn [bind].
  destruct (clear_squares_wf (set_at b (sr, sc) Vacant) (captured mv))
    as [Hrun Hwf']; [by apply set_at_wf|done|].
  rewrite Hrun. cbn [bind]. rewrite SetPiece_wf by done.
  split; [done|]. by apply set_at_wf.
Qed.

Lemma cell_at_apply_move (b : Board) (mv : Move) (rc : Coordinate) :
  wf_board b -> move_on_board mv -> on_board rc ->
  cell_at (apply_move b mv) rc =
  if decide (rc = TargetingMoveLocation mv)
  then promoted (cell_at b (StartingMoveLocation mv)) (TargetingMoveLocation mv).1
  else if decide (rc = StartingMoveLocation mv \/ rc ∈ captured mv) then Vacant
  else cell_at b rc.
Proof.
  intros Hwf (Hs & Ht & Hcs) Hrc. unfold apply_move.
  destruct (clear_squares_wf (set_at b (StartingMoveLocation mv) Vacant) (captured mv))
    as [_ Hwf']; [by apply set_at_wf|done|].
  rewrite cell_at_set by done.
  destruct (decide (rc = TargetingMoveLocation mv)) as [->|Hne].
  { by rewrite decide_True. }
  rewrite decide_False by done.
  rewrite cell_at_clear_squares by (done || by apply set_at_wf).
  rewrite cell_at_set by done.
  destruct (decide (rc ∈ captured mv)) as [Hin|Hnin],
    (decide (StartingMoveLocation mv = rc)) as [Heq|Hneq],
    (decide (rc = StartingMoveLocation mv \/ rc ∈ captured mv)) as [Hor|Hnor];
    try done; exfalso; try (apply Hnor; by auto).
  destruct Hor; [by apply Hneq|done].
Qed.

(** The round trip of the White king on [ring_board], the first move
    [AllLegalMoves] returns there, and the board after it. *)
Definition ring_move : Move :=
  mkMove (2, 1) (2, 1) [(2, 1); (0, 3); (2, 5); (4, 3); (2, 1)] true
         [(1, 2); (1, 4); (3, 4); (3, 2)].

Definition ring_after : Board :=
  [ [Vacant; Vacant; Vacant; Vacant; Vacant; Vacant; Vacant; Vacant];
    [Vacant; Vacant; Vacant; Vacant; Vacant; Vacant; Vacant; Vacant];
    [Vacant; WKing; Vacant; Vacant; Vacant; Vacant; Vacant; Vacant];
    [Vacant; Vacant; Vacant; Vacant; Vacant; Vacant; Vacant; Vacant];
    [Vacant; Vacant; Vacant; Vacant; Vacant; Vacant; Vacant; Vacant];
    [Vacant; Vacant; Vacant; Vacant; Vacant; Vacant; Vacant; Vacant];
    [Vacant; Vacant; Vacant; Vacant; Vacant; Vacant; Vacant; Vacant];
    [Vacant; Vacant; Vacant; Vacant; Vacant; Vacant; Vacant; Vacant] ].

Lemma ring_move_on_board : move_on_board ring_move.
Proof. split_and!; [reflexivity|reflexivity|repeat constructor]. Defined.

(** C5, as stated, fails: the start cell of a move need not be empty after
    [ApplyMove]. [ring_move] is a legal move of White on [ring_board], its
    start cell holds a king, and after the move that cell still holds the
    king, because the chain ends where it started. *)
Lemma ApplyMove_start_not_emptied :
  (exists moves, AllLegalMoves ring_board White = Ret (moves, ring_board) /\
                 ring_move ∈ moves) /\
  PieceAt ring_board (StartingMoveLocation ring_move) = Ret WKing /\
  ApplyMove ring_board ring_move = Ret ring_after /\
  PieceAt ring_after (StartingMoveLocation ring_move) = Ret WKing /\
  PieceAt ring_after (StartingMoveLocation ring_move) <> Ret Vacant.
Proof.
  split; [eexists; split; [vm_compute; reflexivity|left]|].
  split_and!; [reflexivity|reflexivity|reflexivity|done].
Qed.

(** C5, amended. For a well-formed board and a move whose coordinates are
    on the board, [ApplyMove] returns a well-formed board on which: the
    start cell and every captured cell, other than the end cell, are
    empty; the end cell holds the piece that stood on the start cell, as a
    King when that piece was a White man and the end row is 0 or a Black
    man and the end row is 7, and unchanged otherwise; every other cell is
    as before. *)
Theorem ApplyMove_effect (b : Board) (mv : Move) :
  wf_board b -> move_on_board mv ->
  let start := StartingMoveLocation mv in
  let target := TargetingMoveLocation mv in
  let piece := cell_at b start in
  exists b',
    ApplyMove b mv = Ret b' /\ wf_board b' /\
    PieceAt b start = Ret piece /\
    (forall rc, on_board rc -> rc <> target ->
                rc = start \/ rc ∈ captured mv -> PieceAt b' rc = Ret Vacant) /\
    (piece = WMan /\ target.1 = 0 -> PieceAt b' target = Ret WKing) /\
    (piece = BMan /\ target.1 = 7 -> PieceAt b' target = Ret BKing) /\
    (~ (piece = WMan /\ target.1 = 0) -> ~ (piece = BMan /\ target.1 = 7) ->
     PieceAt b' target = Ret piece) /\
    (forall rc, on_board rc -> rc <> target -> rc <> start -> rc ∉ captured mv ->
                PieceAt b' rc = PieceAt b rc).
Proof.
  intros Hwf Hmv start target piece.
  destruct (ApplyMove_wf b mv Hwf Hmv) as [Hrun Hwf'].
  pose proof Hmv as (Hs & Ht & Hcs).
  exists (apply_move b mv). split_and!; try done.
  - by apply PieceAt_wf.
  - intros rc Hrc Hne Hor. rewrite PieceAt_wf, cell_at_apply_move by done.
    rewrite decide_False by done. by rewrite decide_True.
  - intros [Hp Hrow]. rewrite PieceAt_wf, cell_at_apply_move by done.
    rewrite decide_True by done. fold start target piece.
    unfold promoted. rewrite Hp, Hrow. done.
  - intros [Hp Hrow]. rewrite PieceAt_wf, cell_at_apply_move by done.
    rewrite decide_True by done. fold start target piece.
    unfold promoted. rewrite Hp, Hrow. done.
  - intros Hw Hb. rewrite PieceAt_wf, cell_at_apply_move by done.
    rewrite decide_True by done. fold start target piece.
    unfold promoted, size.
    destruct (decide (piece = WMan)) as [Hp|Hp].
    + rewrite bool_decide_eq_true_2 by done.
      destruct (Z.eqb_spec target.1 0); [tauto|]. cbn [andb]. by rewrite Hp.
    + rewrite bool_decide_eq_false_2 by done. cbn [andb].
      destruct (decide (piece = BMan)) as [Hp'|Hp'].
      * rewrite bool_decide_eq_true_2 by done.
        destruct (Z.eqb_spec target.1 (8 - 1)); [|done].
        exfalso. apply Hb. split; [done|lia].
      * by rewrite bool_decide_eq_false_2.
  - intros rc Hrc Hne Hns Hnc. rewrite !PieceAt_wf, cell_at_apply_move by done.
    rewrite !decide_False; [done| |done]. tauto.
Qed.

Lemma ApplyMove_effect_witness :
  wf_board ring_board /\ move_on_board ring_move /\
  let start := StartingMoveLocation ring_move in
  let target := TargetingMoveLocation ring_move in
  let piece := cell_at ring_board start in
  exists b',
    ApplyMove ring_board ring_move = Ret b' /\ wf_board b' /\
    PieceAt ring_board start = Ret piece /\
    (forall rc, on_board rc -> rc <> target ->
                rc = start \/ rc ∈ captured ring_move -> PieceAt b' rc = Ret Vacant) /\
    (piece = WMan /\ target.1 = 0 -> PieceAt b' target = Ret WKing) /\
    (piece = BMan /\ target.1 = 7 -> PieceAt b' target = Ret BKing) /\
    (~ (piece = WMan /\ target.1 = 0) -> ~ (piece = BMan /\ target.1 = 7) ->
     PieceAt b' target = Ret piece) /\
    (forall rc, on_board rc -> rc <> target -> rc <> start ->
                rc ∉ captured ring_move -> PieceAt b' rc = PieceAt ring_board rc).
Proof.
  split; [exact ring_board_wf|]. split; [exact ring_move_on_board|].
  apply (ApplyMove_effect ring_board ring_move);
    [exact ring_board_wf|exact ring_move_on_board].
Defined.

(** * The shape of legal moves *)

(** A legal move starts on a piece of the mover's side, keeps to the
    board, and ends on a square of the same colour as its start. *)
Definition legal_shape (b : Board) (side : Side) (mv : Move) : Prop :=
  move_on_board mv /\
  owned side (cell_at b (StartingMoveLocation mv)) = true /\
  parity (TargetingMoveLocation mv) = parity (StartingMoveLocation mv).

Lemma elem_of_all_quiets (b : Board) (side : Side) (mv : Move) :
  mv ∈ all_quiets b side <->
  exists rc d,
    on_board rc /\ owned side (cell_at b rc) = true /\
    d ∈ _Directions (cell_at b rc) /\ quiet_from b rc d = Some mv.
Proof.
  unfold all_quiets, quiets_from. rewrite list_elem_of_bind. split.
  - intros (rc & Hmv & Hrc). apply elem_of_side_squares in Hrc as [Hrc Ho].
    apply list_elem_of_omap in Hmv as (d & Hd & Hq). by exists rc, d.
  - intros (rc & d & Hrc & Ho & Hd & Hq). exists rc. split.
    + apply list_elem_of_omap. by exists d.
    + by apply elem_of_side_squares.
Qed.

Lemma legal_moves_cases (b : Board) (side : Side) (mv : Move) :
  mv ∈ legal_moves b side -> mv ∈ all_captures b side \/ mv ∈ all_quiets b side.
Proof.
  unfold legal_moves. destruct (all_captures b side); [by right|by left].
Qed.

Lemma legal_moves_shape (b : Board) (side : Side) (mv : Move) :
  wf_board b -> mv ∈ legal_moves b side -> legal_shape b side mv.
Proof.
  intros Hwf Hmv. apply legal_moves_cases in Hmv as [Hmv|Hmv].
  - apply elem_of_all_captures in Hmv
      as (Hrc & Ho & ds & _ & Hcap & Hok & _ & _ & Htgt & _ & _); [|done].
    destruct (chain_ok_on_board _ _ _ _ _ _ Hok) as [_ Hjumped].
    destruct (chain_ok_end _ _ _ _ _ _ Hok Hrc) as (Hend & Hpar & _).
    unfold legal_shape, move_on_board. rewrite Htgt, Hcap. by split_and!.
  - apply elem_of_all_quiets in Hmv as (rc & d & Hrc & Ho & Hd & Hq).
    unfold quiet_from in Hq.
    destruct (Inside (mid rc d).1 (mid rc d).2) eqn:Hin; [|done].
    destruct (bool_decide (cell_at b (mid rc d) = Vacant)); [|done].
    injection Hq as <-. unfold legal_shape, move_on_board. simpl.
    split_and!; try done. by eapply parity_mid.
Qed.

(** * Light squares stay empty *)

(** The boards a game can reach: the initial board, and any board obtained
    from a reachable one by applying a move that [AllLegalMoves] returns
    for either side. *)
Inductive reachable : Board -> Prop :=
| reachable_initial (b : Board) :
    _InitialBoard = Ret b -> reachable b
| reachable_move (b b1 b' : Board) (side : Side) (moves : list Move) (mv : Move) :
    reachable b ->
    AllLegalMoves b side = Ret (moves, b1) ->
    mv ∈ moves ->
    ApplyMove b1 mv = Ret b' ->
    reachable b'.

Definition dark_only (b : Board) : Prop :=
  forall rc, on_board rc -> parity rc = 0 -> cell_at b rc = Vacant.

Lemma owned_not_vacant (side : Side) (p : cell) : owned side p = true -> p <> Vacant.
Proof. intros Ho ->. by destruct side. Qed.

Lemma parity_cases (rc : Coordinate) : parity rc = 0 \/ parity rc = 1.
Proof. unfold parity. pose proof (Z.mod_pos_bound (rc.1 + rc.2) 2). lia. Qed.

Lemma apply_move_dark_only (b : Board) (side : Side) (mv : Move) :
  wf_board b -> dark_only b -> legal_shape b side mv ->
  dark_only (apply_move b mv).
Proof.
  intros Hwf Hdark (Hon & Ho & Hpar) rc Hrc Hlight.
  rewrite cell_at_apply_move by done.
  assert (Hstart : parity (StartingMoveLocation mv) = 1).
  { destruct (parity_cases (StartingMoveLocation mv)) as [H0|H1]; [|done].
    exfalso. apply (owned_not_vacant side _ Ho). apply Hdark; [apply Hon|done]. }
  rewrite decide_False by (intros ->; lia).
  case_decide; [done|]. by apply Hdark.
Qed.

Lemma reachable_invariant (b : Board) :
  reachable b -> wf_board b /\ dark_only b.
Proof.
  induction 1 as [b Hinit|b b1 b' side moves mv Hreach [Hwf Hdark] Hmoves Hmv Happ].
  - rewrite InitialBoard_value in Hinit. injection Hinit as <-.
    split; [exact initial_board_wf|].
    intros rc Hrc Hpar. apply elem_of_all_squares in Hrc. revert Hpar.
    vm_compute in Hrc.
    repeat (apply elem_of_cons in Hrc as [->|Hrc]; [by vm_compute|]).
    by apply elem_of_nil in Hrc.
  - rewrite AllLegalMoves_wf in Hmoves by done. injection Hmoves as <- <-.
    pose proof (legal_moves_shape b side mv Hwf Hmv) as Hshape.
    destruct (ApplyMove_wf b mv Hwf (proj1 Hshape)) as [Hrun Hwf'].
    rewrite Hrun in Happ. injection Happ as <-.
    split; [done|]. by apply (apply_move_dark_only b side).
Qed.

(** C9. On every reachable board, every cell whose row plus column is even
    is empty (and the board is a full 8x8 grid, so the read never fails). *)
Theorem light_squares_empty (b : Board) :
  reachable b ->
  wf_board b /\
  forall r c, Inside r c = true -> (r + c) mod 2 = 0 -> PieceAt b (r, c) = Ret Vacant.
Proof.
  intros Hreach. destruct (reachable_invariant b Hreach) as [Hwf Hdark].
  split; [done|]. intros r c Hin Hpar.
  rewrite PieceAt_wf by done. f_equal. by apply Hdark.
Qed.

(** The board after Black opens with (2,1) to (3,0). *)
Definition after_opening : Board :=
  [ [Vacant; BMan; Vacant; BMan; Vacant; BMan; Vacant; BMan];
    [BMan; Vacant; BMan; Vacant; BMan; Vacant; BMan; Vacant];
    [Vacant; Vacant; Vacant; BMan; Vacant; BMan; Vacant; BMan];
    [BMan; Vacant; Vacant; Vacant; Vacant; Vacant; Vacant; Vacant];
    [Vacant; Vacant; Vacant; Vacant; Vacant; Vacant; Vacant; Vacant];
    [WMan; Vacant; WMan; Vacant; WMan; Vacant; WMan; Vacant];
    [Vacant; WMan; Vacant; WMan; Vacant; WMan; Vacant; WMan];
    [WMan; Vacant; WMan; Vacant; WMan; Vacant; WMan; Vacant] ].

Lemma after_opening_reachable : reachable after_opening.
Proof.
  eapply (reachable_move initial_board initial_board after_opening Black _
            (mkMove (2, 1) (3, 0) [(2, 1); (3, 0)] false [])).
  - by apply reachable_initial.
  - vm_compute. reflexivity.
  - left.
  - reflexivity.
Defined.

Lemma light_squares_empty_witness :
  reachable after_opening /\
  wf_board after_opening /\
  forall r c, Inside r c = true -> (r + c) mod 2 = 0 ->
              PieceAt after_opening (r, c) = Ret Vacant.
Proof.
  split; [exact after_opening_reachable|].
  apply (light_squares_empty after_opening). exact after_opening_reachable.
Defined.

(** * The evaluator and the terminal test on well-formed boards *)

Definition heuristic (b : Board) : Z :=
  foldl (fun value rc => value + cell_score rc.1 (cell_at b rc)) 0 all_squares.

Definition is_terminal (b : Board) : bool :=
  negb (_HasPieces b White) || negb (_HasPieces b Black)
  || (Z.of_nat (length (legal_moves b White)) =? 0)
  || (Z.of_nat (length (legal_moves b Black)) =? 0).

Lemma HeuristicScore_wf (b : Board) :
  wf_board b -> HeuristicScore b = Ret (heuristic b).
Proof.
  intros Hwf. unfold HeuristicScore, heuristic.
  rewrite (for_each_nest
             (fun rc value => bind (PieceAt b rc)
                                (fun p => Ret (value + cell_score rc.1 p)))).
  fold all_squares.
  assert (Hgen : forall sq v, Forall on_board sq ->
    for_each (fun rc value => bind (PieceAt b rc)
                                (fun p => Ret (value + cell_score rc.1 p))) sq v =
    Ret (foldl (fun value rc => value + cell_score rc.1 (cell_at b rc)) v sq)).
  { intros sq v Hsq. revert v. induction Hsq as [|rc sq Hrc Hsq IH]; intros v; [done|].
    cbn [for_each foldl]. rewrite PieceAt_wf by done. cbn [bind]. apply IH. }
  apply Hgen. apply Forall_forall. intros rc. apply elem_of_all_squares.
Qed.

Lemma cell_score_bound (r : Z) (p : cell) :
  0 <= r < 8 -> -10 <= cell_score r p <= 10.
Proof. intros Hr. destruct p; unfold cell_score, size; lia. Qed.

Lemma heuristic_bound (b : Board) : -640 <= heuristic b <= 640.
Proof.
  unfold heuristic.
  assert (Hgen : forall sq v, Forall on_board sq ->
    v - 10 * Z.of_nat (length sq)
    <= foldl (fun value rc => value + cell_score rc.1 (cell_at b rc)) v sq
    <= v + 10 * Z.of_nat (length sq)).
  { intros sq v Hsq. revert v. induction Hsq as [|rc sq Hrc Hsq IH]; intros v.
    - simpl. lia.
    - cbn [foldl length]. specialize (IH (v + cell_score rc.1 (cell_at b rc))).
      apply on_board_bounds in Hrc as [Hr _].
      pose proof (cell_score_bound rc.1 (cell_at b rc) Hr). lia. }
  specialize (Hgen all_squares 0).
  change (length all_squares) with 64%nat in Hgen.
  apply Hgen. apply Forall_forall. intros rc. apply elem_of_all_squares.
Qed.

Lemma IsTerminal_wf (b : Board) :
  wf_board b -> IsTerminal b = Ret (is_terminal b, b).
Proof.
  intros Hwf. unfold IsTerminal, is_terminal.
  destruct (_HasPieces b White); cbn [negb orb]; [|done].
  destruct (_HasPieces b Black); cbn [negb orb]; [|done].
  rewrite AllLegalMoves_wf by done. cbn [bind].
  destruct (Z.of_nat (length (legal_moves b White)) =? 0); cbn [orb]; [done|].
  rewrite AllLegalMoves_wf by done. done.
Qed.

Lemma Clone_same (b : Board) : Clone b = b.
Proof. unfold Clone. apply map_id. Qed.

Lemma legal_moves_on_board (b : Board) (side : Side) :
  wf_board b -> Forall move_on_board (legal_moves b side).
Proof.
  intros Hwf. apply Forall_forall. intros mv Hmv.
  by destruct (legal_moves_shape b side mv Hwf Hmv).
Qed.

(** * Minimax values

    The value of a position at a given depth when nothing cuts the search
    short: the recursion of [max_value] and [min_value] without clock,
    counters and pruning. *)

Fixpoint mm_max (d : nat) (b : Board) : Z :=
  match d with
  | O => heuristic b
  | S d' =>
    if is_terminal b then heuristic b
    else match legal_moves b Black with
         | [] => heuristic b
         | ms => foldl (fun best m => Z.max best (mm_min d' (apply_move b m))) (- INF) ms
         end
  end
with mm_min (d : nat) (b : Board) : Z :=
  match d with
  | O => heuristic b
  | S d' =>
    if is_terminal b then heuristic b
    else match legal_moves b White with
         | [] => heuristic b
         | ms => foldl (fun best m => Z.min best (mm_max d' (apply_move b m))) INF ms
         end
  end.

(** [s] is the greatest element of [l]. *)
Definition is_max_of (l : list Z) (s : Z) : Prop := s ∈ l /\ forall x, x ∈ l -> x <= s.

(** [s] is the least element of [l]. *)
Definition is_min_of (l : list Z) (s : Z) : Prop := s ∈ l /\ forall x, x ∈ l -> s <= x.

Lemma foldl_max_ge {A} (f : A -> Z) (ms : list A) (init : Z) :
  init <= foldl (fun best m => Z.max best (f m)) init ms.
Proof.
  revert init. induction ms as [|m ms IH]; intros init; simpl; [lia|].
  specialize (IH (Z.max init (f m))). lia.
Qed.

Lemma foldl_min_le {A} (f : A -> Z) (ms : list A) (init : Z) :
  foldl (fun best m => Z.min best (f m)) init ms <= init.
Proof.
  revert init. induction ms as [|m ms IH]; intros init; simpl; [lia|].
  specialize (IH (Z.min init (f m))). lia.
Qed.

Lemma foldl_max_bound {A} (f : A -> Z) (ms : list A) (init lo hi : Z) :
  ms <> [] -> init <= hi -> (forall m, m ∈ ms -> lo <= f m <= hi) ->
  lo <= foldl (fun best m => Z.max best (f m)) init ms <= hi.
Proof.
  intros Hne Hinit Hf.
  assert (Hhi : forall ms init, init <= hi -> (forall m, m ∈ ms -> f m <= hi) ->
                  foldl (fun best m => Z.max best (f m)) init ms <= hi).
  { clear. induction ms as [|m ms IH]; intros init Hinit Hf; simpl; [done|].
    apply IH; [|intros; apply Hf; by right].
    specialize (Hf m (list_elem_of_here m ms)). lia. }
  split; [|apply Hhi; [done|intros; by apply Hf]].
  destruct ms as [|m ms]; [done|]. simpl.
  pose proof (foldl_max_ge f ms (Z.max init (f m))).
  specialize (Hf m (list_elem_of_here m ms)). lia.
Qed.

Lemma foldl_min_bound {A} (f : A -> Z) (ms : list A) (init lo hi : Z) :
  ms <> [] -> lo <= init -> (forall m, m ∈ ms -> lo <= f m <= hi) ->
  lo <= foldl (fun best m => Z.min best (f m)) init ms <= hi.
Proof.
  intros Hne Hinit Hf.
  assert (Hlo : forall ms init, lo <= init -> (forall m, m ∈ ms -> lo <= f m) ->
                  lo <= foldl (fun best m => Z.min best (f m)) init ms).
  { clear. induction ms as [|m ms IH]; intros init Hinit Hf; simpl; [done|].
    apply IH; [|intros; apply Hf; by right].
    specialize (Hf m (list_elem_of_here m ms)). lia. }
  split; [apply Hlo; [done|intros; by apply Hf]|].
  destruct ms as [|m ms]; [done|]. simpl.
  pose proof (foldl_min_le f ms (Z.min init (f m))).
  specialize (Hf m (list_elem_of_here m ms)). lia.
Qed.

Lemma mm_bounds (d : nat) (b : Board) :
  -640 <= mm_max d b <= 640 /\ -640 <= mm_min d b <= 640.
Proof.
  revert b. induction d as [|d IH]; intros b.
  - split; apply heuristic_bound.
  - pose proof (heuristic_bound b) as Hh. cbn [mm_max mm_min].
    destruct (is_terminal b); [done|]. split.
    + destruct (legal_moves b Black) as [|m ms] eqn:Hms; [done|].
      apply foldl_max_bound; [done|unfold INF; lia|].
      intros m' _. apply IH.
    + destruct (legal_moves b White) as [|m ms] eqn:Hms; [done|].
      apply foldl_min_bound; [done|unfold INF; lia|].
      intros m' _. apply IH.
Qed.

(** A running maximum that starts below every element ends on the
    greatest element. *)
Lemma foldl_max_is_max {A} (f : A -> Z) (ms : list A) (init : Z) :
  ms <> [] -> (forall m, m ∈ ms -> init <= f m) ->
  is_max_of (map f ms) (foldl (fun best m => Z.max best (f m)) init ms).
Proof.
  intros Hne Hinit.
  assert (Hgen : forall ms init,
    (foldl (fun best m => Z.max best (f m)) init ms = init \/
     foldl (fun best m => Z.max best (f m)) init ms ∈ map f ms) /\
    forall x, x ∈ map f ms -> x <= foldl (fun best m => Z.max best (f m)) init ms).
  { clear. induction ms as [|m ms IH]; intros init.
    - split; [by left|]. intros x Hx. by apply elem_of_nil in Hx.
    - destruct (IH (Z.max init (f m))) as [Hin Hub]. cbn [foldl map]. split.
      + destruct Hin as [Heq|Hin]; [|right; by right].
        rewrite Heq. destruct (Z.max_spec init (f m)) as [[_ ->]|[_ ->]];
          [right; by left|by left].
      + intros x [->|Hx]%elem_of_cons; [|by apply Hub].
        pose proof (foldl_max_ge f ms (Z.max init (f m))). lia. }
  destruct (Hgen ms init) as [[Heq|Hin] Hub]; split; try done.
  destruct ms as [|m ms]; [done|].
  assert (Hm : f m ∈ map f (m :: ms)) by by left.
  pose proof (Hub _ Hm). specialize (Hinit m (list_elem_of_here m ms)).
  rewrite Heq in *. by replace init with (f m) by lia.
Qed.

Lemma foldl_min_is_min {A} (f : A -> Z) (ms : list A) (init : Z) :
  ms <> [] -> (forall m, m ∈ ms -> f m <= init) ->
  is_min_of (map f ms) (foldl (fun best m => Z.min best (f m)) init ms).
Proof.
  intros Hne Hinit.
  assert (Hgen : forall ms init,
    (foldl (fun best m => Z.min best (f m)) init ms = init \/
     foldl (fun best m => Z.min best (f m)) init ms ∈ map f ms) /\
    forall x, x ∈ map f ms -> foldl (fun best m => Z.min best (f m)) init ms <= x).
  { clear. induction ms as [|m ms IH]; intros init.
    - split; [by left|]. intros x Hx. by apply elem_of_nil in Hx.
    - destruct (IH (Z.min init (f m))) as [Hin Hub]. cbn [foldl map]. split.
      + destruct Hin as [Heq|Hin]; [|right; by right].
        rewrite Heq. destruct (Z.min_spec init (f m)) as [[_ ->]|[_ ->]];
          [by left|right; by left].
      + intros x [->|Hx]%elem_of_cons; [|by apply Hub].
        pose proof (foldl_min_le f ms (Z.min init (f m))). lia. }
  destruct (Hgen ms init) as [[Heq|Hin] Hub]; split; try done.
  destruct ms as [|m ms]; [done|].
  assert (Hm : f m ∈ map f (m :: ms)) by by left.
  pose proof (Hub _ Hm). specialize (Hinit m (list_elem_of_here m ms)).
  rewrite Heq in *. by replace init with (f m) by lia.
Qed.

(** * Running the search

    [runs m w Q]: from world [w] the computation [m] returns, with a result
    and a final world that satisfy [Q]. [yields m P]: from every world [m]
    returns a result that satisfies [P], and leaves the [MaxFringeSize]
    counter of the analytics record as it found it. *)

Definition frame (w w' : World) : Prop :=
  MaxFringeSize (Analytics w') = MaxFringeSize (Analytics w).

Definition runs {A} (m : M A) (w : World) (Q : A -> World -> Prop) : Prop :=
  exists a w', m w = Ret (a, w') /\ Q a w'.

Definition yields {A} (m : M A) (P : A -> Prop) : Prop :=
  forall w, runs m w (fun a w' => frame w w' /\ P a).

Lemma runs_bind {A B} (m : M A) (k : A -> M B) (w : World)
    (Q1 : A -> World -> Prop) (Q : B -> World -> Prop) :
  runs m w Q1 -> (forall a w1, Q1 a w1 -> runs (k a) w1 Q) ->
  runs (bindM m k) w Q.
Proof.
  intros (a & w1 & Hm & H1) Hk. destruct (Hk a w1 H1) as (b & w2 & Hrun & H2).
  exists b, w2. unfold bindM. by rewrite Hm.
Qed.

Lemma yields_runs {A} (m : M A) (P : A -> Prop) (w : World) :
  yields m P -> runs m w (fun a w' => frame w w' /\ P a).
Proof. intros Hm. apply Hm. Qed.

Lemma yields_ret {A} (a : A) (P : A -> Prop) : P a -> yields (retM a) P.
Proof. intros Ha w. by exists a, w. Qed.

Lemma yields_bind {A B} (m : M A) (k : A -> M B) (P1 : A -> Prop) (P : B -> Prop) :
  yields m P1 -> (forall a, P1 a -> yields (k a) P) -> yields (bindM m k) P.
Proof.
  intros Hm Hk w. eapply runs_bind; [apply Hm|].
  intros a w1 [Hf Ha]. destruct (Hk a Ha w1) as (b & w2 & Hrun & Hf2 & Hb).
  exists b, w2. split; [done|]. split; [|done]. unfold frame in *. congruence.
Qed.

Lemma yields_mono {A} (m : M A) (P Q : A -> Prop) :
  yields m P -> (forall a, P a -> Q a) -> yields m Q.
Proof.
  intros Hm HPQ w. destruct (Hm w) as (a & w' & Hrun & Hf & Ha).
  exists a, w'. auto.
Qed.

Lemma yields_lift {A} (o : outcome A) (a : A) :
  o = Ret a -> yields (lift o) (fun x => x = a).
Proof. intros -> w. by exists a, w. Qed.

Lemma yields_update (f : MoveAnalytics -> MoveAnalytics) :
  (forall a, MaxFringeSize (f a) = MaxFringeSize a) ->
  yields (update_analytics f) (fun _ => True).
Proof. intros Hf w. eexists tt, _. split; [done|]. split; [apply Hf|done]. Qed.

Lemma yields_time (clock : nat -> Q) :
  yields (time clock) (fun t => exists n, t = clock n).
Proof. intros w. eexists _, _. split; [done|]. split; [done|]. by eexists. Qed.

(** ** Move ordering *)

Lemma insert_desc_perm (x : Z * Move) (l : list (Z * Move)) :
  insert_desc x l ≡ₚ x :: l.
Proof.
  induction l as [|y l IH]; [done|]. simpl.
  destruct (x.1 <? y.1); [|done]. rewrite IH. apply Permutation_swap.
Qed.

Lemma sort_desc_perm (l : list (Z * Move)) : sort_desc l ≡ₚ l.
Proof.
  induction l as [|x l IH]; [done|]. simpl.
  rewrite insert_desc_perm. by rewrite IH.
Qed.

Lemma score_moves_wf (board : Board) (side : Side) (moves : list Move)
    (acc : list (Z * Move)) :
  wf_board board -> Forall move_on_board moves ->
  exists scored,
    for_each (fun m scored => bind (score_move board side m)
                                (fun sm => Ret (scored ++ [sm])))
             moves acc = Ret (acc ++ scored) /\
    map snd scored = moves.
Proof.
  intros Hwf Hms. revert acc.
  induction Hms as [|m ms Hm Hms IH]; intros acc.
  - exists []. by rewrite app_nil_r.
  - cbn [for_each]. unfold score_move at 1. rewrite Clone_same.
    destruct (ApplyMove_wf board m Hwf Hm) as [-> Hwf']. cbn [bind].
    rewrite HeuristicScore_wf by done. cbn [bind].
    destruct (IH (acc ++ [(if bool_decide (side = White)
                           then - heuristic (apply_move board m)
                           else heuristic (apply_move board m), m)]))
      as (scored & -> & Hsnd).
    eexists (_ :: scored). split; [by rewrite <- app_assoc|]. simpl. by rewrite Hsnd.
Qed.

Section SearchFacts.

Variable clock : nat -> Q.
Variable self : SearchToolBox.

Lemma OrderMoves_spec (board : Board) (side : Side) (moves : list Move) :
  wf_board board -> Forall move_on_board moves ->
  yields (_OrderMoves self board side moves)
         (fun ordered => ordered ≡ₚ moves /\
                         (UseOrdering self = false -> ordered = moves)).
Proof.
  intros Hwf Hms. unfold _OrderMoves.
  destruct (UseOrdering self) eqn:Hord; cbn [negb].
  2:{ by apply yields_ret. }
  destruct (score_moves_wf board side moves [] Hwf Hms) as (scored & Hrun & Hsnd).
  eapply yields_bind; [apply yields_lift, Hrun|]. intros ? ->. cbn [app].
  eapply yields_bind; [apply yields_update; by intros []|]. intros _ _.
  apply yields_ret. split; [|done].
  rewrite <- Hsnd. apply fmap_Permutation, sort_desc_perm.
Qed.

Variable deadline : Q.

(** The deadline never expires: no clock reading is past it. *)
Definition live : Prop := forall n, Qgtb (clock n) deadline = false.

(** What an alpha-beta search with window [(a, be)] owes about a node of
    minimax value [V]: the value itself inside the window, and a bound on
    the same side as [V] outside it. *)
Definition window_ok (a be V v : Z) : Prop :=
  (V <= a -> v <= a) /\ (a < V < be -> v = V) /\ (be <= V -> be <= v).

(** Without pruning the value is exact; with pruning it is right for the
    window. *)
Definition value_ok (a be V v : Z) : Prop :=
  (UseAlphaBeta self = false -> v = V) /\
  (UseAlphaBeta self = true -> - INF <= a -> a < be -> be <= INF ->
   window_ok a be V v).

(** The contract of [max_value] and [min_value] at a node of value [V]:
    the board object comes back unchanged, the result is a heuristic-sized
    number, and, when the deadline never expires and [cond] holds, it is
    right for the window. *)
Definition node_post (V : Z) (bd : Board) (a be : Z) (cond : Prop)
    (r : Z * Board) : Prop :=
  r.2 = bd /\ -640 <= r.1 <= 640 /\ (live -> cond -> value_ok a be V r.1).

Definition child_spec (child : Board -> Z -> Z -> M (Z * Board))
    (val : Board -> Z) (cond : Prop) : Prop :=
  forall clone a be, wf_board clone ->
    yields (child clone a be) (node_post (val clone) clone a be cond).

(** Invariant of the loop of [max_value] under pruning: [a0] is the alpha
    the node was entered with, [Vdone] the true maximum over the moves
    done, [best] and [a] the loop variables. *)
Definition max_inv (be a0 Vdone best a : Z) : Prop :=
  a = Z.max a0 best /\ a < be /\
  (a0 < Vdone -> best = Vdone) /\ (Vdone <= a0 -> best <= a0).

Definition min_inv (a be0 Vdone best be : Z) : Prop :=
  be = Z.min be0 best /\ a < be /\
  (Vdone < be0 -> best = Vdone) /\ (be0 <= Vdone -> be0 <= best).

Lemma max_loop_spec child (val : Board -> Z) (cond : Prop) (bd : Board) (be : Z) :
  child_spec child val cond -> wf_board bd ->
  forall ms, Forall move_on_board ms -> forall best a, best <= 640 ->
  yields (max_loop self child bd ms best a be)
    (fun r =>
       best <= r <= 640 /\ (ms <> [] -> -640 <= r) /\
       (live -> cond ->
        (UseAlphaBeta self = false ->
         r = foldl (fun best m => Z.max best (val (apply_move bd m))) best ms) /\
        (UseAlphaBeta self = true ->
         forall a0 Vdone, - INF <= a0 -> be <= INF -> max_inv be a0 Vdone best a ->
           window_ok a0 be
             (foldl (fun best m => Z.max best (val (apply_move bd m))) Vdone ms) r))).
Proof.
  intros Hchild Hwf ms Hms.
  induction Hms as [|m ms Hm Hms IH]; intros best a Hbest.
  - cbn [max_loop]. apply yields_ret. split; [lia|]. split; [done|].
    intros Hlive Hcond. split; [done|].
    intros HAB a0 Vdone Ha0 Hbe (Ha & Hlt & H1 & H2). cbn [foldl].
    unfold window_ok. lia.
  - cbn [max_loop]. rewrite Clone_same.
    destruct (ApplyMove_wf bd m Hwf Hm) as [Happ Hwf'].
    eapply yields_bind; [apply yields_lift, Happ|]. intros ? ->.
    eapply yields_bind; [apply (Hchild _ a be Hwf')|].
    intros [v bd'] (Hbd & Hv & Hval). cbn [fst snd] in Hbd, Hv, Hval.
    cbv beta iota.
    destruct (UseAlphaBeta self && (Z.max a (Z.max best v) >=? be)) eqn:Hbreak.
    + eapply yields_bind; [apply yields_update; by intros []|]. intros _ _.
      apply yields_ret. split; [lia|]. split; [lia|].
      intros Hlive Hcond. apply andb_true_iff in Hbreak as [HAB Hge].
      split; [congruence|].
      intros _ a0 Vdone Ha0 Hbe (Ha & Hlt & H1 & H2).
      destruct (Hval Hlive Hcond) as [_ Hw].
      assert (Ha' : - INF <= a) by lia. specialize (Hw HAB Ha' Hlt Hbe).
      cbn [foldl].
      pose proof (foldl_max_ge (fun m => val (apply_move bd m)) ms
                    (Z.max Vdone (val (apply_move bd m)))) as Hmono.
      apply Z.geb_le in Hge. unfold window_ok in *. lia.
    + eapply yields_mono; [apply IH; lia|].
      intros r (Hr1 & Hr2 & Hr3). split; [lia|]. split; [lia|].
      intros Hlive Hcond. destruct (Hr3 Hlive Hcond) as [Hex Hwin].
      destruct (Hval Hlive Hcond) as [Hvex Hvwin]. split.
      * intros HAB. cbn [foldl]. rewrite <- (Hvex HAB). by apply Hex.
      * intros HAB a0 Vdone Ha0 Hbe (Ha & Hlt & H1 & H2). cbn [foldl].
        rewrite HAB in Hbreak. cbn [andb] in Hbreak.
        assert (Ha' : - INF <= a) by lia. specialize (Hvwin HAB Ha' Hlt Hbe).
        apply (Hwin HAB a0 _ Ha0 Hbe).
        unfold max_inv, window_ok in *.
        assert (Z.max a (Z.max best v) < be) by lia. lia.
Qed.

Lemma min_loop_spec child (val : Board -> Z) (cond : Prop) (bd : Board) (a : Z) :
  child_spec child val cond -> wf_board bd ->
  forall ms, Forall move_on_board ms -> forall best be, -640 <= best ->
  yields (min_loop self child bd ms best a be)
    (fun r =>
       -640 <= r <= best /\ (ms <> [] -> r <= 640) /\
       (live -> cond ->
        (UseAlphaBeta self = false ->
         r = foldl (fun best m => Z.min best (val (apply_move bd m))) best ms) /\
        (UseAlphaBeta self = true ->
         forall be0 Vdone, - INF <= a -> be0 <= INF -> min_inv a be0 Vdone best be ->
           window_ok a be0
             (foldl (fun best m => Z.min best (val (apply_move bd m))) Vdone ms) r))).
Proof.
  intros Hchild Hwf ms Hms.
  induction Hms as [|m ms Hm Hms IH]; intros best be Hbest.
  - cbn [min_loop]. apply yields_ret. split; [lia|]. split; [done|].
    intros Hlive Hcond. split; [done|].
    intros HAB be0 Vdone Ha0 Hbe (Ha & Hlt & H1 & H2). cbn [foldl].
    unfold window_ok. lia.
  - cbn [min_loop]. rewrite Clone_same.
    destruct (ApplyMove_wf bd m Hwf Hm) as [Happ Hwf'].
    eapply yields_bind; [apply yields_lift, Happ|]. intros ? ->.
    eapply yields_bind; [apply (Hchild _ a be Hwf')|].
    intros [v bd'] (Hbd & Hv & Hval). cbn [fst snd] in Hbd, Hv, Hval.
    cbv beta iota.
    destruct (UseAlphaBeta self && (a >=? Z.min be (Z.min best v))) eqn:Hbreak.
    + eapply yields_bind; [apply yields_update; by intros []|]. intros _ _.
      apply yields_ret. split; [lia|]. split; [lia|].
      intros Hlive Hcond. apply andb_true_iff in Hbreak as [HAB Hge].
      split; [congruence|].
      intros _ be0 Vdone Ha0 Hbe (Ha & Hlt & H1 & H2).
      destruct (Hval Hlive Hcond) as [_ Hw].
      assert (Hbe' : be <= INF) by lia. specialize (Hw HAB Ha0 Hlt Hbe').
      cbn [foldl].
      pose proof (foldl_min_le (fun m => val (apply_move bd m)) ms
                    (Z.min Vdone (val (apply_move bd m)))) as Hmono.
      apply Z.geb_le in Hge. unfold window_ok in *. lia.
    + eapply yields_mono; [apply IH; lia|].
      intros r (Hr1 & Hr2 & Hr3). split; [lia|]. split; [lia|].
      intros Hlive Hcond. destruct (Hr3 Hlive Hcond) as [Hex Hwin].
      destruct (Hval Hlive Hcond) as [Hvex Hvwin]. split.
      * intros HAB. cbn [foldl]. rewrite <- (Hvex HAB). by apply Hex.
      * intros HAB be0 Vdone Ha0 Hbe (Ha & Hlt & H1 & H2). cbn [foldl].
        rewrite HAB in Hbreak. cbn [andb] in Hbreak.
        assert (Hbe' : be <= INF) by lia. specialize (Hvwin HAB Ha0 Hlt Hbe').
        apply (Hwin HAB be0 _ Ha0 Hbe).
        unfold min_inv, window_ok in *.
        assert (a < Z.min be (Z.min best v)) by lia. lia.
Qed.

Lemma value_ok_exact (a be V : Z) : value_ok a be V V.
Proof. split; [done|]. intros _ _ _ _. unfold window_ok. lia. Qed.

Lemma static_value_spec (V : Z) (bd : Board) (a be : Z) (cond : Prop) :
  wf_board bd -> (live -> cond -> V = heuristic bd) ->
  yields (static_value bd) (node_post V bd a be cond).
Proof.
  intros Hwf HV. unfold static_value.
  eapply yields_bind; [apply yields_lift, HeuristicScore_wf, Hwf|]. intros ? ->.
  apply yields_ret. split; [done|]. split; [apply heuristic_bound|].
  intros Hlive Hcond. cbn [fst]. rewrite (HV Hlive Hcond). apply value_ok_exact.
Qed.

(** The start of [max_value] and of [min_value]: deadline poll, node count. *)
Lemma node_entry_spec (body : M (Z * Board)) (V : Z) (bd : Board) (a be : Z)
    (cond : Prop) :
  wf_board bd ->
  yields body (node_post V bd a be cond) ->
  yields (bindM (time clock) (fun t =>
            if Qgtb t deadline then static_value bd
            else bindM (update_analytics (add_NodesExpanded 1)) (fun _ => body)))
         (node_post V bd a be cond).
Proof.
  intros Hwf Hbody.
  eapply yields_bind; [apply yields_time|]. intros t [n ->].
  destruct (Qgtb (clock n) deadline) eqn:Hexp.
  - apply static_value_spec; [done|]. intros Hlive _.
    specialize (Hlive n). congruence.
  - eapply yields_bind; [apply yields_update; by intros []|]. by intros _ _.
Qed.

Lemma max_value_eq (d : nat) (bd : Board) (a be : Z) :
  max_value clock self deadline d bd a be =
  bindM (time clock) (fun t =>
    if Qgtb t deadline then static_value bd
    else bindM (update_analytics (add_NodesExpanded 1)) (fun _ =>
      match d with
      | O => static_value bd
      | S d' =>
        bindM (lift (IsTerminal bd)) (fun '(terminal, bd) =>
          if terminal then static_value bd
          else bindM (lift (AllLegalMoves bd Black)) (fun '(moves, bd) =>
            match moves with
            | [] => static_value bd
            | _ =>
              bindM (_OrderMoves self bd Black moves) (fun ordered =>
                bindM (max_loop self (min_value clock self deadline d') bd ordered
                                (- INF) a be)
                      (fun best => retM (best, bd)))
            end))
      end)).
Proof. by destruct d. Qed.

Lemma min_value_eq (d : nat) (bd : Board) (a be : Z) :
  min_value clock self deadline d bd a be =
  bindM (time clock) (fun t =>
    if Qgtb t deadline then static_value bd
    else bindM (update_analytics (add_NodesExpanded 1)) (fun _ =>
      match d with
      | O => static_value bd
      | S d' =>
        bindM (lift (IsTerminal bd)) (fun '(terminal, bd) =>
          if terminal then static_value bd
          else bindM (lift (AllLegalMoves bd White)) (fun '(moves, bd) =>
            match moves with
            | [] => static_value bd
            | _ =>
              bindM (_OrderMoves self bd White moves) (fun ordered =>
                bindM (min_loop self (max_value clock self deadline d') bd ordered
                                INF a be)
                      (fun best => retM (best, bd)))
            end))
      end)).
Proof. by destruct d. Qed.

Lemma child_spec_weaken child (val : Board -> Z) (cond cond' : Prop) :
  (cond' -> cond) -> child_spec child val cond -> child_spec child val cond'.
Proof.
  intros Himp Hchild clone a be Hwf.
  eapply yields_mono; [by apply Hchild|].
  intros r (H1 & H2 & H3). split; [done|]. split; [done|]. auto.
Qed.

(** [max_value] and [min_value] meet the node contract at every depth:
    at depth 0 in every mode, deeper when move ordering is off. *)
Lemma node_spec (d : nat) :
  child_spec (max_value clock self deadline d) (mm_max d)
             (d = O \/ UseOrdering self = false) /\
  child_spec (min_value clock self deadline d) (mm_min d)
             (d = O \/ UseOrdering self = false).
Proof.
  induction d as [|d [IHmax IHmin]].
  - split; intros bd a be Hwf.
    + rewrite max_value_eq. apply node_entry_spec; [done|].
      by apply static_value_spec.
    + rewrite min_value_eq. apply node_entry_spec; [done|].
      by apply static_value_spec.
  - split; intros bd a be Hwf.
    + rewrite max_value_eq. apply node_entry_spec; [done|].
      eapply yields_bind; [apply yields_lift, IsTerminal_wf, Hwf|]. intros ? ->.
      cbn [mm_max]. destruct (is_terminal bd); [by apply static_value_spec|].
      eapply yields_bind; [apply yields_lift, AllLegalMoves_wf, Hwf|]. intros ? ->.
      pose proof (legal_moves_on_board bd Black Hwf) as Hon.
      destruct (legal_moves bd Black) as [|m ms] eqn:Hms; [by apply static_value_spec|].
      rewrite <- Hms in *.
      eapply yields_bind; [by apply OrderMoves_spec|]. intros ordered [Hperm Hsame].
      eapply yields_bind.
      { apply (max_loop_spec _ (mm_min d) (UseOrdering self = false) bd be).
        - eapply child_spec_weaken; [|exact IHmin]. auto.
        - done.
        - by rewrite Hperm.
        - unfold INF. lia. }
      intros r (Hr1 & Hr2 & Hr3). apply yields_ret.
      split; [done|]. cbn [fst]. split.
      { split; [|lia]. apply Hr2. intros ->.
        apply Permutation_nil_l in Hperm. by rewrite Hms in Hperm. }
      intros Hlive [?|Hord]; [done|].
      destruct (Hr3 Hlive Hord) as [Hex Hwin]. rewrite (Hsame Hord) in *.
      split.
      * intros HAB. by apply Hex.
      * intros HAB Ha Hlt Hbe.
        apply (Hwin HAB a (- INF) Ha Hbe).
        unfold max_inv. lia.
    + rewrite min_value_eq. apply node_entry_spec; [done|].
      eapply yields_bind; [apply yields_lift, IsTerminal_wf, Hwf|]. intros ? ->.
      cbn [mm_min]. destruct (is_terminal bd); [by apply static_value_spec|].
      eapply yields_bind; [apply yields_lift, AllLegalMoves_wf, Hwf|]. intros ? ->.
      pose proof (legal_moves_on_board bd White Hwf) as Hon.
      destruct (legal_moves bd White) as [|m ms] eqn:Hms; [by apply static_value_spec|].
      rewrite <- Hms in *.
      eapply yields_bind; [by apply OrderMoves_spec|]. intros ordered [Hperm Hsame].
      eapply yields_bind.
      { apply (min_loop_spec _ (mm_max d) (UseOrdering self = false) bd a).
        - eapply child_spec_weaken; [|exact IHmax]. auto.
        - done.
        - by rewrite Hperm.
        - unfold INF. lia. }
      intros r (Hr1 & Hr2 & Hr3). apply yields_ret.
      split; [done|]. cbn [fst]. split.
      { split; [lia|]. apply Hr2. intros ->.
        apply Permutation_nil_l in Hperm. by rewrite Hms in Hperm. }
      intros Hlive [?|Hord]; [done|].
      destruct (Hr3 Hlive Hord) as [Hex Hwin]. rewrite (Hsame Hord) in *.
      split.
      * intros HAB. by apply Hex.
      * intros HAB Ha Hlt Hbe.
        apply (Hwin HAB be INF Ha Hbe).
        unfold min_inv. lia.
Qed.

(** ** The root loop *)

(** Root loop for Black: [alpha] follows [best_score], [beta] stays at
    [INF]; the loop ends with a move once it has tried one, and, when the
    deadline never expires and the children are right for their windows,
    with the running maximum of their values. *)
Lemma root_loop_max_spec (d : nat) (cond : Prop) (board : Board) :
  child_spec (min_value clock self deadline d) (mm_min d) cond ->
  wf_board board ->
  forall moves, Forall move_on_board moves ->
  forall idx best_move best_score,
    - INF <= best_score <= 640 ->
    (best_move = None -> best_score = - INF) ->
  yields (root_loop clock self deadline true d board moves idx
                    best_move best_score best_score INF)
    (fun r =>
       - INF <= r.2 <= 640 /\ (moves <> [] -> r.1 <> None /\ -640 <= r.2) /\
       (moves = [] -> r = (best_move, best_score)) /\
       (live -> cond ->
        r.2 = foldl (fun best m => Z.max best (mm_min d (apply_move board m)))
                    best_score moves)).
Proof.
  intros Hchild Hwf moves Hms.
  induction Hms as [|m ms Hm Hms IH]; intros idx best_move best_score Hbs Hnone.
  - cbn [root_loop]. apply yields_ret. cbn [fst snd foldl]. split_and!; try done; lia.
  - cbn [root_loop]. rewrite Clone_same.
    destruct (ApplyMove_wf board m Hwf Hm) as [Happ Hwf'].
    eapply yields_bind; [apply yields_lift, Happ|]. intros ? ->.
    cbv beta iota.
    eapply (yields_bind _ _ (fun r =>
        exists score, node_post (mm_min d (apply_move board m)) (apply_move board m)
                        best_score INF cond (score, apply_move board m) /\
          r = (if score >? best_score then Some m else best_move,
               Z.max best_score score, Z.max best_score score, INF))).
    { eapply yields_bind; [apply (Hchild _ best_score INF Hwf')|].
      intros [score bd'] Hpost. cbv beta iota.
      destruct Hpost as (Hbd & Hv & Hval). cbn [fst snd] in Hbd, Hv, Hval. subst bd'.
      destruct (Z.gtb_spec score best_score) as [Hgt|Hle].
      - eapply yields_bind.
        { eapply yields_bind.
          { destruct (idx >? 0); [apply yields_update; by intros []|by apply yields_ret]. }
          intros _ _. by apply (yields_ret _ (fun x => x = (Some m, score))). }
        intros ? ->. cbv beta iota.
        apply yields_ret. exists score. split; [done|].
        destruct (Z.gtb_spec score best_score); [|lia].
        by replace (Z.max best_score score) with score by lia.
      - eapply yields_bind;
          [by apply (yields_ret _ (fun x => x = (best_move, best_score)))|].
        intros ? ->. cbv beta iota.
        apply yields_ret. exists score. split; [done|].
        destruct (Z.gtb_spec score best_score); [lia|].
        replace (Z.max best_score score) with best_score by lia.
        by rewrite Z.max_id. }
    intros r (score & (_ & Hv & Hval) & ->). cbn [fst] in Hv, Hval.
    eapply yields_bind; [apply yields_time|]. intros t [n ->].
    assert (Hscore : forall (Hlive : live), cond ->
              Z.max best_score score =
              Z.max best_score (mm_min d (apply_move board m))).
    { intros Hlive Hcond. destruct (Hval Hlive Hcond) as [Hex Hwin].
      destruct (UseAlphaBeta self) eqn:HAB.
      - pose proof (proj2 (mm_bounds d (apply_move board m))) as HV.
        assert (Hlt : best_score < INF) by (unfold INF; lia).
        specialize (Hwin eq_refl (proj1 Hbs) Hlt (Z.le_refl _)).
        unfold window_ok, INF in *. lia.
      - by rewrite (Hex eq_refl). }
    destruct (Qgtb (clock n) deadline) eqn:Hexp.
    + apply yields_ret. cbn [fst snd]. split_and!; try done; try lia.
      * intros _. split; [|lia]. destruct (Z.gtb_spec score best_score); [done|].
        intros Hbm. specialize (Hnone Hbm). unfold INF in *. lia.
      * intros Hlive. specialize (Hlive n). congruence.
    + eapply yields_mono.
      { apply (IH (idx + 1)); [lia|].
        destruct (Z.gtb_spec score best_score); [done|]. intros Hbm.
        specialize (Hnone Hbm). unfold INF in *. lia. }
      intros r (Hr1 & Hr2 & Hr3 & Hr4). split; [done|]. split; [|split; [done|]].
      * intros _. destruct ms as [|m' ms'].
        -- rewrite (Hr3 eq_refl). cbn [fst snd]. split; [|lia].
           destruct (Z.gtb_spec score best_score); [done|]. intros Hbm.
           specialize (Hnone Hbm). unfold INF in *. lia.
        -- by apply Hr2.
      * intros Hlive Hcond. cbn [foldl].
        rewrite <- (Hscore Hlive Hcond). by apply Hr4.
Qed.

(** Root loop for White, the mirror image. *)
Lemma root_loop_min_spec (d : nat) (cond : Prop) (board : Board) :
  child_spec (max_value clock self deadline d) (mm_max d) cond ->
  wf_board board ->
  forall moves, Forall move_on_board moves ->
  forall idx best_move best_score,
    -640 <= best_score <= INF ->
    (best_move = None -> best_score = INF) ->
  yields (root_loop clock self deadline false d board moves idx
                    best_move best_score (- INF) best_score)
    (fun r =>
       -640 <= r.2 <= INF /\ (moves <> [] -> r.1 <> None /\ r.2 <= 640) /\
       (moves = [] -> r = (best_move, best_score)) /\
       (live -> cond ->
        r.2 = foldl (fun best m => Z.min best (mm_max d (apply_move board m)))
                    best_score moves)).
Proof.
  intros Hchild Hwf moves Hms.
  induction Hms as [|m ms Hm Hms IH]; intros idx best_move best_score Hbs Hnone.
  - cbn [root_loop]. apply yields_ret. cbn [fst snd foldl]. split_and!; try done; lia.
  - cbn [root_loop]. rewrite Clone_same.
    destruct (ApplyMove_wf board m Hwf Hm) as [Happ Hwf'].
    eapply yields_bind; [apply yields_lift, Happ|]. intros ? ->.
    cbv beta iota.
    eapply (yields_bind _ _ (fun r =>
        exists score, node_post (mm_max d (apply_move board m)) (apply_move board m)
                        (- INF) best_score cond (score, apply_move board m) /\
          r = (if score <? best_score then Some m else best_move,
               Z.min best_score score, - INF, Z.min best_score score))).
    { eapply yields_bind; [apply (Hchild _ (- INF) best_score Hwf')|].
      intros [score bd'] Hpost. cbv beta iota.
      destruct Hpost as (Hbd & Hv & Hval). cbn [fst snd] in Hbd, Hv, Hval. subst bd'.
      destruct (Z.ltb_spec score best_score) as [Hgt|Hle].
      - eapply yields_bind.
        { eapply yields_bind.
          { destruct (idx >? 0); [apply yields_update; by intros []|by apply yields_ret]. }
          intros _ _. by apply (yields_ret _ (fun x => x = (Some m, score))). }
        intros ? ->. cbv beta iota.
        apply yields_ret. exists score. split; [done|].
        destruct (Z.ltb_spec score best_score); [|lia].
        by replace (Z.min best_score score) with score by lia.
      - eapply yields_bind;
          [by apply (yields_ret _ (fun x => x = (best_move, best_score)))|].
        intros ? ->. cbv beta iota.
        apply yields_ret. exists score. split; [done|].
        destruct (Z.ltb_spec score best_score); [lia|].
        replace (Z.min best_score score) with best_score by lia.
        by rewrite Z.min_id. }
    intros r (score & (_ & Hv & Hval) & ->). cbn [fst] in Hv, Hval.
    eapply yields_bind; [apply yields_time|]. intros t [n ->].
    assert (Hscore : forall (Hlive : live), cond ->
              Z.min best_score score =
              Z.min best_score (mm_max d (apply_move board m))).
    { intros Hlive Hcond. destruct (Hval Hlive Hcond) as [Hex Hwin].
      destruct (UseAlphaBeta self) eqn:HAB.
      - pose proof (proj1 (mm_bounds d (apply_move board m))) as HV.
        assert (Hlt : - INF < best_score) by (unfold INF; lia).
        specialize (Hwin eq_refl (Z.le_refl _) Hlt (proj2 Hbs)).
        unfold window_ok, INF in *. lia.
      - by rewrite (Hex eq_refl). }
    destruct (Qgtb (clock n) deadline) eqn:Hexp.
    + apply yields_ret. cbn [fst snd]. split_and!; try done; try lia.
      * intros _. split; [|lia]. destruct (Z.ltb_spec score best_score); [done|].
        intros Hbm. specialize (Hnone Hbm). unfold INF in *. lia.
      * intros Hlive. specialize (Hlive n). congruence.
    + eapply yields_mono.
      { apply (IH (idx + 1)); [lia|].
        destruct (Z.ltb_spec score best_score); [done|]. intros Hbm.
        specialize (Hnone Hbm). unfold INF in *. lia. }
      intros r (Hr1 & Hr2 & Hr3 & Hr4). split; [done|]. split; [|split; [done|]].
      * intros _. destruct ms as [|m' ms'].
        -- rewrite (Hr3 eq_refl). cbn [fst snd]. split; [|lia].
           destruct (Z.ltb_spec score best_score); [done|]. intros Hbm.
           specialize (Hnone Hbm). unfold INF in *. lia.
        -- by apply Hr2.
      * intros Hlive Hcond. cbn [foldl].
        rewrite <- (Hscore Hlive Hcond). by apply Hr4.
Qed.

(** ** [_SearchDepth] *)

(** The root score of a full search [d] plies below the root: the best,
    for the side to move, of the minimax values of its legal moves. *)
Definition root_score (board : Board) (side : Side) (d : nat) (s : Z) : Prop :=
  match side with
  | Black => is_max_of (map (fun m => mm_min d (apply_move board m))
                            (legal_moves board Black)) s
  | White => is_min_of (map (fun m => mm_max d (apply_move board m))
                            (legal_moves board White)) s
  end.

Lemma is_max_of_perm (l l' : list Z) (s : Z) :
  l ≡ₚ l' -> is_max_of l s -> is_max_of l' s.
Proof.
  intros Hperm [Hin Hub]. split; [by rewrite <- Hperm|].
  intros x Hx. apply Hub. by rewrite Hperm.
Qed.

Lemma is_min_of_perm (l l' : list Z) (s : Z) :
  l ≡ₚ l' -> is_min_of l s -> is_min_of l' s.
Proof.
  intros Hperm [Hin Hub]. split; [by rewrite <- Hperm|].
  intros x Hx. apply Hub. by rewrite Hperm.
Qed.

Lemma SearchDepth_spec (board : Board) (side : Side) (depth : nat) :
  wf_board board ->
  yields (_SearchDepth clock self deadline board side depth)
    (fun r =>
       r.2 = board /\
       (legal_moves board side = [] -> r.1 = (None, None)) /\
       (legal_moves board side <> [] ->
        r.1.1 <> None /\
        exists s, r.1.2 = Some s /\ -640 <= s <= 640 /\
          (live -> Nat.pred depth = O \/ UseOrdering self = false ->
           root_score board side (Nat.pred depth) s))).
Proof.
  intros Hwf. unfold _SearchDepth.
  eapply yields_bind; [apply yields_time|]. intros start _.
  eapply yields_bind; [apply yields_lift, AllLegalMoves_wf, Hwf|]. intros ? ->.
  pose proof (legal_moves_on_board board side Hwf) as Hon.
  destruct (legal_moves board side) as [|m0 ms0] eqn:Hms.
  { apply yields_ret. by split_and!. }
  rewrite <- Hms in *.
  assert (Hne : legal_moves board side <> []) by (by rewrite Hms).
  eapply yields_bind; [by apply OrderMoves_spec|]. intros ordered [Hperm _].
  assert (Hone : ordered <> []).
  { intros ->. by apply Permutation_nil_l in Hperm. }
  assert (Hon' : Forall move_on_board ordered) by by rewrite Hperm.
  destruct (node_spec (Nat.pred depth)) as [Hmax Hmin].
  destruct side; cbn [bool_decide decide_rel Side_eq_dec]; cbv beta iota.
  - (* White minimises *)
    eapply yields_bind.
    { change (bool_decide (White = Black)) with false.
      apply (root_loop_min_spec _ _ board Hmax Hwf ordered Hon' 0 None INF);
        [unfold INF; lia|done]. }
    intros [bm bs] (Hbs & Hsome & _ & Hval). cbn [fst snd] in *.
    eapply yields_bind; [apply yields_time|]. intros t _.
    eapply yields_bind; [apply yields_update; by intros []|]. intros _ _.
    apply yields_ret. cbn [fst snd]. split; [done|]. split; [done|]. intros _.
    destruct (Hsome Hone) as [Hbm Hhi]. split; [done|].
    exists bs. split; [done|]. split; [lia|].
    intros Hlive Hcond. unfold root_score.
    apply (is_min_of_perm (map (fun m => mm_max (Nat.pred depth) (apply_move board m))
                               ordered)); [by rewrite Hperm|].
    rewrite (Hval Hlive Hcond). apply foldl_min_is_min; [done|].
    intros m _. pose proof (proj1 (mm_bounds (Nat.pred depth) (apply_move board m))).
    unfold INF. lia.
  - (* Black maximises *)
    eapply yields_bind.
    { change (bool_decide (Black = Black)) with true.
      apply (root_loop_max_spec _ _ board Hmin Hwf ordered Hon' 0 None (- INF));
        [unfold INF; lia|done]. }
    intros [bm bs] (Hbs & Hsome & _ & Hval). cbn [fst snd] in *.
    eapply yields_bind; [apply yields_time|]. intros t _.
    eapply yields_bind; [apply yields_update; by intros []|]. intros _ _.
    apply yields_ret. cbn [fst snd]. split; [done|]. split; [done|]. intros _.
    destruct (Hsome Hone) as [Hbm Hlo]. split; [done|].
    exists bs. split; [done|]. split; [lia|].
    intros Hlive Hcond. unfold root_score.
    apply (is_max_of_perm (map (fun m => mm_min (Nat.pred depth) (apply_move board m))
                               ordered)); [by rewrite Hperm|].
    rewrite (Hval Hlive Hcond). apply foldl_max_is_max; [done|].
    intros m _. pose proof (proj2 (mm_bounds (Nat.pred depth) (apply_move board m))).
    unfold INF. lia.
Qed.

End SearchFacts.

Lemma is_max_of_unique (l : list Z) (s1 s2 : Z) :
  is_max_of l s1 -> is_max_of l s2 -> s1 = s2.
Proof. intros [Hin1 Hub1] [Hin2 Hub2]. specialize (Hub1 _ Hin2). specialize (Hub2 _ Hin1). lia. Qed.

Lemma is_min_of_unique (l : list Z) (s1 s2 : Z) :
  is_min_of l s1 -> is_min_of l s2 -> s1 = s2.
Proof. intros [Hin1 Hub1] [Hin2 Hub2]. specialize (Hub1 _ Hin2). specialize (Hub2 _ Hin1). lia. Qed.

Lemma root_score_unique (board : Board) (side : Side) (d : nat) (s1 s2 : Z) :
  root_score board side d s1 -> root_score board side d s2 -> s1 = s2.
Proof.
  destruct side; [apply is_min_of_unique|apply is_max_of_unique].
Qed.

(** A clock that stands still before a deadline that never comes. *)
Definition still_clock : nat -> Q := fun _ => 0%Q.

Lemma still_clock_live : live still_clock 1%Q.
Proof. intros n. reflexivity. Defined.

Definition fresh_world : World := mkWorld fresh_analytics 0.

(** Float addition where it is exact: the sums the sample clocks call for,
    such as 0 + 1, are floats themselves. *)
Definition exact_sum : Q -> Z -> Q := fun x n => (x + inject_Z n)%Q.

(** * Pruning does not change the root score *)

(** C7. When the deadline never expires, the root search of mode
    "minimax" and the root search of mode "alpha-beta" return the same
    score at every depth (from depth 1, the least [ChooseMove] uses), on
    every board and for either side, whatever the analytics and clock
    position each starts from; both leave the board as it was. *)
Theorem minimax_alpha_beta_same_score (clock : nat -> Q) (deadline : Q)
    (board : Board) (side : Side) (depth : nat) (w1 w2 : World) :
  wf_board board -> (1 <= depth)%nat -> live clock deadline ->
  exists mv1 mv2 score w1' w2',
    _SearchDepth clock (SearchToolBox_init "minimax") deadline board side depth w1
      = Ret ((mv1, score, board), w1') /\
    _SearchDepth clock (SearchToolBox_init "alpha-beta") deadline board side depth w2
      = Ret ((mv2, score, board), w2').
Proof.
  intros Hwf _ Hlive.
  destruct (SearchDepth_spec clock (SearchToolBox_init "minimax") deadline
              board side depth Hwf w1)
    as ([[mv1 s1] b1] & w1' & Hrun1 & _ & Hb1 & Hnil1 & Hsome1).
  destruct (SearchDepth_spec clock (SearchToolBox_init "alpha-beta") deadline
              board side depth Hwf w2)
    as ([[mv2 s2] b2] & w2' & Hrun2 & _ & Hb2 & Hnil2 & Hsome2).
  cbn [fst snd] in *. subst b1 b2.
  assert (Hsame : s2 = s1).
  { destruct (decide (legal_moves board side = [])) as [Hnil|Hne].
    - specialize (Hnil1 Hnil). specialize (Hnil2 Hnil). congruence.
    - destruct (Hsome1 Hne) as (_ & x1 & Hs1 & _ & Hx1).
      destruct (Hsome2 Hne) as (_ & x2 & Hs2 & _ & Hx2).
      rewrite Hs1, Hs2. f_equal.
      apply (root_score_unique board side (Nat.pred depth));
        [apply Hx2|apply Hx1]; try done; by right. }
  exists mv1, mv2, s1, w1', w2'. split; [exact Hrun1|]. rewrite Hsame in Hrun2. exact Hrun2.
Qed.

Lemma minimax_alpha_beta_same_score_witness :
  wf_board initial_board /\ (1 <= 2)%nat /\ live still_clock 1%Q /\
  exists mv1 mv2 score w1' w2',
    _SearchDepth still_clock (SearchToolBox_init "minimax") 1%Q
                 initial_board Black 2 fresh_world
      = Ret ((mv1, score, initial_board), w1') /\
    _SearchDepth still_clock (SearchToolBox_init "alpha-beta") 1%Q
                 initial_board Black 2 fresh_world
      = Ret ((mv2, score, initial_board), w2').
Proof.
  split; [exact initial_board_wf|]. split; [lia|]. split; [exact still_clock_live|].
  apply (minimax_alpha_beta_same_score still_clock 1%Q initial_board Black 2
           fresh_world fresh_world);
    [exact initial_board_wf|lia|exact still_clock_live].
Defined.

(** * Depth-1 search *)

Lemma mm_max_leaf (b : Board) : mm_max 0 b = heuristic b.
Proof. reflexivity. Qed.

Lemma mm_min_leaf (b : Board) : mm_min 0 b = heuristic b.
Proof. reflexivity. Qed.

Lemma root_score_leaf (board : Board) (side : Side) (s : Z) :
  root_score board side 0 s ->
  match side with
  | Black => is_max_of (map (fun m => heuristic (apply_move board m))
                            (legal_moves board Black)) s
  | White => is_min_of (map (fun m => heuristic (apply_move board m))
                            (legal_moves board White)) s
  end.
Proof.
  destruct side; unfold root_score; intros H.
  - rewrite <- (map_ext (fun m => mm_max 0 (apply_move board m))
                        (fun m => heuristic (apply_move board m))
                        (fun m => mm_max_leaf (apply_move board m))).
    exact H.
  - rewrite <- (map_ext (fun m => mm_min 0 (apply_move board m))
                        (fun m => heuristic (apply_move board m))
                        (fun m => mm_min_leaf (apply_move board m))).
    exact H.
Qed.

(** The heuristic value of the board obtained by cloning [board] and
    applying [m]. *)
Definition one_ply_value (board : Board) (m : Move) (v : Z) : Prop :=
  exists b', ApplyMove (Clone board) m = Ret b' /\ HeuristicScore b' = Ret v.

(** C8. When the deadline never expires, in every mode: if the side has a
    legal move, the depth-1 search returns a move and a score, and the
    score is the greatest (Black) or the least (White) of the one-ply
    heuristic values of the legal moves. *)
Theorem depth_one_score (clock : nat -> Q) (self : SearchToolBox) (deadline : Q)
    (board : Board) (side : Side) (w : World) :
  wf_board board -> live clock deadline ->
  exists moves values,
    AllLegalMoves board side = Ret (moves, board) /\
    Forall2 (one_ply_value board) moves values /\
    (moves <> [] ->
     exists mv score w',
       _SearchDepth clock self deadline board side 1 w
         = Ret ((Some mv, Some score, board), w') /\
       match side with
       | Black => is_max_of values score
       | White => is_min_of values score
       end).
Proof.
  intros Hwf Hlive.
  exists (legal_moves board side),
         (map (fun m => heuristic (apply_move board m)) (legal_moves board side)).
  split; [by apply AllLegalMoves_wf|]. split.
  { apply Forall2_fmap_r, Forall_Forall2_diag.
    eapply Forall_impl; [by apply legal_moves_on_board|].
    intros m Hm. destruct (ApplyMove_wf board m Hwf Hm) as [Happ Hwf'].
    exists (apply_move board m). rewrite Clone_same. split; [done|].
    by apply HeuristicScore_wf. }
  intros Hne.
  destruct (SearchDepth_spec clock self deadline board side 1 Hwf w)
    as ([[mv s] b] & w' & Hrun & _ & Hb & _ & Hsome).
  cbn [fst snd] in *. subst b.
  destruct (Hsome Hne) as (Hmv & score & -> & _ & Hscore).
  destruct mv as [mv|]; [|by destruct Hmv].
  exists mv, score, w'. split; [exact Hrun|].
  specialize (Hscore Hlive (or_introl eq_refl)).
  change (Nat.pred 1) with O in Hscore. apply root_score_leaf in Hscore.
  destruct side; exact Hscore.
Qed.

Lemma depth_one_score_witness :
  wf_board initial_board /\ live still_clock 1%Q /\
  exists moves values,
    AllLegalMoves initial_board White = Ret (moves, initial_board) /\
    Forall2 (one_ply_value initial_board) moves values /\
    (moves <> [] ->
     exists mv score w',
       _SearchDepth still_clock (SearchToolBox_init "alpha-beta-ordering") 1%Q
                    initial_board White 1 fresh_world
         = Ret ((Some mv, Some score, initial_board), w') /\
       match White with
       | Black => is_max_of values score
       | White => is_min_of values score
       end).
Proof.
  split; [exact initial_board_wf|]. split; [exact still_clock_live|].
  apply (depth_one_score still_clock (SearchToolBox_init "alpha-beta-ordering") 1%Q
           initial_board White fresh_world);
    [exact initial_board_wf|exact still_clock_live].
Defined.

(** * Iterative deepening *)

(** One pass of the deepening loop: the depth searched, the move
    [_SearchDepth] returned, whether the clock reading taken right after
    the search was within the deadline, and which reading that was. *)
Record Attempt := mkAttempt {
  at_depth : Z;
  at_move : option Move;
  at_completed : bool;
  at_poll : nat
}.

(** The passes [ChooseMove] would make over [depths] from world [w] if none
    stopped the loop: each starts in the world the previous one left. *)
Fixpoint attempts (clock : nat -> Q) (self : SearchToolBox) (deadline : Q)
    (board : Board) (side : Side) (depths : list Z) (w : World) : list Attempt :=
  match depths with
  | [] => []
  | depth :: rest =>
    match _SearchDepth clock self deadline board side (Z.to_nat depth) w with
    | Ret ((move, _, _), w1) =>
      mkAttempt depth move (negb (Qgtb (clock (ticks w1)) deadline)) (ticks w1)
      :: attempts clock self deadline board side rest
                  (mkWorld (Analytics w1) (S (ticks w1)))
    | Raise _ => []
    end
  end.

(** The passes up to, and without, the first one that did not complete
    before the deadline. *)
Fixpoint completed_prefix (atts : list Attempt) : list Attempt :=
  match atts with
  | [] => []
  | a :: rest => if at_completed a then a :: completed_prefix rest else []
  end.

Lemma last_cons_some {A} (x : A) (l : list A) :
  last (x :: l) = Some (default x (last l)).
Proof.
  revert x. induction l as [|y l IH]; intros x; [done|].
  change (last (x :: y :: l)) with (last (y :: l)). rewrite IH.
  simpl. by destruct l.
Qed.

Lemma elem_of_completed_prefix (atts : list Attempt) (a : Attempt) :
  a ∈ completed_prefix atts -> a ∈ atts /\ at_completed a = true.
Proof.
  induction atts as [|x atts IH]; simpl; [by intros ?%elem_of_nil|].
  destruct (at_completed x) eqn:Hx; [|by intros ?%elem_of_nil].
  intros [->|Hin]%elem_of_cons.
  - split; [by left|done].
  - destruct (IH Hin). split; [by right|done].
Qed.

Section Deepening.

Variable clock : nat -> Q.
Variable self : SearchToolBox.
Variable deadline : Q.
Variable board : Board.
Variable side : Side.
Hypothesis board_wf : wf_board board.

(** Each pass returns a move exactly when the side has a legal move, and
    its completion flag is the deadline test on its poll. *)
Lemma attempts_facts (depths : list Z) (w : World) (a : Attempt) :
  a ∈ attempts clock self deadline board side depths w ->
  (at_move a = None <-> legal_moves board side = []) /\
  at_completed a = negb (Qgtb (clock (at_poll a)) deadline) /\
  at_depth a ∈ depths.
Proof.
  revert w. induction depths as [|depth rest IH]; intros w; cbn [attempts].
  { by intros ?%elem_of_nil. }
  destruct (SearchDepth_spec clock self deadline board side (Z.to_nat depth) board_wf w)
    as ([[mv s] b] & w1 & Hrun & _ & _ & Hnil & Hsome).
  rewrite Hrun. cbn [fst snd] in *.
  intros [->|Hin]%elem_of_cons.
  - cbn [at_move at_completed at_poll at_depth]. split_and!; [|done|by left].
    split.
    + intros ->. destruct (decide (legal_moves board side = [])) as [|Hne]; [done|].
      by destruct (Hsome Hne) as [? _].
    + intros Hn. specialize (Hnil Hn). congruence.
  - destruct (IH _ Hin) as (H1 & H2 & H3). split_and!; [done|done|by right].
Qed.

(** The deepening loop ends with the move of the last completed pass that
    returned one, or with the move it started from. *)
Lemma deepening_runs (depths : list Z) (best : option Move) (bs : option Z)
    (w : World) :
  runs (deepening clock self deadline board side depths best bs) w
       (fun r w' =>
          r.2 = board /\ frame w w' /\
          r.1.1 = match last (omap at_move
                                (completed_prefix
                                   (attempts clock self deadline board side depths w)))
                  with
                  | Some m => Some m
                  | None => best
                  end).
Proof.
  revert best bs w. induction depths as [|depth rest IH]; intros best bs w.
  { cbn [deepening attempts completed_prefix omap last].
    eexists _, _. split; [reflexivity|]. by split_and!. }
  cbn [deepening attempts].
  destruct (SearchDepth_spec clock self deadline board side (Z.to_nat depth) board_wf w)
    as ([[mv s] b] & w1 & Hrun & Hf1 & Hb & _).
  cbn [fst snd] in Hb. subst b.
  unfold runs. unfold bindM at 1. rewrite Hrun. cbv beta iota.
  unfold bindM at 1. unfold time at 1. cbv beta iota.
  cbn [completed_prefix at_completed].
  destruct (Qgtb (clock (ticks w1)) deadline) eqn:Hexp; cbn [negb].
  { eexists _, _. split; [reflexivity|]. cbn [fst snd omap last].
    split_and!; [done| |done]. unfold frame in *. simpl. congruence. }
  set (w2 := mkWorld (Analytics w1) (S (ticks w1))).
  destruct mv as [m|].
  - destruct (IH (Some m) s w2) as (r & w' & Hrun' & Hb & Hf & Hres).
    exists r, w'. split; [exact Hrun'|]. split_and!; [done| |].
    + unfold frame in *. simpl in Hf. congruence.
    + rewrite Hres. cbn [omap list_omap at_move]. rewrite last_cons_some.
      by destruct (last _).
  - destruct (IH best bs w2) as (r & w' & Hrun' & Hb & Hf & Hres).
    exists r, w'. split; [exact Hrun'|]. split_and!; [done| |].
    + unfold frame in *. simpl in Hf. congruence.
    + rewrite Hres. done.
Qed.

End Deepening.

Lemma last_omap_some {A B} (f : A -> option B) (l : list A) (a : A) :
  (forall x, x ∈ l -> f x <> None) -> last l = Some a ->
  last (omap f l) = f a.
Proof.
  induction l as [|x l IH]; intros Hf Hlast; [done|].
  cbn [omap list_omap]. destruct (f x) as [y|] eqn:Hx.
  2:{ exfalso. apply (Hf x); [by left|done]. }
  destruct l as [|x' l'].
  - injection Hlast as <-. by rewrite Hx.
  - change (last (x :: x' :: l')) with (last (x' :: l')) in Hlast.
    rewrite last_cons_some. change (list_omap A B f) with (omap f).
    rewrite IH; [|intros; apply Hf; by right|done].
    destruct (f a) eqn:Ha; [done|].
    exfalso. apply (Hf a); [|done]. right.
    rewrite last_lookup in Hlast. by eapply list_elem_of_lookup_2.
Qed.

Lemma omap_all_none {A B} (f : A -> option B) (l : list A) :
  (forall x, x ∈ l -> f x = None) -> omap f l = [].
Proof.
  induction l as [|x l IH]; intros Hf; [done|].
  cbn [omap list_omap]. rewrite (Hf x) by by left.
  apply IH. intros; apply Hf; by right.
Qed.

Lemma attempts_depths (clock : nat -> Q) (self : SearchToolBox) (deadline : Q)
    (board : Board) (side : Side) (depths : list Z) (w : World) :
  wf_board board ->
  map at_depth (attempts clock self deadline board side depths w) = depths.
Proof.
  intros Hwf. revert w. induction depths as [|depth rest IH]; intros w; [done|].
  cbn [attempts].
  destruct (SearchDepth_spec clock self deadline board side (Z.to_nat depth) Hwf w)
    as ([[mv s] b] & w1 & Hrun & _).
  rewrite Hrun. cbn [map at_depth]. by rewrite IH.
Qed.

(** The clock never runs backwards. *)
Definition monotone (clock : nat -> Q) : Prop :=
  forall i j, (i <= j)%nat -> (clock i <= clock j)%Q.

Lemma Qgtb_false (x y : Q) : Qgtb x y = false <-> (x <= y)%Q.
Proof.
  unfold Qgtb. rewrite negb_false_iff. apply Qle_bool_iff.
Qed.

(** [ChooseMove] from world [w]: what it returns, and that it hands the
    board back unchanged with a zero [MaxFringeSize]. *)
Lemma ChooseMove_runs (clock : nat -> Q) (self : SearchToolBox)
    (float_add : Q -> Z -> Q) (board : Board) (side : Side) (SecondsBudget PlyLimit : Z) (w : World) :
  wf_board board ->
  runs (ChooseMove clock self float_add board side SecondsBudget PlyLimit) w
    (fun r w' =>
       r.2 = board /\ MaxFringeSize (Analytics w') = 0 /\
       r.1 = match last (omap at_move
                     (completed_prefix
                        (attempts clock self
                           (float_add (clock (ticks w)) (Z.max 1 SecondsBudget))
                           board side (range 1 (Z.max 1 PlyLimit + 1))
                           (mkWorld fresh_analytics (S (ticks w))))))
             with
             | Some m => Some m
             | None => head (legal_moves board side)
             end).
Proof.
  intros Hwf. unfold ChooseMove, runs.
  unfold bindM at 1. unfold update_analytics at 1. cbv beta iota.
  unfold bindM at 1. unfold time at 1. cbv beta iota. cbn [ticks Analytics].
  destruct (deepening_runs clock self
              (float_add (clock (ticks w)) (Z.max 1 SecondsBudget))
              board side Hwf (range 1 (Z.max 1 PlyLimit + 1)) None None
              (mkWorld fresh_analytics (S (ticks w))))
    as ([[bm sc] b] & w1 & Hrun & Hb & Hf & Hres).
  cbn [fst snd] in Hb, Hres. subst b.
  unfold bindM at 1. rewrite Hrun. cbv beta iota.
  unfold frame in Hf. cbn [Analytics fresh_analytics MaxFringeSize] in Hf.
  destruct bm as [m|].
  - eexists _, _. split; [reflexivity|]. cbn [fst snd].
    split_and!; [done|done|]. by destruct (last _).
  - unfold bindM at 1, lift. rewrite AllLegalMoves_wf by done. cbv beta iota.
    eexists _, _. split; [reflexivity|]. cbn [fst snd].
    split_and!; [done|done|]. by destruct (last _).
Qed.

(** * The caller's board is never changed *)

(** C4. On every board and for either side, [AllLegalMoves] returns with
    the board as it was before the call: the writes of the capture-chain
    search are all undone. And [ChooseMove], whatever the clock, the mode,
    the budget and the ply limit, returns with the caller's board as it
    was. *)
Theorem search_leaves_board_unchanged (board : Board) (side : Side) :
  wf_board board ->
  (exists moves, AllLegalMoves board side = Ret (moves, board)) /\
  (forall (clock : nat -> Q) (self : SearchToolBox) (float_add : Q -> Z -> Q)
          (SecondsBudget PlyLimit : Z) (w : World),
     exists result w',
       ChooseMove clock self float_add board side SecondsBudget PlyLimit w
       = Ret ((result, board), w')).
Proof.
  intros Hwf. split.
  - exists (legal_moves board side). by apply AllLegalMoves_wf.
  - intros clock self float_add SecondsBudget PlyLimit w.
    destruct (ChooseMove_runs clock self float_add board side SecondsBudget PlyLimit w Hwf)
      as ([result b] & w' & Hrun & Hb & _).
    cbn [snd] in Hb. subst b. by exists result, w'.
Qed.

Lemma search_leaves_board_unchanged_witness :
  wf_board ring_board /\
  (exists moves, AllLegalMoves ring_board White = Ret (moves, ring_board)) /\
  (forall (clock : nat -> Q) (self : SearchToolBox) (float_add : Q -> Z -> Q)
          (SecondsBudget PlyLimit : Z) (w : World),
     exists result w',
       ChooseMove clock self float_add ring_board White SecondsBudget PlyLimit w
       = Ret ((result, ring_board), w')).
Proof.
  split; [exact ring_board_wf|].
  apply (search_leaves_board_unchanged ring_board White). exact ring_board_wf.
Defined.

(** * What [ChooseMove] returns *)

(** A clock that is past every deadline from its second reading on: no
    pass completes, and [ChooseMove] falls back on the first legal move. *)
Definition late_clock : nat -> Q :=
  fun n => match n with O => 0%Q | S _ => 5%Q end.

Example no_pass_completes :
  exists w',
    ChooseMove late_clock (SearchToolBox_init "alpha-beta-ordering") exact_sum
               initial_board Black 1 7 fresh_world
    = Ret ((Some (mkMove (2, 1) (3, 0) [(2, 1); (3, 0)] false []), initial_board), w').
Proof. eexists. vm_compute. reflexivity. Qed.

(** * The fringe counter *)

(** C10. After [ChooseMove] returns, in every mode and for every board,
    side, budget, ply limit and clock, the [MaxFringeSize] field of the
    analytics record is 0, whatever it was before the call. *)
Theorem MaxFringeSize_stays_zero (clock : nat -> Q) (self : SearchToolBox)
    (float_add : Q -> Z -> Q) (board : Board) (side : Side) (SecondsBudget PlyLimit : Z) (w : World) :
  wf_board board ->
  exists result w',
    ChooseMove clock self float_add board side SecondsBudget PlyLimit w
      = Ret ((result, board), w') /\
    MaxFringeSize (Analytics w') = 0.
Proof.
  intros Hwf.
  destruct (ChooseMove_runs clock self float_add board side SecondsBudget PlyLimit w Hwf)
    as ([result b] & w' & Hrun & Hb & Hzero & _).
  cbn [snd] in Hb. subst b. by exists result, w'.
Qed.

Lemma MaxFringeSize_stays_zero_witness :
  wf_board initial_board /\
  exists result w',
    ChooseMove still_clock (SearchToolBox_init "alpha-beta-ordering") exact_sum
               initial_board Black 2 3
               (mkWorld (mkAnalytics 5 7 0 0 0 0) 0)
      = Ret ((result, initial_board), w') /\
    MaxFringeSize (Analytics w') = 0.
Proof.
  split; [exact initial_board_wf|].
  apply (MaxFringeSize_stays_zero still_clock (SearchToolBox_init "alpha-beta-ordering") exact_sum
           initial_board Black 2 3 (mkWorld (mkAnalytics 5 7 0 0 0 0) 0)).
  exact initial_board_wf.
Defined.

(** * Reading and writing squares *)

Lemma py_norm_wrap (n : nat) (i : Z) :
  - Z.of_nat n <= i < 0 -> py_norm n i = Some (Z.to_nat (Z.of_nat n + i)).
Proof.
  intros Hi. unfold py_norm.
  destruct (Z.leb_spec 0 i); [lia|]. cbn [andb].
  destruct (Z.leb_spec (- Z.of_nat n) i); [|lia].
  destruct (Z.ltb_spec i 0); [done|lia].
Qed.

Lemma py_norm_out (n : nat) (i : Z) :
  i < - Z.of_nat n \/ Z.of_nat n <= i -> py_norm n i = None.
Proof.
  intros Hi. unfold py_norm.
  destruct (Z.leb_spec 0 i), (Z.ltb_spec i (Z.of_nat n)),
    (Z.leb_spec (- Z.of_nat n) i), (Z.ltb_spec i 0); cbn [andb]; try done; lia.
Qed.

(** An index in [-n, n) reads the element at [i mod n]. *)
Lemma py_getitem_mod {A} (l : list A) (i : Z) :
  - Z.of_nat (length l) <= i < Z.of_nat (length l) ->
  py_getitem l i = py_getitem l (i mod Z.of_nat (length l)).
Proof.
  intros Hi. destruct (decide (0 <= i)) as [Hpos|Hneg].
  - by rewrite Z.mod_small by lia.
  - unfold py_getitem at 1. rewrite py_norm_wrap by lia.
    replace (i mod Z.of_nat (length l)) with (Z.of_nat (length l) + i).
    2:{ apply (Z.mod_unique _ _ (-1)); lia. }
    unfold py_getitem. rewrite py_norm_in_range by lia. done.
Qed.

Lemma py_getitem_out {A} (l : list A) (i : Z) :
  i < - Z.of_nat (length l) \/ Z.of_nat (length l) <= i ->
  py_getitem l i = Raise IndexError.
Proof. intros Hi. unfold py_getitem. by rewrite py_norm_out. Qed.

(** A coordinate in [-8, 8) x [-8, 8) reads the square at its residues. *)
Lemma PieceAt_wrap (b : Board) (r c : Z) :
  wf_board b -> -8 <= r < 8 -> -8 <= c < 8 ->
  PieceAt b (r, c) = Ret (cell_at b (r mod 8, c mod 8)).
Proof.
  intros Hwf Hr Hc. pose proof Hwf as [Hlen Hrows].
  assert (Hr' : 0 <= r mod 8 < 8) by (apply Z.mod_pos_bound; lia).
  assert (Hc' : 0 <= c mod 8 < 8) by (apply Z.mod_pos_bound; lia).
  assert (Hin : on_board (r mod 8, c mod 8)) by (by apply on_board_bounds).
  rewrite <- (PieceAt_wf b _ Hwf Hin). unfold PieceAt.
  rewrite (py_getitem_mod b r) by lia. rewrite Hlen.
  change (Z.of_nat 8) with 8.
  destruct (wf_board_row b (r mod 8) Hwf Hr') as (row & Hrow & Hlrow).
  unfold py_getitem at 1 3. rewrite py_norm_in_range by lia. rewrite Hrow.
  cbn [bind]. rewrite (py_getitem_mod row c) by lia. by rewrite Hlrow.
Qed.

Lemma PieceAt_out (b : Board) (r c : Z) :
  wf_board b -> ~ (-8 <= r < 8 /\ -8 <= c < 8) ->
  PieceAt b (r, c) = Raise IndexError.
Proof.
  intros Hwf Hout. pose proof Hwf as [Hlen Hrows]. unfold PieceAt.
  destruct (decide (-8 <= r < 8)) as [Hr|Hr].
  - assert (Hr' : 0 <= r mod 8 < 8) by (apply Z.mod_pos_bound; lia).
    rewrite (py_getitem_mod b r) by lia. rewrite Hlen.
    change (Z.of_nat 8) with 8.
    destruct (wf_board_row b (r mod 8) Hwf Hr') as (row & Hrow & Hlrow).
    unfold py_getitem at 1. rewrite py_norm_in_range by lia. rewrite Hrow.
    cbn [bind]. apply py_getitem_out. lia.
  - rewrite py_getitem_out by lia. done.
Qed.

(** X1. [PieceAt] does not test [Inside]. On an 8x8 board a coordinate
    whose row and column both lie in [-8, 8) is read without error, and a
    negative row or column counts from the far edge: the square read is the
    one at row [r mod 8], column [c mod 8]. With a row or a column outside
    [-8, 8) the read raises [IndexError]. *)
Theorem PieceAt_index (b : Board) (r c : Z) :
  wf_board b ->
  (-8 <= r < 8 -> -8 <= c < 8 ->
   exists p, PieceAt b (r, c) = Ret p /\ PieceAt b (r mod 8, c mod 8) = Ret p /\
             Inside (r mod 8) (c mod 8) = true) /\
  (~ (-8 <= r < 8 /\ -8 <= c < 8) -> PieceAt b (r, c) = Raise IndexError).
Proof.
  intros Hwf. split; [|by apply PieceAt_out].
  intros Hr Hc.
  assert (Hr' : 0 <= r mod 8 < 8) by (apply Z.mod_pos_bound; lia).
  assert (Hc' : 0 <= c mod 8 < 8) by (apply Z.mod_pos_bound; lia).
  assert (Hin : on_board (r mod 8, c mod 8)) by (by apply on_board_bounds).
  exists (cell_at b (r mod 8, c mod 8)).
  split; [by apply PieceAt_wrap|]. split; [by apply PieceAt_wf|exact Hin].
Qed.

Lemma PieceAt_index_witness :
  wf_board initial_board /\
  (-8 <= -1 < 8 -> -8 <= -2 < 8 ->
   exists p, PieceAt initial_board (-1, -2) = Ret p /\
             PieceAt initial_board (-1 mod 8, -2 mod 8) = Ret p /\
             Inside (-1 mod 8) (-2 mod 8) = true) /\
  (~ (-8 <= -1 < 8 /\ -8 <= -2 < 8) -> PieceAt initial_board (-1, -2) = Raise IndexError).
Proof.
  split; [exact initial_board_wf|].
  apply (PieceAt_index initial_board (-1) (-2)). exact initial_board_wf.
Defined.

(** X2. On an 8x8 board and for a square that passes [Inside], [SetPiece]
    returns an 8x8 board on which [PieceAt] reads the value written at that
    square and reads every other square as before; and writing back the
    value a square already holds gives the same board. *)
Theorem SetPiece_PieceAt (b : Board) (rc : Coordinate) (x : cell) :
  wf_board b -> Inside rc.1 rc.2 = true ->
  exists b' p,
    SetPiece b rc x = Ret b' /\ wf_board b' /\
    PieceAt b' rc = Ret x /\
    (forall rc', Inside rc'.1 rc'.2 = true -> rc' <> rc ->
                 PieceAt b' rc' = PieceAt b rc') /\
    PieceAt b rc = Ret p /\ SetPiece b rc p = Ret b.
Proof.
  intros Hwf Hrc. exists (set_at b rc x), (cell_at b rc).
  assert (Hwf' : wf_board (set_at b rc x)) by by apply set_at_wf.
  split_and!.
  - by apply SetPiece_wf.
  - done.
  - rewrite PieceAt_wf by done. f_equal. by apply cell_at_set_eq.
  - intros rc' Hrc' Hne. rewrite !PieceAt_wf by done. f_equal.
    apply cell_at_set_ne; done.
  - by apply PieceAt_wf.
  - rewrite SetPiece_wf by done. f_equal.
    apply board_ext; [by apply set_at_wf|done|].
    intros rc' Hrc'. rewrite cell_at_set by done. case_decide; by subst.
Qed.

Lemma SetPiece_PieceAt_witness :
  wf_board initial_board /\ Inside (3, 4).1 (3, 4).2 = true /\
  exists b' p,
    SetPiece initial_board (3, 4) WKing = Ret b' /\ wf_board b' /\
    PieceAt b' (3, 4) = Ret WKing /\
    (forall rc', Inside rc'.1 rc'.2 = true -> rc' <> (3, 4) ->
                 PieceAt b' rc' = PieceAt initial_board rc') /\
    PieceAt initial_board (3, 4) = Ret p /\ SetPiece initial_board (3, 4) p = Ret initial_board.
Proof.
  split; [exact initial_board_wf|]. split; [reflexivity|].
  apply (SetPiece_PieceAt initial_board (3, 4) WKing);
    [exact initial_board_wf|reflexivity].
Defined.

(** * The starting position *)

(** X3. [_InitialBoard] builds an 8x8 board: a Black man on every dark
    square (row plus column odd) of rows 0 to 2, a White man on every dark
    square of rows 5 to 7, and nothing anywhere else; twelve men a side. *)
Theorem InitialBoard_layout :
  exists b,
    _InitialBoard = Ret b /\ wf_board b /\
    (forall r c, Inside r c = true ->
       PieceAt b (r, c) =
       Ret (if (r + c) mod 2 =? 1
            then (if r <? 3 then BMan else if 5 <=? r then WMan else Vacant)
            else Vacant)) /\
    length (side_squares b Black) = 12%nat /\
    length (side_squares b White) = 12%nat.
Proof.
  exists initial_board. split; [exact InitialBoard_value|].
  split; [exact initial_board_wf|]. split; [|split; reflexivity].
  intros r c Hin.
  assert (Hrc : (r, c) ∈ all_squares) by by apply elem_of_all_squares.
  vm_compute in Hrc.
  repeat (apply elem_of_cons in Hrc as [[= -> ->]|Hrc]; [reflexivity|]).
  by apply elem_of_nil in Hrc.
Qed.

(** * Pieces on the board and the terminal test *)

Lemma existsb_elem_of {A} (f : A -> bool) (l : list A) :
  existsb f l = true <-> exists x, x ∈ l /\ f x = true.
Proof.
  rewrite existsb_exists. split; intros (x & Hx & Hf); exists x;
    (split; [by apply list_elem_of_In|done]).
Qed.

(** X4. On an 8x8 board [_HasPieces] is true exactly when some square of
    the board holds a man or a king of the side. *)
Theorem HasPieces_iff (b : Board) (side : Side) :
  wf_board b ->
  (_HasPieces b side = true <->
   exists rc p, Inside rc.1 rc.2 = true /\ PieceAt b rc = Ret p /\
                p ∈ side_targets side).
Proof.
  intros Hwf. split.
  - unfold _HasPieces. intros (row & Hrow & Hex)%existsb_elem_of.
    apply existsb_elem_of in Hex as (x & Hx & Hside).
    apply bool_decide_eq_true in Hside.
    apply list_elem_of_lookup in Hrow as [i Hi].
    apply list_elem_of_lookup in Hx as [j Hj].
    pose proof Hwf as [Hlen Hrows]. rewrite Forall_forall in Hrows.
    assert (Hl : length row = 8%nat).
    { apply Hrows. by eapply list_elem_of_lookup_2. }
    apply lookup_lt_Some in Hi as Hi'. apply lookup_lt_Some in Hj as Hj'.
    exists (Z.of_nat i, Z.of_nat j), x.
    assert (Hon : on_board (Z.of_nat i, Z.of_nat j)).
    { apply on_board_bounds. simpl. lia. }
    split; [exact Hon|]. split; [|done].
    rewrite PieceAt_wf by done. unfold cell_at. simpl.
    by rewrite !Nat2Z.id, Hi, Hj.
  - intros (rc & p & Hin & Hp & Hside).
    rewrite PieceAt_wf in Hp by done. injection Hp as <-.
    apply (HasPieces_owned b side rc). unfold owned. by apply bool_decide_eq_true.
Qed.

Lemma HasPieces_iff_witness :
  wf_board ring_board /\
  (_HasPieces ring_board White = true <->
   exists rc p, Inside rc.1 rc.2 = true /\ PieceAt ring_board rc = Ret p /\
                p ∈ side_targets White).
Proof.
  split; [exact ring_board_wf|].
  apply (HasPieces_iff ring_board White). exact ring_board_wf.
Defined.

Lemma no_pieces_no_moves (b : Board) (side : Side) :
  _HasPieces b side = false -> legal_moves b side = [].
Proof.
  intros Hno. unfold legal_moves, all_captures, all_quiets.
  by rewrite (no_pieces_no_squares b side Hno).
Qed.

(** X5. On an 8x8 board [IsTerminal] returns, leaves the board as it was,
    and answers True exactly when White or Black has no legal move: the two
    tests for a side without pieces add nothing to the two tests for a side
    without moves. *)
Theorem IsTerminal_no_moves (b : Board) :
  wf_board b ->
  exists t white_moves black_moves,
    IsTerminal b = Ret (t, b) /\
    AllLegalMoves b White = Ret (white_moves, b) /\
    AllLegalMoves b Black = Ret (black_moves, b) /\
    (t = true <-> white_moves = [] \/ black_moves = []).
Proof.
  intros Hwf.
  exists (is_terminal b), (legal_moves b White), (legal_moves b Black).
  split; [by apply IsTerminal_wf|].
  split; [by apply AllLegalMoves_wf|]. split; [by apply AllLegalMoves_wf|].
  unfold is_terminal. rewrite !orb_true_iff, !negb_true_iff, !Z.eqb_eq.
  split.
  - intros [[[Hw|Hb]|Hw]|Hb].
    + left. by apply no_pieces_no_moves.
    + right. by apply no_pieces_no_moves.
    + left. destruct (legal_moves b White); [done|simpl in Hw; lia].
    + right. destruct (legal_moves b Black); [done|simpl in Hb; lia].
  - intros [Hw|Hb].
    + left. right. by rewrite Hw.
    + right. by rewrite Hb.
Qed.

Lemma IsTerminal_no_moves_witness :
  wf_board ring_after /\
  exists t white_moves black_moves,
    IsTerminal ring_after = Ret (t, ring_after) /\
    AllLegalMoves ring_after White = Ret (white_moves, ring_after) /\
    AllLegalMoves ring_after Black = Ret (black_moves, ring_after) /\
    (t = true <-> white_moves = [] \/ black_moves = []).
Proof.
  assert (Hwf : wf_board ring_after) by (split; [reflexivity|repeat constructor]).
  split; [exact Hwf|].
  apply (IsTerminal_no_moves ring_after). exact Hwf.
Defined.

(** * The evaluator *)

(** X6. On an 8x8 board [HeuristicScore] returns a value between -640 and
    640, so strictly inside the sentinels -10^9 and 10^9 that the search
    starts its running best from. *)
Theorem HeuristicScore_range (b : Board) :
  wf_board b ->
  exists v, HeuristicScore b = Ret v /\ -640 <= v <= 640 /\ - INF < v < INF.
Proof.
  intros Hwf. exists (heuristic b). split; [by apply HeuristicScore_wf|].
  pose proof (heuristic_bound b). unfold INF. lia.
Qed.

Lemma HeuristicScore_range_witness :
  wf_board ring_board /\
  exists v, HeuristicScore ring_board = Ret v /\ -640 <= v <= 640 /\ - INF < v < INF.
Proof.
  split; [exact ring_board_wf|].
  apply (HeuristicScore_range ring_board). exact ring_board_wf.
Defined.

(** An 8x8 board written out as its sixty-four squares. *)
Ltac explode_list l H :=
  do 8 (destruct l as [|? l]; [discriminate H|]);
  destruct l; [clear H|discriminate H].

Ltac explode_board b Hwf :=
  let Hlen := fresh "Hlen" in
  let Hrows := fresh "Hrows" in
  destruct Hwf as [Hlen Hrows];
  explode_list b Hlen;
  repeat match goal with
         | H : Forall _ (_ :: _) |- _ => apply Forall_cons in H as [? H]
         end;
  clear Hrows;
  repeat match goal with
         | H : length ?row = 8%nat |- _ => explode_list row H
         end.

(** The board seen from the other side of the table: turned by half a
    turn, so that square [(r, c)] comes to [(7 - r, 7 - c)], with the two
    colours exchanged. *)
Definition swap_colour (p : cell) : cell :=
  match p with
  | Vacant => Vacant
  | WMan => BMan
  | WKing => BKing
  | BMan => WMan
  | BKing => WKing
  end.

Definition turned (b : Board) : Board :=
  reverse (map (fun row => reverse (map swap_colour row)) b).

Lemma cell_score_swap (r : Z) (p : cell) :
  cell_score r (swap_colour p) = - cell_score (7 - r) p.
Proof. destruct p; unfold cell_score, size; simpl; lia. Qed.

(** X7. The evaluation is antisymmetric between the two sides: turning an
    8x8 board by half a turn and exchanging the colours of all pieces
    negates [HeuristicScore]. *)
Theorem HeuristicScore_turned (b : Board) :
  wf_board b ->
  exists v, HeuristicScore b = Ret v /\ wf_board (turned b) /\
            HeuristicScore (turned b) = Ret (- v).
Proof.
  intros Hwf. exists (heuristic b). split; [by apply HeuristicScore_wf|].
  explode_board b Hwf.
  match goal with
  | |- wf_board ?t /\ _ =>
    assert (Hwf' : wf_board t) by (split; [reflexivity|repeat constructor])
  end.
  split; [exact Hwf'|].
  rewrite HeuristicScore_wf by exact Hwf'.
  f_equal. unfold heuristic.
  let sq := eval vm_compute in all_squares in change all_squares with sq.
  cbn [foldl fst].
  repeat match goal with
         | |- context [cell_at ?b ?rc] =>
           let v := eval cbv -[swap_colour] in (cell_at b rc) in
           change (cell_at b rc) with v
         end.
  rewrite !cell_score_swap.
  repeat match goal with
         | |- context [7 - ?k] =>
           let v := eval cbv in (7 - k) in change (7 - k) with v
         end.
  lia.
Qed.

Lemma HeuristicScore_turned_witness :
  wf_board ring_board /\
  exists v, HeuristicScore ring_board = Ret v /\ wf_board (turned ring_board) /\
            HeuristicScore (turned ring_board) = Ret (- v).
Proof.
  split; [exact ring_board_wf|].
  apply (HeuristicScore_turned ring_board). exact ring_board_wf.
Defined.

(** * Printing the board *)

Lemma cell_chr_inj (p q : cell) : cell_chr p = cell_chr q -> p = q.
Proof. by destruct p, q. Qed.

(** X8. [Pretty] shows the whole position: on an 8x8 board it returns a
    string of 170 characters (a header line and eight row lines of 18
    characters, joined by line feeds), and two 8x8 boards that print the
    same are the same board. *)
Theorem Pretty_faithful (b1 b2 : Board) :
  wf_board b1 -> wf_board b2 ->
  exists s1 s2,
    Pretty b1 = Ret s1 /\ Pretty b2 = Ret s2 /\
    String.length s1 = 170%nat /\
    (s1 = s2 -> b1 = b2).
Proof.
  intros Hwf1 Hwf2. explode_board b1 Hwf1. explode_board b2 Hwf2.
  eexists _, _. split; [cbv -[cell_chr]; reflexivity|].
  split; [cbv -[cell_chr]; reflexivity|].
  split; [reflexivity|].
  intros Heq.
  repeat match goal with
         | H : String _ _ = String _ _ |- _ => injection H; clear H; intros
         end.
  repeat match goal with
         | H : cell_chr _ = cell_chr _ |- _ => apply cell_chr_inj in H
         end.
  by subst.
Qed.

Lemma Pretty_faithful_witness :
  wf_board initial_board /\ wf_board ring_board /\
  exists s1 s2,
    Pretty initial_board = Ret s1 /\ Pretty ring_board = Ret s2 /\
    String.length s1 = 170%nat /\
    (s1 = s2 -> initial_board = ring_board).
Proof.
  split; [exact initial_board_wf|]. split; [exact ring_board_wf|].
  apply (Pretty_faithful initial_board ring_board);
    [exact initial_board_wf|exact ring_board_wf].
Defined.

(** The starting position as [Pretty] prints it. *)
Example Pretty_initial :
  Pretty initial_board =
  Ret (join newline
         [ "   0 1 2 3 4 5 6 7";
           "0  . b . b . b . b";
           "1  b . b . b . b .";
           "2  . b . b . b . b";
           "3  . . . . . . . .";
           "4  . . . . . . . .";
           "5  w . w . w . w .";
           "6  . w . w . w . w";
           "7  w . w . w . w ." ]%string).
Proof. reflexivity. Qed.

(** * Cumulative analytics *)

Definition total_of (f : MoveAnalytics -> Z) (ms : list MoveAnalytics) : Z :=
  foldr Z.add 0 (map f ms).

Definition greatest_of (f : MoveAnalytics -> Z) (ms : list MoveAnalytics) : Z :=
  foldr Z.max 0 (map f ms).

Lemma total_of_snoc (f : MoveAnalytics -> Z) (ms : list MoveAnalytics) (m : MoveAnalytics) :
  total_of f (ms ++ [m]) = total_of f ms + f m.
Proof.
  unfold total_of. induction ms as [|x ms IH]; simpl; [lia|]. rewrite IH. lia.
Qed.

Lemma greatest_of_snoc (f : MoveAnalytics -> Z) (ms : list MoveAnalytics) (m : MoveAnalytics) :
  greatest_of f (ms ++ [m]) = Z.max (greatest_of f ms) (f m).
Proof.
  unfold greatest_of. induction ms as [|x ms IH]; simpl; [lia|]. rewrite IH. lia.
Qed.

Lemma accumulate_all (ms : list MoveAnalytics) :
  foldl accumulate fresh_analytics ms =
  mkAnalytics (total_of NodesExpanded ms) (greatest_of MaxFringeSize ms)
              (total_of AlphaBetaCuts ms) (total_of OrderingComparisons ms)
              (total_of OrderingGains ms) (total_of ElapsedMs ms).
Proof.
  induction ms as [|m ms IH] using rev_ind; [done|].
  rewrite foldl_app. cbn [foldl]. rewrite IH. unfold accumulate.
  cbn [NodesExpanded MaxFringeSize AlphaBetaCuts OrderingComparisons OrderingGains ElapsedMs].
  by rewrite !total_of_snoc, greatest_of_snoc.
Qed.

(** X9. [Summary] reports, for the records added so far, the sum of each
    counter and, as [MaxFringeSize], the greatest fringe size among them
    and 0 (so never a negative number, and 0 when nothing was added).
    After [Add] of one more record every total grows by that record's
    counter and [MaxFringeSize] becomes the greater of the two. *)
Theorem Summary_totals (self : CumulativeAnalytics) :
  let ms := PerMove self in
  Summary self =
  [ ("TotalNodesExpanded", total_of NodesExpanded ms);
    ("MaxFringeSize", greatest_of MaxFringeSize ms);
    ("TotalAlphaBetaCuts", total_of AlphaBetaCuts ms);
    ("TotalOrderingComparisons", total_of OrderingComparisons ms);
    ("TotalOrderingGains", total_of OrderingGains ms);
    ("TotalElapsedMs", total_of ElapsedMs ms) ]%string /\
  0 <= greatest_of MaxFringeSize ms /\
  Summary no_analytics =
  [ ("TotalNodesExpanded", 0); ("MaxFringeSize", 0); ("TotalAlphaBetaCuts", 0);
    ("TotalOrderingComparisons", 0); ("TotalOrderingGains", 0);
    ("TotalElapsedMs", 0) ]%string /\
  forall m,
    Summary (Add self m) =
    [ ("TotalNodesExpanded", total_of NodesExpanded ms + NodesExpanded m);
      ("MaxFringeSize", Z.max (greatest_of MaxFringeSize ms) (MaxFringeSize m));
      ("TotalAlphaBetaCuts", total_of AlphaBetaCuts ms + AlphaBetaCuts m);
      ("TotalOrderingComparisons",
       total_of OrderingComparisons ms + OrderingComparisons m);
      ("TotalOrderingGains", total_of OrderingGains ms + OrderingGains m);
      ("TotalElapsedMs", total_of ElapsedMs ms + ElapsedMs m) ]%string.
Proof.
  intros ms. split_and!.
  - unfold Summary. fold ms. by rewrite accumulate_all.
  - unfold greatest_of. induction ms as [|m ms' IH]; cbn [foldr map]; lia.
  - reflexivity.
  - intros m. unfold Summary, Add. cbn [PerMove]. fold ms.
    rewrite accumulate_all.
    cbn [NodesExpanded MaxFringeSize AlphaBetaCuts OrderingComparisons OrderingGains ElapsedMs].
    by rewrite !total_of_snoc, greatest_of_snoc.
Qed.

(** The line [PrettyAnalytics] makes of a record. *)
Example PrettyAnalytics_line :
  PrettyAnalytics 3 "Bot(Black)" (mkAnalytics 120 0 7 15 2 1987) =
  "[Move 3 - Bot(Black)] NodesExpanded=120, MaxFringeSize=0, AlphaBetaCuts=7, OrderingComparisons=15, OrderingGains=2, ElapsedMs=1987"%string.
Proof. reflexivity. Qed.

(** * Pixels and squares *)

(** X10. A pixel inside the rectangle drawn for a square of the board is
    mapped back to that square by [_PixelToSquare]. *)
Theorem PixelToSquare_inverse (r c x y : Z) :
  Inside r c = true ->
  (_HighlightSquare r c).1.1.1 <= x < (_HighlightSquare r c).1.2 ->
  (_HighlightSquare r c).1.1.2 <= y < (_HighlightSquare r c).2 ->
  _PixelToSquare x y = (Some r, Some c).
Proof.
  intros Hin%Inside_bounds. unfold _HighlightSquare, _PixelToSquare.
  unfold PADDING, SQUARE, BOARD_SIZE. cbn [fst snd]. intros Hx Hy.
  destruct (Z.leb_spec 30 x); [|lia]. destruct (Z.leb_spec x (30 + 8 * 80)); [|lia].
  destruct (Z.leb_spec 30 y); [|lia]. destruct (Z.leb_spec y (30 + 8 * 80)); [|lia].
  cbn [andb negb]. f_equal; f_equal.
  - symmetry. apply (Z.div_unique _ _ _ (y - 30 - 80 * r)); lia.
  - symmetry. apply (Z.div_unique _ _ _ (x - 30 - 80 * c)); lia.
Qed.

Lemma PixelToSquare_inverse_witness :
  Inside 2 5 = true /\
  (_HighlightSquare 2 5).1.1.1 <= 431 < (_HighlightSquare 2 5).1.2 /\
  (_HighlightSquare 2 5).1.1.2 <= 190 < (_HighlightSquare 2 5).2 /\
  _PixelToSquare 431 190 = (Some 2, Some 5).
Proof.
  split; [reflexivity|]. split; [vm_compute; split; [discriminate|reflexivity]|].
  split; [vm_compute; split; [discriminate|reflexivity]|].
  apply (PixelToSquare_inverse 2 5 431 190).
  - reflexivity.
  - vm_compute. split; [discriminate|reflexivity].
  - vm_compute. split; [discriminate|reflexivity].
Defined.

(** X11. [_PixelToSquare] answers (None, None) exactly for the pixels
    outside the closed range 30..670 in x or in y. Inside it, it answers a
    row and a column between 0 and 8: the pixels on the far edge, x = 670
    or y = 670, are accepted and give column 8 or row 8, a square that does
    not pass [Inside] and that [PieceAt] cannot read on an 8x8 board
    ([IndexError]). *)
Theorem PixelToSquare_far_edge (x y : Z) :
  (~ (30 <= x <= 670 /\ 30 <= y <= 670) -> _PixelToSquare x y = (None, None)) /\
  (30 <= x <= 670 -> 30 <= y <= 670 ->
   exists r c,
     _PixelToSquare x y = (Some r, Some c) /\
     0 <= r <= 8 /\ 0 <= c <= 8 /\
     (r = 8 <-> y = 670) /\ (c = 8 <-> x = 670) /\
     (Inside r c = false <-> x = 670 \/ y = 670) /\
     (forall b, wf_board b -> Inside r c = false ->
                PieceAt b (r, c) = Raise IndexError)).
Proof.
  unfold _PixelToSquare, PADDING, SQUARE, BOARD_SIZE. split.
  - intros Hout.
    destruct (Z.leb_spec 30 x), (Z.leb_spec x (30 + 8 * 80)),
      (Z.leb_spec 30 y), (Z.leb_spec y (30 + 8 * 80)); cbn [andb negb]; try done; lia.
  - intros Hx Hy.
    destruct (Z.leb_spec 30 x); [|lia]. destruct (Z.leb_spec x (30 + 8 * 80)); [|lia].
    destruct (Z.leb_spec 30 y); [|lia]. destruct (Z.leb_spec y (30 + 8 * 80)); [|lia].
    cbn [andb negb]. eexists _, _. split; [reflexivity|].
    pose proof (Z.div_mod (y - 30) 80 ltac:(lia)) as Hdy.
    pose proof (Z.mod_pos_bound (y - 30) 80 ltac:(lia)) as Hmy.
    pose proof (Z.div_mod (x - 30) 80 ltac:(lia)) as Hdx.
    pose proof (Z.mod_pos_bound (x - 30) 80 ltac:(lia)) as Hmx.
    set (r := (y - 30) / 80) in *. set (c := (x - 30) / 80) in *.
    assert (Hr : 0 <= r <= 8) by lia. assert (Hc : 0 <= c <= 8) by lia.
    assert (Hr8 : r = 8 <-> y = 670) by lia.
    assert (Hc8 : c = 8 <-> x = 670) by lia.
    assert (Hout : Inside r c = false <-> x = 670 \/ y = 670).
    { rewrite <- not_true_iff_false, Inside_bounds. lia. }
    split_and!; try done; try lia.
    intros b Hwf Hins.
    apply (PieceAt_out b r c Hwf). apply Hout in Hins. lia.
Qed.

(** * Legal moves read on the board they were generated from *)

(** Jumps keep the moving piece on rows of one parity and take pieces from
    rows of the other. *)
Definition level (rc : Coordinate) : Z := rc.1 mod 2.

Lemma level_land (p : cell) (f : Coordinate) (d : Z * Z) :
  d ∈ _Directions p -> level (land f d) = level f.
Proof.
  intros Hd%Directions_unit. unfold level, land. cbn [fst].
  rewrite (Z.mul_comm 2). apply Z.mod_add. lia.
Qed.

Lemma level_mid (p : cell) (f : Coordinate) (d : Z * Z) :
  d ∈ _Directions p -> level (mid f d) <> level f.
Proof.
  intros Hd%Directions_unit. unfold level, mid. cbn [fst].
  destruct Hd as [[-> | ->] _].
  - pose proof (Z.mod_pos_bound f.1 2). pose proof (Z.mod_pos_bound (f.1 + -1) 2).
    pose proof (Z.div_mod f.1 2). pose proof (Z.div_mod (f.1 + -1) 2). lia.
  - pose proof (Z.mod_pos_bound f.1 2). pose proof (Z.mod_pos_bound (f.1 + 1) 2).
    pose proof (Z.div_mod f.1 2). pose proof (Z.div_mod (f.1 + 1) 2). lia.
Qed.

(** A chain of jumps, valid on the board as the enumeration rewrites it,
    read on the board [b0] it started from: every jumped square holds an
    opponent piece there, and every landing square is empty there or is the
    start square [s]. *)
Lemma chain_ok_origin (side : Side) (b0 : Board) (s : Coordinate) (ds : list (Z * Z)) :
  wf_board b0 ->
  forall b f p cs,
    wf_board b -> on_board f -> level f = level s ->
    (cell_at b0 f = Vacant \/ f = s) ->
    (forall rc, on_board rc -> level rc <> level s -> rc ∉ cs ->
                cell_at b rc = cell_at b0 rc) ->
    (forall rc, on_board rc -> level rc = level s -> cell_at b rc = Vacant ->
                cell_at b0 rc = Vacant \/ rc = s) ->
    chain_ok side b f p cs ds ->
    Forall (fun m => cell_at b0 m ∈ _Opponents side) (jumped f ds) /\
    Forall (fun l => cell_at b0 l = Vacant \/ l = s) (landings f ds).
Proof.
  intros Hwf0. induction ds as [|d ds IH]; intros b f p cs Hwf Hf Hlev Hhere Hodd Heven Hok.
  { split; constructor. }
  destruct Hok as (Hd & Hj & Hfresh & Hok).
  apply can_jump_spec in Hj as (Hl & Hlv & Hm & Hmo).
  pose proof (level_land p f d Hd) as Hll.
  pose proof (level_mid p f d Hd) as Hlm.
  assert (Hm0 : cell_at b0 (mid f d) ∈ _Opponents side).
  { rewrite <- Hodd; [done|done|congruence|done]. }
  assert (Hl0 : cell_at b0 (land f d) = Vacant \/ land f d = s).
  { apply Heven; [done|congruence|done]. }
  destruct (IH (jump_board b side f d p) (land f d)
               (landed_piece side (land f d).1 p) (cs ++ [mid f d])) as [IH1 IH2].
  - unfold jump_board. by repeat apply set_at_wf.
  - done.
  - congruence.
  - done.
  - intros rc Hrc Hlrc Hnin. apply not_elem_of_app in Hnin as [Hnin Hnm].
    apply not_elem_of_cons in Hnm as [Hnm _].
    unfold jump_board.
    rewrite !cell_at_set by (done || by repeat apply set_at_wf).
    rewrite !decide_False; [by apply Hodd| | |]; intros <-; congruence.
  - intros rc Hrc Hlrc Hvac. unfold jump_board in Hvac.
    rewrite !cell_at_set in Hvac by (done || by repeat apply set_at_wf).
    destruct (decide (land f d = rc)) as [<-|Hne1]; [done|].
    destruct (decide (mid f d = rc)) as [<-|Hne2]; [congruence|].
    destruct (decide (f = rc)) as [<-|Hne3]; [done|].
    by apply Heven.
  - done.
  - cbn [jumped landings]. split; by constructor.
Qed.

Lemma landings_jumped_length (f : Coordinate) (ds : list (Z * Z)) :
  length (landings f ds) = length (jumped f ds).
Proof.
  revert f. induction ds as [|d ds IH]; intros f; [done|].
  cbn [landings jumped length]. by rewrite IH.
Qed.

(** What every move of [legal_moves] looks like on the board itself. *)
Definition move_facts (b : Board) (side : Side) (mv : Move) : Prop :=
  let start := StartingMoveLocation mv in
  on_board start /\ owned side (cell_at b start) = true /\
  head (path mv) = Some start /\
  last (path mv) = Some (TargetingMoveLocation mv) /\
  length (path mv) = (if is_capture mv then S (length (captured mv)) else 2%nat) /\
  (is_capture mv = true <-> captured mv <> []) /\
  Forall (fun l => on_board l /\ (cell_at b l = Vacant \/ l = start)) (tail (path mv)) /\
  Forall (fun m => on_board m /\ cell_at b m ∈ _Opponents side) (captured mv) /\
  NoDup (captured mv).

Lemma legal_moves_facts (b : Board) (side : Side) (mv : Move) :
  wf_board b -> mv ∈ legal_moves b side -> move_facts b side mv.
Proof.
  intros Hwf Hmv. apply legal_moves_cases in Hmv as [Hmv|Hmv].
  - apply elem_of_all_captures in Hmv
      as (Hrc & Ho & ds & Hpath & Hcap & Hok & _ & _ & Htgt & Hflag & Hne); [|done].
    cbn [app] in Hpath, Hcap.
    destruct (chain_ok_on_board _ _ _ _ _ _ Hok) as [Hlands Hjumped].
    destruct (chain_ok_end _ _ _ _ _ _ Hok Hrc) as (_ & _ & Hlast).
    assert (Horigin :
      Forall (fun m => cell_at b m ∈ _Opponents side)
             (jumped (StartingMoveLocation mv) ds) /\
      Forall (fun l => cell_at b l = Vacant \/ l = StartingMoveLocation mv)
             (landings (StartingMoveLocation mv) ds)).
    { apply (chain_ok_origin side b (StartingMoveLocation mv) ds Hwf b
               (StartingMoveLocation mv) (cell_at b (StartingMoveLocation mv)) []);
        try done.
      - by right.
      - intros rc _ _ Hv. by left. }
    destruct Horigin as [Hopp Hvac].
    unfold move_facts. rewrite Hpath, Hcap, Htgt, Hflag. cbn [head tail length].
    split_and!; try done.
    + by rewrite landings_jumped_length.
    + by rewrite <- Hcap.
    + apply Forall_and. by split.
    + apply Forall_and. by split.
    + apply (chain_ok_NoDup _ _ _ _ [] _ Hok). constructor.
  - apply elem_of_all_quiets in Hmv as (rc & d & Hrc & Ho & Hd & Hq).
    unfold quiet_from in Hq.
    destruct (Inside (mid rc d).1 (mid rc d).2) eqn:Hin; [|done].
    destruct (bool_decide (cell_at b (mid rc d) = Vacant)) eqn:Hv; [|done].
    apply bool_decide_eq_true in Hv.
    injection Hq as <-. unfold move_facts. simpl.
    split_and!; try done.
    + constructor; [|constructor]. split; [done|by left].
    + constructor.
Qed.

(** X12. Every move [AllLegalMoves] returns on an 8x8 board, read on that
    board: it starts on a piece of the side to move; its path begins with
    the start square and ends with the target square; it has one square
    more than the captured list when it is a capture and two squares when
    it is a quiet step; it is flagged as a capture exactly when it captures
    something; every square of the path after the first is on the
    board and empty, or is the start square again; every captured square
    is on the board and holds an opponent piece; no square is captured
    twice. *)
Theorem legal_moves_on_the_board (b : Board) (side : Side) :
  wf_board b ->
  exists moves,
    AllLegalMoves b side = Ret (moves, b) /\
    forall mv, mv ∈ moves ->
      let start := StartingMoveLocation mv in
      Inside start.1 start.2 = true /\
      (exists p, PieceAt b start = Ret p /\ p ∈ side_targets side) /\
      head (path mv) = Some start /\
      last (path mv) = Some (TargetingMoveLocation mv) /\
      length (path mv) = (if is_capture mv then S (length (captured mv)) else 2%nat) /\
      (is_capture mv = true <-> captured mv <> []) /\
      Forall (fun l => Inside l.1 l.2 = true /\
                       (PieceAt b l = Ret Vacant \/ l = start)) (tail (path mv)) /\
      Forall (fun m => Inside m.1 m.2 = true /\
                       exists q, PieceAt b m = Ret q /\ q ∈ _Opponents side)
             (captured mv) /\
      NoDup (captured mv).
Proof.
  intros Hwf. exists (legal_moves b side). split; [by apply AllLegalMoves_wf|].
  intros mv Hmv start.
  destruct (legal_moves_facts b side mv Hwf Hmv)
    as (Hs & Ho & Hhead & Hlast & Hlen & Hflag & Hpath & Hcap & Hnd).
  split_and!; try done.
  - exists (cell_at b start). split; [by apply PieceAt_wf|].
    by apply bool_decide_eq_true in Ho.
  - eapply Forall_impl; [exact Hpath|]. intros l [Hl Hv]. split; [done|].
    destruct Hv as [Hv|Hv]; [left|by right]. rewrite PieceAt_wf by done. by f_equal.
  - eapply Forall_impl; [exact Hcap|]. intros m [Hm Hq]. split; [done|].
    exists (cell_at b m). split; [by apply PieceAt_wf|done].
Qed.

Lemma legal_moves_on_the_board_witness :
  wf_board ring_board /\
  exists moves,
    AllLegalMoves ring_board White = Ret (moves, ring_board) /\
    forall mv, mv ∈ moves ->
      let start := StartingMoveLocation mv in
      Inside start.1 start.2 = true /\
      (exists p, PieceAt ring_board start = Ret p /\ p ∈ side_targets White) /\
      head (path mv) = Some start /\
      last (path mv) = Some (TargetingMoveLocation mv) /\
      length (path mv) = (if is_capture mv then S (length (captured mv)) else 2%nat) /\
      (is_capture mv = true <-> captured mv <> []) /\
      Forall (fun l => Inside l.1 l.2 = true /\
                       (PieceAt ring_board l = Ret Vacant \/ l = start)) (tail (path mv)) /\
      Forall (fun m => Inside m.1 m.2 = true /\
                       exists q, PieceAt ring_board m = Ret q /\ q ∈ _Opponents White)
             (captured mv) /\
      NoDup (captured mv).
Proof.
  split; [exact ring_board_wf|].
  apply (legal_moves_on_the_board ring_board White). exact ring_board_wf.
Defined.

(** * Counting pieces across a move *)

Definition other (side : Side) : Side :=
  match side with White => Black | Black => White end.

(** The number of squares of the board that hold a piece of [side]. *)
Definition pieces (b : Board) (side : Side) : nat := length (side_squares b side).

Lemma Opponents_owned (side : Side) (p : cell) :
  p ∈ _Opponents side <-> owned (other side) p = true.
Proof. unfold owned. rewrite bool_decide_eq_true. by destruct side. Qed.

Lemma owned_other (side : Side) (p : cell) :
  owned side p = true -> owned (other side) p = false.
Proof. by destruct side, p. Qed.

Lemma owned_promoted (side : Side) (p : cell) (r : Z) :
  owned side (promoted p r) = owned side p.
Proof.
  unfold promoted.
  destruct p, side; cbn [bool_decide decide_rel cell_eq_dec andb]; try done;
    repeat case_match; done.
Qed.

Lemma NoDup_side_squares (b : Board) (side : Side) : NoDup (side_squares b side).
Proof. apply NoDup_filter, NoDup_all_squares. Qed.

(** The target of a legal move is on the board, and empty unless the move
    comes back to its start. *)
Lemma move_facts_target (b : Board) (side : Side) (mv : Move) :
  move_facts b side mv ->
  on_board (TargetingMoveLocation mv) /\
  (cell_at b (TargetingMoveLocation mv) = Vacant \/
   TargetingMoveLocation mv = StartingMoveLocation mv).
Proof.
  intros (_ & _ & Hhead & Hlast & Hlen & Hflag & Hpath & _).
  destruct (path mv) as [|s [|x rest]] eqn:Hp.
  - done.
  - simpl in Hlen. destruct (is_capture mv); [|done].
    destruct (captured mv); [|done]. by destruct (proj1 Hflag eq_refl).
  - cbn [tail] in Hpath. rewrite Forall_forall in Hpath. apply Hpath.
    change (last (s :: x :: rest)) with (last (x :: rest)) in Hlast.
    rewrite last_lookup in Hlast. by eapply list_elem_of_lookup_2.
Qed.

Lemma apply_move_pieces (b : Board) (side : Side) (mv : Move) :
  wf_board b -> mv ∈ legal_moves b side ->
  pieces (apply_move b mv) side = pieces b side /\
  (pieces (apply_move b mv) (other side) + length (captured mv))%nat =
  pieces b (other side).
Proof.
  intros Hwf Hmv.
  pose proof (legal_moves_facts b side mv Hwf Hmv) as Hfacts.
  destruct (move_facts_target b side mv Hfacts) as [Ht Htv].
  destruct Hfacts as (Hs & Ho & _ & _ & _ & _ & _ & Hcap & Hnd).
  assert (Hon : move_on_board mv).
  { split_and!; [done|done|]. eapply Forall_impl; [exact Hcap|]. by intros m [? _]. }
  set (s := StartingMoveLocation mv) in *. set (t := TargetingMoveLocation mv) in *.
  rewrite Forall_forall in Hcap.
  assert (Hcell : forall rc, on_board rc ->
            cell_at (apply_move b mv) rc =
            if decide (rc = t) then promoted (cell_at b s) t.1
            else if decide (rc = s \/ rc ∈ captured mv) then Vacant
                 else cell_at b rc).
  { intros rc Hrc. by apply cell_at_apply_move. }
  assert (HsC : s ∉ captured mv).
  { intros Hin. destruct (Hcap s Hin) as [_ Hopp].
    apply Opponents_owned in Hopp. rewrite (owned_other side _ Ho) in Hopp. done. }
  assert (HtC : t ∉ captured mv).
  { intros Hin. destruct (Hcap t Hin) as [_ Hopp]. apply Opponents_owned in Hopp.
    destruct Htv as [Hv| ->]; [by rewrite Hv in Hopp; destruct side|].
    fold s in Hopp. rewrite (owned_other side _ Ho) in Hopp. done. }
  split.
  - (* the mover keeps all its pieces *)
    unfold pieces.
    assert (Hmem : forall rc, rc ∈ side_squares (apply_move b mv) side <->
              on_board rc /\ (rc = t \/ rc <> s /\ owned side (cell_at b rc) = true)).
    { intros rc. rewrite elem_of_side_squares. split.
      - intros [Hrc Hown]. split; [done|]. rewrite Hcell in Hown by done.
        destruct (decide (rc = t)); [by left|]. right.
        destruct (decide (rc = s \/ rc ∈ captured mv)) as [Hor|Hnor];
          [by destruct side|]. split; [tauto|done].
      - intros [Hrc Hcase]. split; [done|]. rewrite Hcell by done.
        destruct (decide (rc = t)) as [->|Hne]; [by rewrite owned_promoted|].
        destruct Hcase as [?|[Hns Hown]]; [done|].
        rewrite decide_False; [done|]. intros [?|Hin]; [done|].
        destruct (Hcap rc Hin) as [_ Hopp]. apply Opponents_owned in Hopp.
        rewrite (owned_other side _ Hown) in Hopp. done. }
    destruct (decide (t = s)) as [Hts|Hts].
    + apply Permutation_length, NoDup_Permutation; [apply NoDup_side_squares..|].
      intros rc. rewrite Hmem, elem_of_side_squares. split.
      * intros [Hrc [->|[_ Hown]]]; [by rewrite Hts|done].
      * intros [Hrc Hown]. split; [done|].
        destruct (decide (rc = s)) as [->|Hne]; [by left|by right].
    + destruct Htv as [Hv|Heq]; [|done].
      assert (Hperm : t :: side_squares b side ≡ₚ s :: side_squares (apply_move b mv) side).
      { apply NoDup_Permutation.
        - constructor; [|apply NoDup_side_squares].
          rewrite elem_of_side_squares, Hv. intros [_ Hown]. by destruct side.
        - constructor; [|apply NoDup_side_squares].
          rewrite Hmem. intros [_ [?|[? _]]]; congruence.
        - intros rc. rewrite !elem_of_cons, Hmem, elem_of_side_squares. split.
          + intros [->|[Hrc Hown]]; [right; split; [done|by left]|].
            destruct (decide (rc = s)) as [->|Hne]; [by left|].
            right. split; [done|]. by right.
          + intros [->|[Hrc [->|[Hne Hown]]]]; [by right|by left|by right]. }
      apply Permutation_length in Hperm. simpl in Hperm. lia.
  - (* the opponent loses the captured pieces and no other *)
    unfold pieces.
    assert (Hmem : forall rc, rc ∈ side_squares (apply_move b mv) (other side) <->
              rc ∈ side_squares b (other side) /\ rc ∉ captured mv).
    { intros rc. rewrite !elem_of_side_squares. split.
      - intros [Hrc Hown]. rewrite Hcell in Hown by done.
        destruct (decide (rc = t)) as [->|Hne].
        { rewrite owned_promoted, (owned_other side _ Ho) in Hown. done. }
        destruct (decide (rc = s \/ rc ∈ captured mv)) as [Hor|Hnor];
          [by destruct side|]. split; [done|tauto].
      - intros [[Hrc Hown] Hnin]. split; [done|]. rewrite Hcell by done.
        destruct (decide (rc = t)) as [->|Hne].
        { exfalso. destruct Htv as [Hv|Heq].
          - rewrite Hv in Hown. by destruct side.
          - rewrite Heq in Hown. rewrite (owned_other side _ Ho) in Hown. done. }
        rewrite decide_False; [done|]. intros [->|?]; [|done].
        rewrite (owned_other side _ Ho) in Hown. done. }
    assert (Hperm : side_squares b (other side) ≡ₚ
                    side_squares (apply_move b mv) (other side) ++ captured mv).
    { apply NoDup_Permutation.
      - apply NoDup_side_squares.
      - apply NoDup_app. split_and!; [apply NoDup_side_squares| |done].
        intros rc Hin. by apply Hmem in Hin as [_ ?].
      - intros rc. rewrite elem_of_app, Hmem. split.
        + intros Hin. destruct (decide (rc ∈ captured mv)); [by right|by left].
        + intros [[? _]|Hin]; [done|].
          destruct (Hcap rc Hin) as [Hrc Hopp]. apply Opponents_owned in Hopp.
          by apply elem_of_side_squares. }
    apply Permutation_length in Hperm. rewrite length_app in Hperm. lia.
Qed.

(** X13. Applying a move [AllLegalMoves] returned, on the board it was
    returned for, never fails, gives an 8x8 board, leaves the mover as many
    pieces as before, and takes from the opponent exactly as many pieces as
    the move lists as captured. *)
Theorem legal_move_piece_count (b : Board) (side : Side) :
  wf_board b ->
  exists moves,
    AllLegalMoves b side = Ret (moves, b) /\
    forall mv, mv ∈ moves ->
      exists b',
        ApplyMove b mv = Ret b' /\ wf_board b' /\
        pieces b' side = pieces b side /\
        (pieces b' (other side) + length (captured mv))%nat = pieces b (other side).
Proof.
  intros Hwf. exists (legal_moves b side). split; [by apply AllLegalMoves_wf|].
  intros mv Hmv.
  pose proof (legal_moves_shape b side mv Hwf Hmv) as [Hon _].
  destruct (ApplyMove_wf b mv Hwf Hon) as [Hrun Hwf'].
  exists (apply_move b mv). split; [done|]. split; [done|].
  by apply apply_move_pieces.
Qed.

Lemma legal_move_piece_count_witness :
  wf_board ring_board /\
  exists moves,
    AllLegalMoves ring_board White = Ret (moves, ring_board) /\
    forall mv, mv ∈ moves ->
      exists b',
        ApplyMove ring_board mv = Ret b' /\ wf_board b' /\
        pieces b' White = pieces ring_board White /\
        (pieces b' (other White) + length (captured mv))%nat =
        pieces ring_board (other White).
Proof.
  split; [exact ring_board_wf|].
  apply (legal_move_piece_count ring_board White). exact ring_board_wf.
Defined.

(** * The move the search returns is a legal move *)

Lemma bindM_Ret {A B} (m : M A) (k : A -> M B) (w w' : World) (b : B) :
  bindM m k w = Ret (b, w') ->
  exists a w1, m w = Ret (a, w1) /\ k a w1 = Ret (b, w').
Proof.
  unfold bindM. destruct (m w) as [[a w1]|e]; [|done]. intros H. by exists a, w1.
Qed.

Lemma retM_Ret {A} (a b : A) (w w' : World) :
  retM a w = Ret (b, w') -> b = a /\ w' = w.
Proof. unfold retM. by intros [= -> ->]. Qed.

(** Whatever a run of a computation with specification [P] returns
    satisfies [P]. *)
Lemma yields_Ret {A} (m : M A) (P : A -> Prop) (w w' : World) (a : A) :
  yields m P -> m w = Ret (a, w') -> P a.
Proof.
  intros Hm Hrun. destruct (Hm w) as (a0 & w0 & Hrun0 & _ & Ha).
  rewrite Hrun in Hrun0. by injection Hrun0 as -> ->.
Qed.

Section Chosen.

Variable clock : nat -> Q.
Variable self : SearchToolBox.
Variable deadline : Q.

(** The move the root loop ends with is the one it started with or one of
    the moves it was given. *)
Lemma root_loop_member (maximizing : bool) (d : nat) (board : Board)
    (moves : list Move) :
  forall idx best_move best_score alpha beta w r w',
    root_loop clock self deadline maximizing d board moves idx
              best_move best_score alpha beta w = Ret (r, w') ->
    r.1 = best_move \/ exists m, m ∈ moves /\ r.1 = Some m.
Proof.
  induction moves as [|m rest IH]; intros idx bm bs a be w r w' H.
  { apply retM_Ret in H as [-> _]. by left. }
  cbn [root_loop] in H.
  apply bindM_Ret in H as (clone & w1 & _ & H).
  apply bindM_Ret in H as ([[[bm1 bs1] a1] be1] & w2 & Hstep & H).
  apply bindM_Ret in H as (t & w3 & _ & H).
  assert (Hbm1 : bm1 = bm \/ bm1 = Some m).
  { destruct maximizing.
    - apply bindM_Ret in Hstep as ([score bd'] & w4 & _ & Hstep).
      apply bindM_Ret in Hstep as ([bm2 bs2] & w5 & Hsel & Hstep).
      apply retM_Ret in Hstep as [[= -> -> -> ->] _].
      destruct (score >? bs).
      + apply bindM_Ret in Hsel as (? & ? & _ & Hsel).
        apply retM_Ret in Hsel as [[= -> ->] _]. by right.
      + apply retM_Ret in Hsel as [[= -> ->] _]. by left.
    - apply bindM_Ret in Hstep as ([score bd'] & w4 & _ & Hstep).
      apply bindM_Ret in Hstep as ([bm2 bs2] & w5 & Hsel & Hstep).
      apply retM_Ret in Hstep as [[= -> -> -> ->] _].
      destruct (score <? bs).
      + apply bindM_Ret in Hsel as (? & ? & _ & Hsel).
        apply retM_Ret in Hsel as [[= -> ->] _]. by right.
      + apply retM_Ret in Hsel as [[= -> ->] _]. by left. }
  destruct (Qgtb t deadline).
  - apply retM_Ret in H as [-> _]. cbn [fst].
    destruct Hbm1 as [->| ->]; [by left|]. right. exists m. split; [left|done].
  - apply IH in H as [Hr|(m' & Hin & Hr)].
    + rewrite Hr. destruct Hbm1 as [->| ->]; [by left|].
      right. exists m. split; [left|done].
    + right. exists m'. split; [by right|done].
Qed.

(** The move of a pass of [_SearchDepth], when there is one, is among the
    legal moves of the side. *)
Lemma SearchDepth_member (board : Board) (side : Side) (depth : nat)
    (w w' : World) (r : option Move * option Z * Board) :
  wf_board board ->
  _SearchDepth clock self deadline board side depth w = Ret (r, w') ->
  forall m, r.1.1 = Some m -> m ∈ legal_moves board side.
Proof.
  intros Hwf H m Hm. unfold _SearchDepth in H.
  apply bindM_Ret in H as (start & w1 & _ & H).
  apply bindM_Ret in H as ([moves b1] & w2 & Hmoves & H).
  unfold lift in Hmoves. rewrite AllLegalMoves_wf in Hmoves by done.
  injection Hmoves as <- <- <-.
  pose proof (legal_moves_on_board board side Hwf) as Hon.
  destruct (legal_moves board side) as [|m0 ms0] eqn:Hms.
  { apply retM_Ret in H as [-> _]. done. }
  rewrite <- Hms in *.
  apply bindM_Ret in H as (ordered & w3 & Hord & H).
  apply (yields_Ret _ _ _ _ _ (OrderMoves_spec self board side _ Hwf Hon)) in Hord
    as [Hperm _].
  apply bindM_Ret in H as ([bm bs] & w4 & Hloop & H).
  apply bindM_Ret in H as (t & w5 & _ & H).
  apply bindM_Ret in H as (? & w6 & _ & H).
  apply retM_Ret in H as [-> _]. cbn [fst] in Hm. subst bm.
  apply root_loop_member in Hloop as [Hnone|(m' & Hin & Heq)]; [done|].
  cbn [fst] in Heq. injection Heq as ->. by rewrite <- Hperm.
Qed.

Lemma attempts_member (board : Board) (side : Side) (depths : list Z) (w : World)
    (a : Attempt) (m : Move) :
  wf_board board ->
  a ∈ attempts clock self deadline board side depths w ->
  at_move a = Some m -> m ∈ legal_moves board side.
Proof.
  intros Hwf. revert w. induction depths as [|depth rest IH]; intros w; cbn [attempts].
  { by intros ?%elem_of_nil. }
  destruct (_SearchDepth clock self deadline board side (Z.to_nat depth) w)
    as [[[[mv s] b] w1]|e] eqn:Hrun; [|by intros ?%elem_of_nil].
  intros [->|Hin]%elem_of_cons Hm.
  - cbn [at_move] in Hm. by apply (SearchDepth_member _ _ _ _ _ _ Hwf Hrun).
  - by eapply IH.
Qed.

End Chosen.

(** [ChooseMove] on an 8x8 board: it returns, hands the board back, leaves
    a zero [MaxFringeSize], and its result is a legal move of the side, or
    None exactly when there is none. *)
Lemma ChooseMove_result (clock : nat -> Q) (self : SearchToolBox)
    (float_add : Q -> Z -> Q) (board : Board) (side : Side) (SecondsBudget PlyLimit : Z) (w : World) :
  wf_board board ->
  exists result w',
    ChooseMove clock self float_add board side SecondsBudget PlyLimit w
      = Ret ((result, board), w') /\
    MaxFringeSize (Analytics w') = 0 /\
    (forall m, result = Some m -> m ∈ legal_moves board side) /\
    (result = None <-> legal_moves board side = []).
Proof.
  intros Hwf.
  destruct (ChooseMove_runs clock self float_add board side SecondsBudget PlyLimit w Hwf)
    as ([result b] & w' & Hrun & Hb & Hzero & Hres).
  cbn [fst snd] in Hb, Hres. subst b.
  exists result, w'. split; [exact Hrun|]. split; [exact Hzero|].
  set (deadline := (float_add (clock (ticks w)) (Z.max 1 SecondsBudget))) in *.
  set (atts := attempts clock self deadline board side
                        (range 1 (Z.max 1 PlyLimit + 1))
                        (mkWorld fresh_analytics (S (ticks w)))) in *.
  assert (Hmem : forall m, result = Some m -> m ∈ legal_moves board side).
  { intros m ->.
    destruct (last (omap at_move (completed_prefix atts))) as [m'|] eqn:Hlast.
    - injection Hres as Heq. subst m'.
      rewrite last_lookup in Hlast. apply list_elem_of_lookup_2 in Hlast.
      apply list_elem_of_omap in Hlast as (a & Ha & Hm).
      apply elem_of_completed_prefix in Ha as [Ha _].
      by apply (attempts_member clock self deadline board side _ _ a m Hwf Ha).
    - destruct (legal_moves board side) as [|m0 ms]; [done|].
      injection Hres as Heq. subst m0. left. }
  split; [exact Hmem|]. split.
  - intros ->. destruct (last (omap at_move (completed_prefix atts))); [done|].
    by destruct (legal_moves board side).
  - intros Hnil. destruct result as [m|]; [|done].
    specialize (Hmem m eq_refl). rewrite Hnil in Hmem. by apply elem_of_nil in Hmem.
Qed.

(** X14. On an 8x8 board, whatever the clock, the mode, the budget and the
    ply limit, [ChooseMove] returns one of the moves [AllLegalMoves] gives
    for the side, and returns None only when that list is empty. *)
Theorem ChooseMove_returns_legal_move (clock : nat -> Q) (self : SearchToolBox)
    (float_add : Q -> Z -> Q) (board : Board) (side : Side) (SecondsBudget PlyLimit : Z) (w : World) :
  wf_board board ->
  exists moves result w',
    AllLegalMoves board side = Ret (moves, board) /\
    ChooseMove clock self float_add board side SecondsBudget PlyLimit w
      = Ret ((result, board), w') /\
    (forall m, result = Some m -> m ∈ moves) /\
    (result = None <-> moves = []).
Proof.
  intros Hwf.
  destruct (ChooseMove_result clock self float_add board side SecondsBudget PlyLimit w Hwf)
    as (result & w' & Hrun & _ & Hmem & Hnone).
  exists (legal_moves board side), result, w'.
  split; [by apply AllLegalMoves_wf|]. by split_and!.
Qed.

Lemma ChooseMove_returns_legal_move_witness :
  wf_board initial_board /\
  exists moves result w',
    AllLegalMoves initial_board Black = Ret (moves, initial_board) /\
    ChooseMove late_clock (SearchToolBox_init "alpha-beta") exact_sum initial_board Black 1 3
               fresh_world
      = Ret ((result, initial_board), w') /\
    (forall m, result = Some m -> m ∈ moves) /\
    (result = None <-> moves = []).
Proof.
  split; [exact initial_board_wf|].
  apply (ChooseMove_returns_legal_move late_clock (SearchToolBox_init "alpha-beta") exact_sum
           initial_board Black 1 3 fresh_world).
  exact initial_board_wf.
Defined.

(** * The analytics counters

    What a search does to the counters of the analytics record, read off
    any run that returns. [counts_ok k w w'] relates the world before and
    the world after: clock readings are only consumed, no counter goes
    down, the cut counter grows by at most [k] more than the node counter,
    and a counter the mode does not use stays where it was. *)

Section Counters.

Variable clock : nat -> Q.
Variable self : SearchToolBox.

Definition counts_ok (k : Z) (w w' : World) : Prop :=
  let a := Analytics w in
  let a' := Analytics w' in
  (ticks w <= ticks w')%nat /\
  NodesExpanded a <= NodesExpanded a' /\
  AlphaBetaCuts a <= AlphaBetaCuts a' /\
  AlphaBetaCuts a' - AlphaBetaCuts a <= NodesExpanded a' - NodesExpanded a + k /\
  (UseAlphaBeta self = false -> AlphaBetaCuts a' = AlphaBetaCuts a) /\
  OrderingComparisons a <= OrderingComparisons a' /\
  (UseOrdering self = false -> OrderingComparisons a' = OrderingComparisons a) /\
  OrderingGains a <= OrderingGains a' /\
  (monotone clock -> ElapsedMs a <= ElapsedMs a').

Definition steps {A} (k : Z) (m : M A) : Prop :=
  forall w a w', m w = Ret (a, w') -> counts_ok k w w'.

Lemma counts_ok_refl (w : World) : counts_ok 0 w w.
Proof. unfold counts_ok. split_and!; try done; lia. Qed.

Lemma counts_ok_trans (k1 k2 : Z) (w1 w2 w3 : World) :
  counts_ok k1 w1 w2 -> counts_ok k2 w2 w3 -> counts_ok (k1 + k2) w1 w3.
Proof.
  unfold counts_ok. cbv zeta.
  intros (H1 & H2 & H3 & H4 & H5 & H6 & H7 & H8 & H9)
         (G1 & G2 & G3 & G4 & G5 & G6 & G7 & G8 & G9).
  split_and!; try lia.
  - intros HAB. rewrite (G5 HAB). by apply H5.
  - intros HO. rewrite (G7 HO). by apply H7.
  - intros Hm. specialize (H9 Hm). specialize (G9 Hm). lia.
Qed.

Lemma counts_ok_weaken (k k' : Z) (w w' : World) :
  k <= k' -> counts_ok k w w' -> counts_ok k' w w'.
Proof.
  unfold counts_ok. cbv zeta. intros Hk (H1 & H2 & H3 & H4 & H5).
  split_and!; try tauto; lia.
Qed.

Lemma steps_weaken {A} (k k' : Z) (m : M A) : k <= k' -> steps k m -> steps k' m.
Proof. intros Hk Hm w a w' Hrun. eapply counts_ok_weaken; [exact Hk|]. by eapply Hm. Qed.

Lemma steps_ret {A} (a : A) : steps 0 (retM a).
Proof. intros w b w' [_ ->]%retM_Ret. apply counts_ok_refl. Qed.

Lemma steps_lift {A} (o : outcome A) : steps 0 (lift o).
Proof.
  intros w a w'. unfold lift. destruct o; [|done].
  intros [= _ ->]. apply counts_ok_refl.
Qed.

Lemma steps_time : steps 0 (time clock).
Proof.
  intros w a w'. unfold time. intros [= _ <-].
  unfold counts_ok. cbn [ticks Analytics]. split_and!; try done; lia.
Qed.

Lemma steps_bind {A B} (k1 k2 k : Z) (m : M A) (f : A -> M B) :
  steps k1 m -> (forall a, steps k2 (f a)) -> k1 + k2 <= k -> steps k (bindM m f).
Proof.
  intros Hm Hf Hk w b w' Hrun.
  apply bindM_Ret in Hrun as (a & w1 & Hrun1 & Hrun2).
  eapply counts_ok_weaken; [exact Hk|].
  eapply counts_ok_trans; [by eapply Hm|by eapply Hf].
Qed.

Lemma steps_nodes : steps (-1) (update_analytics (add_NodesExpanded 1)).
Proof.
  intros w a w'. unfold update_analytics. intros [= _ <-].
  unfold counts_ok, add_NodesExpanded. cbn. split_and!; try done; lia.
Qed.

Lemma steps_cuts :
  UseAlphaBeta self = true -> steps 1 (update_analytics (add_AlphaBetaCuts 1)).
Proof.
  intros HAB w a w'. unfold update_analytics. intros [= _ <-].
  unfold counts_ok, add_AlphaBetaCuts. cbn. split_and!; try done; try lia.
  congruence.
Qed.

Lemma steps_comparisons (n : Z) :
  UseOrdering self = true -> 0 <= n ->
  steps 0 (update_analytics (add_OrderingComparisons n)).
Proof.
  intros HO Hn w a w'. unfold update_analytics. intros [= _ <-].
  unfold counts_ok, add_OrderingComparisons. cbn. split_and!; try done; try lia.
  congruence.
Qed.

Lemma steps_gains : steps 0 (update_analytics (add_OrderingGains 1)).
Proof.
  intros w a w'. unfold update_analytics. intros [= _ <-].
  unfold counts_ok, add_OrderingGains. cbn. split_and!; try done; lia.
Qed.

Lemma steps_OrderMoves (board : Board) (side : Side) (moves : list Move) :
  steps 0 (_OrderMoves self board side moves).
Proof.
  unfold _OrderMoves. destruct (UseOrdering self) eqn:HO; cbn [negb].
  2:{ apply steps_ret. }
  apply (steps_bind 0 0); [apply steps_lift| |lia]. intros scored.
  apply (steps_bind 0 0); [apply steps_comparisons; [done|lia]| |lia].
  intros _. apply steps_ret.
Qed.

Variable deadline : Q.

Lemma steps_static_value (bd : Board) : steps 0 (static_value bd).
Proof.
  unfold static_value.
  apply (steps_bind 0 0); [apply steps_lift| |lia]. intros h. apply steps_ret.
Qed.

(** A loop over the children counts at most one cut of its own. *)
Lemma steps_max_loop child :
  (forall bd a be, steps 0 (child bd a be)) ->
  forall ms bd best a be, steps 1 (max_loop self child bd ms best a be).
Proof.
  intros Hchild. induction ms as [|m ms IH]; intros bd best a be.
  { cbn [max_loop]. eapply steps_weaken; [|apply steps_ret]. lia. }
  cbn [max_loop].
  apply (steps_bind 0 1); [apply steps_lift| |lia]. intros clone.
  apply (steps_bind 0 1); [apply Hchild| |lia]. intros [val bd'].
  destruct (UseAlphaBeta self) eqn:HAB; cbn [andb]; [|apply IH].
  destruct (Z.max a (Z.max best val) >=? be); [|apply IH].
  apply (steps_bind 1 0); [by apply steps_cuts| |lia]. intros _. apply steps_ret.
Qed.

Lemma steps_min_loop child :
  (forall bd a be, steps 0 (child bd a be)) ->
  forall ms bd best a be, steps 1 (min_loop self child bd ms best a be).
Proof.
  intros Hchild. induction ms as [|m ms IH]; intros bd best a be.
  { cbn [min_loop]. eapply steps_weaken; [|apply steps_ret]. lia. }
  cbn [min_loop].
  apply (steps_bind 0 1); [apply steps_lift| |lia]. intros clone.
  apply (steps_bind 0 1); [apply Hchild| |lia]. intros [val bd'].
  destruct (UseAlphaBeta self) eqn:HAB; cbn [andb]; [|apply IH].
  destruct (a >=? Z.min be (Z.min best val)); [|apply IH].
  apply (steps_bind 1 0); [by apply steps_cuts| |lia]. intros _. apply steps_ret.
Qed.

(** A node counts itself before it can count a cut. *)
Lemma steps_node (d : nat) :
  (forall bd a be, steps 0 (max_value clock self deadline d bd a be)) /\
  (forall bd a be, steps 0 (min_value clock self deadline d bd a be)).
Proof.
  induction d as [|d [IHmax IHmin]].
  - split; intros bd a be.
    + rewrite max_value_eq.
      apply (steps_bind 0 0); [apply steps_time| |lia]. intros t.
      destruct (Qgtb t deadline); [apply steps_static_value|].
      apply (steps_bind (-1) 0); [apply steps_nodes| |lia]. intros _.
      apply steps_static_value.
    + rewrite min_value_eq.
      apply (steps_bind 0 0); [apply steps_time| |lia]. intros t.
      destruct (Qgtb t deadline); [apply steps_static_value|].
      apply (steps_bind (-1) 0); [apply steps_nodes| |lia]. intros _.
      apply steps_static_value.
  - split; intros bd a be.
    + rewrite max_value_eq.
      apply (steps_bind 0 0); [apply steps_time| |lia]. intros t.
      destruct (Qgtb t deadline); [apply steps_static_value|].
      apply (steps_bind (-1) 1); [apply steps_nodes| |lia]. intros _.
      apply (steps_bind 0 1); [apply steps_lift| |lia]. intros [terminal bd1].
      destruct terminal.
      { eapply steps_weaken; [|apply steps_static_value]. lia. }
      apply (steps_bind 0 1); [apply steps_lift| |lia]. intros [moves bd2].
      destruct moves as [|m0 ms0].
      { eapply steps_weaken; [|apply steps_static_value]. lia. }
      apply (steps_bind 0 1); [apply steps_OrderMoves| |lia]. intros ordered.
      apply (steps_bind 1 0); [by apply steps_max_loop| |lia]. intros best.
      apply steps_ret.
    + rewrite min_value_eq.
      apply (steps_bind 0 0); [apply steps_time| |lia]. intros t.
      destruct (Qgtb t deadline); [apply steps_static_value|].
      apply (steps_bind (-1) 1); [apply steps_nodes| |lia]. intros _.
      apply (steps_bind 0 1); [apply steps_lift| |lia]. intros [terminal bd1].
      destruct terminal.
      { eapply steps_weaken; [|apply steps_static_value]. lia. }
      apply (steps_bind 0 1); [apply steps_lift| |lia]. intros [moves bd2].
      destruct moves as [|m0 ms0].
      { eapply steps_weaken; [|apply steps_static_value]. lia. }
      apply (steps_bind 0 1); [apply steps_OrderMoves| |lia]. intros ordered.
      apply (steps_bind 1 0); [by apply steps_min_loop| |lia]. intros best.
      apply steps_ret.
Qed.

Lemma steps_root_loop (maximizing : bool) (d : nat) (board : Board) :
  forall moves idx best_move best_score alpha beta,
    steps 0 (root_loop clock self deadline maximizing d board moves idx
                       best_move best_score alpha beta).
Proof.
  destruct (steps_node d) as [Hmax Hmin].
  induction moves as [|m rest IH]; intros idx bm bs a be.
  { cbn [root_loop]. apply steps_ret. }
  cbn [root_loop].
  apply (steps_bind 0 0); [apply steps_lift| |lia]. intros clone.
  apply (steps_bind 0 0); [| |lia].
  - destruct maximizing.
    + apply (steps_bind 0 0); [apply Hmin| |lia]. intros [score bd'].
      apply (steps_bind 0 0); [| |lia].
      * destruct (score >? bs); [|apply steps_ret].
        apply (steps_bind 0 0); [| |lia].
        -- destruct (idx >? 0); [apply steps_gains|apply steps_ret].
        -- intros _. apply steps_ret.
      * intros [bm' bs']. apply steps_ret.
    + apply (steps_bind 0 0); [apply Hmax| |lia]. intros [score bd'].
      apply (steps_bind 0 0); [| |lia].
      * destruct (score <? bs); [|apply steps_ret].
        apply (steps_bind 0 0); [| |lia].
        -- destruct (idx >? 0); [apply steps_gains|apply steps_ret].
        -- intros _. apply steps_ret.
      * intros [bm' bs']. apply steps_ret.
  - intros [[[bm1 bs1] a1] be1].
    apply (steps_bind 0 0); [apply steps_time| |lia]. intros t.
    destruct (Qgtb t deadline); [apply steps_ret|apply IH].
Qed.

Lemma Qnum_nonneg (q : Q) : (0 <= q)%Q -> 0 <= Qnum q.
Proof. unfold Qle. simpl. lia. Qed.

Lemma py_int_nonneg (q : Q) : (0 <= q)%Q -> 0 <= py_int q.
Proof.
  intros Hq%Qnum_nonneg. unfold py_int. apply Z.quot_pos; lia.
Qed.

Lemma steps_SearchDepth (board : Board) (side : Side) (depth : nat) :
  steps 0 (_SearchDepth clock self deadline board side depth).
Proof.
  intros w r w' H. unfold _SearchDepth in H.
  apply bindM_Ret in H as (start & w1 & Hstart & H).
  pose proof (steps_time _ _ _ Hstart) as C1.
  unfold time in Hstart. injection Hstart as <- <-.
  apply bindM_Ret in H as ([moves b1] & w2 & Hmoves & H).
  pose proof (steps_lift _ _ _ _ Hmoves) as C2.
  destruct moves as [|m0 ms0].
  { apply retM_Ret in H as [_ ->].
    replace 0 with (0 + 0) by lia. by eapply counts_ok_trans. }
  apply bindM_Ret in H as (ordered & w3 & Hord & H).
  pose proof (steps_OrderMoves _ _ _ _ _ _ Hord) as C3.
  apply bindM_Ret in H as ([bm bs] & w4 & Hloop & H).
  pose proof (steps_root_loop _ _ _ _ _ _ _ _ _ _ _ _ Hloop) as C4.
  apply bindM_Ret in H as (t & w5 & Ht & H).
  pose proof (steps_time _ _ _ Ht) as C5.
  unfold time in Ht. injection Ht as <- <-.
  apply bindM_Ret in H as (? & w6 & Hupd & H).
  apply retM_Ret in H as [_ ->].
  unfold update_analytics in Hupd. injection Hupd as _ <-.
  assert (C : counts_ok 0 w (mkWorld (Analytics w4) (S (ticks w4)))).
  { replace 0 with (0 + (0 + (0 + (0 + 0)))) by lia.
    eapply counts_ok_trans; [exact C1|]. eapply counts_ok_trans; [exact C2|].
    eapply counts_ok_trans; [exact C3|]. eapply counts_ok_trans; [exact C4|exact C5]. }
  assert (Hticks : (ticks w <= ticks w4)%nat).
  { destruct C1 as [T1 _], C2 as [T2 _], C3 as [T3 _], C4 as [T4 _].
    cbn [ticks] in *. lia. }
  revert C. unfold counts_ok, add_ElapsedMs. cbn.
  intros (H1 & H2 & H3 & H4 & H5 & H6 & H7 & H8 & H9).
  split_and!; try done.
  intros Hmono. specialize (H9 Hmono).
  assert (0 <= py_int ((clock (ticks w4) - clock (ticks w)) * inject_Z 1000)).
  { apply py_int_nonneg. apply Qmult_le_0_compat; [|done].
    unfold Qminus. apply (proj1 (Qle_minus_iff _ _)). by apply Hmono. }
  lia.
Qed.

Lemma steps_deepening (board : Board) (side : Side) (depths : list Z) :
  forall best_move best_score,
    steps 0 (deepening clock self deadline board side depths best_move best_score).
Proof.
  revert board. induction depths as [|depth rest IH]; intros board bm bs.
  { cbn [deepening]. apply steps_ret. }
  cbn [deepening].
  apply (steps_bind 0 0); [apply steps_SearchDepth| |lia]. intros [[move score] b1].
  apply (steps_bind 0 0); [apply steps_time| |lia]. intros t.
  destruct (Qgtb t deadline); [apply steps_ret|].
  destruct move; apply IH.
Qed.

End Counters.

(** [ChooseMove] starts from a fresh analytics record; everything after
    that only counts up. *)
Lemma ChooseMove_counts (clock : nat -> Q) (self : SearchToolBox)
    (float_add : Q -> Z -> Q) (board : Board) (side : Side) (SecondsBudget PlyLimit : Z)
    (w w' : World) (r : option Move * Board) :
  ChooseMove clock self float_add board side SecondsBudget PlyLimit w = Ret (r, w') ->
  counts_ok clock self 0 (mkWorld fresh_analytics (ticks w)) w'.
Proof.
  intros H. unfold ChooseMove in H.
  apply bindM_Ret in H as (? & w1 & Hreset & H).
  unfold update_analytics in Hreset. injection Hreset as _ <-.
  revert H. generalize (mkWorld fresh_analytics (ticks w)). intros w0 H.
  assert (Hsteps : steps clock self 0
    (bindM (time clock) (fun now =>
       bindM (deepening clock self (float_add now (Z.max 1 SecondsBudget))
                        board side (range 1 (Z.max 1 PlyLimit + 1)) None None)
             (fun '(best_move, _, board) =>
                match best_move with
                | None => bindM (lift (AllLegalMoves board side))
                                (fun '(moves, board) => retM (head moves, board))
                | Some _ => retM (best_move, board)
                end)))).
  { apply (steps_bind _ _ 0 0); [apply steps_time| |lia]. intros now.
    apply (steps_bind _ _ 0 0); [apply steps_deepening| |lia]. intros [[bm bs] b1].
    destruct bm; [apply steps_ret|].
    apply (steps_bind _ _ 0 0); [apply steps_lift| |lia]. intros [moves b2].
    apply steps_ret. }
  by eapply Hsteps.
Qed.

(** X15. A counter the mode does not use is 0 after [ChooseMove]: without
    pruning no cut is ever counted, and without move ordering no ordering
    comparison. This holds on every 8x8 board, for every clock, budget and
    ply limit, and whatever the counters held before the call. *)
Theorem unused_counters_stay_zero (clock : nat -> Q) (self : SearchToolBox)
    (float_add : Q -> Z -> Q) (board : Board) (side : Side) (SecondsBudget PlyLimit : Z) (w : World) :
  wf_board board ->
  exists result w',
    ChooseMove clock self float_add board side SecondsBudget PlyLimit w
      = Ret ((result, board), w') /\
    (UseAlphaBeta self = false -> AlphaBetaCuts (Analytics w') = 0) /\
    (UseOrdering self = false -> OrderingComparisons (Analytics w') = 0).
Proof.
  intros Hwf.
  destruct (ChooseMove_runs clock self float_add board side SecondsBudget PlyLimit w Hwf)
    as ([result b] & w' & Hrun & Hb & _).
  cbn [snd] in Hb. subst b. exists result, w'. split; [exact Hrun|].
  apply ChooseMove_counts in Hrun
    as (_ & _ & _ & _ & Hcuts & _ & Hcmp & _).
  cbn [Analytics fresh_analytics AlphaBetaCuts OrderingComparisons] in Hcuts, Hcmp.
  split; [exact Hcuts|exact Hcmp].
Qed.

Lemma unused_counters_stay_zero_witness :
  wf_board initial_board /\
  exists result w',
    ChooseMove still_clock (SearchToolBox_init "minimax") exact_sum initial_board Black 1 2
               (mkWorld (mkAnalytics 9 9 9 9 9 9) 0)
      = Ret ((result, initial_board), w') /\
    (UseAlphaBeta (SearchToolBox_init "minimax") = false ->
     AlphaBetaCuts (Analytics w') = 0) /\
    (UseOrdering (SearchToolBox_init "minimax") = false ->
     OrderingComparisons (Analytics w') = 0).
Proof.
  split; [exact initial_board_wf|].
  apply (unused_counters_stay_zero still_clock (SearchToolBox_init "minimax") exact_sum
           initial_board Black 1 2 (mkWorld (mkAnalytics 9 9 9 9 9 9) 0)).
  exact initial_board_wf.
Defined.

(** X16. After [ChooseMove], on every 8x8 board and in every mode, no
    counter of the analytics record is negative and the cuts counted are
    at most the nodes expanded (a node is counted before its loop can cut);
    the elapsed time is not negative when the clock does not run
    backwards. *)
Theorem counters_after_ChooseMove (clock : nat -> Q) (self : SearchToolBox)
    (float_add : Q -> Z -> Q) (board : Board) (side : Side) (SecondsBudget PlyLimit : Z) (w : World) :
  wf_board board ->
  exists result w',
    ChooseMove clock self float_add board side SecondsBudget PlyLimit w
      = Ret ((result, board), w') /\
    0 <= AlphaBetaCuts (Analytics w') <= NodesExpanded (Analytics w') /\
    0 <= OrderingComparisons (Analytics w') /\
    0 <= OrderingGains (Analytics w') /\
    (monotone clock -> 0 <= ElapsedMs (Analytics w')).
Proof.
  intros Hwf.
  destruct (ChooseMove_runs clock self float_add board side SecondsBudget PlyLimit w Hwf)
    as ([result b] & w' & Hrun & Hb & _).
  cbn [snd] in Hb. subst b. exists result, w'. split; [exact Hrun|].
  apply ChooseMove_counts in Hrun
    as (_ & Hn & Hc & Hcn & _ & Hcmp & _ & Hg & He).
  cbn [Analytics fresh_analytics NodesExpanded AlphaBetaCuts OrderingComparisons
       OrderingGains ElapsedMs] in *.
  split_and!; try done; lia.
Qed.

Lemma counters_after_ChooseMove_witness :
  wf_board initial_board /\
  exists result w',
    ChooseMove still_clock (SearchToolBox_init "alpha-beta-ordering") exact_sum
               initial_board Black 1 2 (mkWorld (mkAnalytics 9 9 9 9 9 9) 0)
      = Ret ((result, initial_board), w') /\
    0 <= AlphaBetaCuts (Analytics w') <= NodesExpanded (Analytics w') /\
    0 <= OrderingComparisons (Analytics w') /\
    0 <= OrderingGains (Analytics w') /\
    (monotone still_clock -> 0 <= ElapsedMs (Analytics w')).
Proof.
  split; [exact initial_board_wf|].
  apply (counters_after_ChooseMove still_clock
           (SearchToolBox_init "alpha-beta-ordering") exact_sum
           initial_board Black 1 2 (mkWorld (mkAnalytics 9 9 9 9 9 9) 0)).
  exact initial_board_wf.
Defined.

(** * Move ordering *)

(** The key [_OrderMoves] sorts a move by: the evaluation of the position
    after the move, negated for White. *)
Definition order_key (board : Board) (side : Side) (m : Move) : Z :=
  if bool_decide (side = White) then - heuristic (apply_move board m)
  else heuristic (apply_move board m).

Lemma score_move_wf (board : Board) (side : Side) (m : Move) :
  wf_board board -> move_on_board m ->
  score_move board side m = Ret (order_key board side m, m).
Proof.
  intros Hwf Hm. unfold score_move, order_key. rewrite Clone_same.
  destruct (ApplyMove_wf board m Hwf Hm) as [-> Hwf']. cbn [bind].
  rewrite HeuristicScore_wf by done. done.
Qed.

Lemma score_moves_run (board : Board) (side : Side) (moves : list Move)
    (acc : list (Z * Move)) :
  wf_board board -> Forall move_on_board moves ->
  for_each (fun m scored => bind (score_move board side m)
                              (fun sm => Ret (scored ++ [sm])))
           moves acc
  = Ret (acc ++ map (fun m => (order_key board side m, m)) moves).
Proof.
  intros Hwf Hms. revert acc.
  induction Hms as [|m ms Hm Hms IH]; intros acc.
  - cbn [for_each map]. by rewrite app_nil_r.
  - cbn [for_each map]. rewrite score_move_wf by done. cbn [bind].
    rewrite IH. by rewrite <- app_assoc.
Qed.

Lemma insert_desc_elem (x y : Z * Move) (l : list (Z * Move)) :
  y ∈ insert_desc x l <-> y = x \/ y ∈ l.
Proof. by rewrite insert_desc_perm, elem_of_cons. Qed.

Lemma insert_desc_sorted (x : Z * Move) (l : list (Z * Move)) :
  StronglySorted (fun a b => a.1 >= b.1) l ->
  StronglySorted (fun a b => a.1 >= b.1) (insert_desc x l).
Proof.
  induction 1 as [|y l Hl IH Hy]; cbn [insert_desc].
  { repeat constructor. }
  destruct (Z.ltb_spec x.1 y.1) as [Hlt|Hge].
  - constructor; [done|]. apply Forall_forall. intros z Hz.
    apply insert_desc_elem in Hz as [->|Hz]; [lia|].
    rewrite Forall_forall in Hy. by apply Hy.
  - constructor; [by constructor|]. constructor; [lia|].
    eapply Forall_impl; [exact Hy|]. intros z Hz. simpl in *. lia.
Qed.

Lemma sort_desc_sorted (l : list (Z * Move)) :
  StronglySorted (fun a b => a.1 >= b.1) (sort_desc l).
Proof.
  induction l as [|x l IH]; [constructor|]. by apply insert_desc_sorted.
Qed.

(** The sort is stable: entries with the same key keep their order. *)
Lemma insert_desc_stable (v : Z) (x : Z * Move) (l : list (Z * Move)) :
  filter (fun y => y.1 = v) (insert_desc x l) = filter (fun y => y.1 = v) (x :: l).
Proof.
  induction l as [|y l IH]; [done|]. cbn [insert_desc].
  destruct (Z.ltb_spec x.1 y.1) as [Hlt|Hge]; [|done].
  rewrite (filter_cons _ y), IH, !(filter_cons _ x), (filter_cons _ y).
  destruct (decide (y.1 = v)), (decide (x.1 = v)); try done. lia.
Qed.

Lemma sort_desc_stable (v : Z) (l : list (Z * Move)) :
  filter (fun y => y.1 = v) (sort_desc l) = filter (fun y => y.1 = v) l.
Proof.
  induction l as [|x l IH]; [done|].
  cbn [sort_desc foldr]. rewrite insert_desc_stable, !filter_cons.
  fold (sort_desc l). by rewrite IH.
Qed.

Lemma OrderMoves_run (self : SearchToolBox) (board : Board) (side : Side)
    (moves : list Move) (w : World) :
  wf_board board -> Forall move_on_board moves ->
  _OrderMoves self board side moves w =
  if UseOrdering self
  then Ret (map snd (sort_desc (map (fun m => (order_key board side m, m)) moves)),
            mkWorld (add_OrderingComparisons
                       (Z.max 0 (Z.of_nat (length moves) - 1)) (Analytics w))
                    (ticks w))
  else Ret (moves, w).
Proof.
  intros Hwf Hms. unfold _OrderMoves.
  destruct (UseOrdering self); cbn [negb]; [|done].
  unfold bindM at 1. unfold lift. rewrite score_moves_run by done. cbn [app].
  unfold bindM at 1. unfold update_analytics, retM.
  do 3 f_equal. rewrite (Permutation_length (sort_desc_perm _)).
  by rewrite length_map.
Qed.

(** X17. [_OrderMoves] on an 8x8 board and moves that keep to the board.
    With ordering off it returns the list it was given and touches nothing.
    With ordering on it returns the same moves sorted by descending key,
    where the key of a move is the evaluation of the position after it,
    negated for White; moves with equal keys keep the order they came in;
    and the comparison counter grows by the number of moves less one (by 0
    for an empty list), nothing else changing. *)
Theorem OrderMoves_sorted (self : SearchToolBox) (board : Board) (side : Side)
    (moves : list Move) (w : World) :
  wf_board board -> Forall move_on_board moves ->
  exists scored ordered w',
    Forall2 (fun m sm => score_move board side m = Ret sm /\ sm.2 = m) moves scored /\
    _OrderMoves self board side moves w = Ret (ordered, w') /\
    (UseOrdering self = false -> ordered = moves /\ w' = w) /\
    (UseOrdering self = true ->
     exists sorted,
       ordered = map snd sorted /\ sorted ≡ₚ scored /\
       StronglySorted (fun a b => a.1 >= b.1) sorted /\
       (forall v, filter (fun a => a.1 = v) sorted = filter (fun a => a.1 = v) scored) /\
       w' = mkWorld (add_OrderingComparisons
                       (Z.max 0 (Z.of_nat (length moves) - 1)) (Analytics w))
                    (ticks w)).
Proof.
  intros Hwf Hms.
  set (scored := map (fun m => (order_key board side m, m)) moves).
  assert (Hscored : Forall2 (fun m sm => score_move board side m = Ret sm /\ sm.2 = m)
                            moves scored).
  { unfold scored. apply Forall2_fmap_r, Forall_Forall2_diag.
    eapply Forall_impl; [exact Hms|]. intros m Hm. split; [|done].
    by apply score_move_wf. }
  pose proof (OrderMoves_run self board side moves w Hwf Hms) as Hrun.
  fold scored in Hrun.
  destruct (UseOrdering self) eqn:HO.
  - eexists scored, _, _. split; [exact Hscored|]. split; [exact Hrun|].
    split; [done|]. intros _. exists (sort_desc scored).
    split_and!; [done|apply sort_desc_perm|apply sort_desc_sorted| |done].
    intros v. apply sort_desc_stable.
  - eexists scored, _, _. split; [exact Hscored|]. split; [exact Hrun|].
    split; [done|]. done.
Qed.

Lemma OrderMoves_sorted_witness :
  wf_board initial_board /\
  Forall move_on_board [mkMove (2, 1) (3, 0) [(2, 1); (3, 0)] false [];
                        mkMove (2, 1) (3, 2) [(2, 1); (3, 2)] false []] /\
  exists scored ordered w',
    Forall2 (fun m sm => score_move initial_board Black m = Ret sm /\ sm.2 = m)
            [mkMove (2, 1) (3, 0) [(2, 1); (3, 0)] false [];
             mkMove (2, 1) (3, 2) [(2, 1); (3, 2)] false []] scored /\
    _OrderMoves (SearchToolBox_init "alpha-beta-ordering") initial_board Black
                [mkMove (2, 1) (3, 0) [(2, 1); (3, 0)] false [];
                 mkMove (2, 1) (3, 2) [(2, 1); (3, 2)] false []] fresh_world
      = Ret (ordered, w') /\
    (UseOrdering (SearchToolBox_init "alpha-beta-ordering") = false ->
     ordered = [mkMove (2, 1) (3, 0) [(2, 1); (3, 0)] false [];
                mkMove (2, 1) (3, 2) [(2, 1); (3, 2)] false []] /\ w' = fresh_world) /\
    (UseOrdering (SearchToolBox_init "alpha-beta-ordering") = true ->
     exists sorted,
       ordered = map snd sorted /\ sorted ≡ₚ scored /\
       StronglySorted (fun a b => a.1 >= b.1) sorted /\
       (forall v, filter (fun a => a.1 = v) sorted = filter (fun a => a.1 = v) scored) /\
       w' = mkWorld (add_OrderingComparisons
                       (Z.max 0 (Z.of_nat (length
                          [mkMove (2, 1) (3, 0) [(2, 1); (3, 0)] false [];
                           mkMove (2, 1) (3, 2) [(2, 1); (3, 2)] false []]) - 1))
                       (Analytics fresh_world))
                    (ticks fresh_world)).
Proof.
  assert (Hon : Forall move_on_board
                  [mkMove (2, 1) (3, 0) [(2, 1); (3, 0)] false [];
                   mkMove (2, 1) (3, 2) [(2, 1); (3, 2)] false []]).
  { repeat constructor. }
  split; [exact initial_board_wf|]. split; [exact Hon|].
  apply (OrderMoves_sorted (SearchToolBox_init "alpha-beta-ordering") initial_board Black
           _ fresh_world); [exact initial_board_wf|exact Hon].
Defined.

(** * A pass that starts after the deadline *)

(** The world after one more clock reading. *)
Definition tick (w : World) : World := mkWorld (Analytics w) (S (ticks w)).

Section Expired.

Variable clock : nat -> Q.
Variable self : SearchToolBox.
Variable deadline : Q.

(** Every clock reading is past the deadline. *)
Definition expired : Prop := forall n, Qgtb (clock n) deadline = true.

Hypothesis too_late : expired.

Lemma max_value_expired (d : nat) (bd : Board) (a be : Z) (w : World) :
  wf_board bd ->
  max_value clock self deadline d bd a be w = Ret ((heuristic bd, bd), tick w).
Proof.
  intros Hwf. rewrite max_value_eq. unfold bindM at 1. unfold time at 1.
  rewrite too_late. unfold static_value, bindM, lift.
  by rewrite HeuristicScore_wf.
Qed.

Lemma min_value_expired (d : nat) (bd : Board) (a be : Z) (w : World) :
  wf_board bd ->
  min_value clock self deadline d bd a be w = Ret ((heuristic bd, bd), tick w).
Proof.
  intros Hwf. rewrite min_value_eq. unfold bindM at 1. unfold time at 1.
  rewrite too_late. unfold static_value, bindM, lift.
  by rewrite HeuristicScore_wf.
Qed.

(** The root loop takes the first move, polls the clock, and stops. *)
Lemma root_loop_expired (maximizing : bool) (d : nat) (board : Board)
    (m : Move) (rest : list Move) (w : World) :
  wf_board board -> move_on_board m ->
  root_loop clock self deadline maximizing d board (m :: rest) 0 None
            (if maximizing then - INF else INF) (- INF) INF w
  = Ret ((Some m, heuristic (apply_move board m)), tick (tick w)).
Proof.
  intros Hwf Hm. cbn [root_loop]. rewrite Clone_same.
  destruct (ApplyMove_wf board m Hwf Hm) as [Happ Hwf'].
  pose proof (heuristic_bound (apply_move board m)) as Hb.
  unfold bindM at 1. unfold lift at 1. rewrite Happ.
  destruct maximizing.
  - unfold bindM at 1. unfold bindM at 1. unfold bindM at 1.
    rewrite min_value_expired by done. cbv beta iota.
    destruct (Z.gtb_spec (heuristic (apply_move board m)) (- INF)) as [_|Hle];
      [|unfold INF in Hle; lia].
    change (0 >? 0) with false. cbv beta iota.
    unfold bindM at 1. unfold retM at 1. unfold retM at 1. unfold retM at 1.
    cbv beta iota. unfold bindM at 1. unfold time at 1. cbn [ticks Analytics tick].
    rewrite too_late. done.
  - unfold bindM at 1. unfold bindM at 1. unfold bindM at 1.
    rewrite max_value_expired by done. cbv beta iota.
    destruct (Z.ltb_spec (heuristic (apply_move board m)) INF) as [_|Hle];
      [|unfold INF in Hle; lia].
    change (0 >? 0) with false. cbv beta iota.
    unfold bindM at 1. unfold retM at 1. unfold retM at 1. unfold retM at 1.
    cbv beta iota. unfold bindM at 1. unfold time at 1. cbn [ticks Analytics tick].
    rewrite too_late. done.
Qed.

End Expired.

Lemma one_ply_value_wf (board : Board) (m : Move) (v : Z) :
  wf_board board -> move_on_board m ->
  one_ply_value board m v <-> v = heuristic (apply_move board m).
Proof.
  intros Hwf Hm. destruct (ApplyMove_wf board m Hwf Hm) as [Happ Hwf'].
  unfold one_ply_value. rewrite Clone_same. split.
  - intros (b' & Hb' & Hv). rewrite Happ in Hb'. injection Hb' as <-.
    rewrite HeuristicScore_wf in Hv by done. by injection Hv as <-.
  - intros ->. exists (apply_move board m). split; [done|].
    by apply HeuristicScore_wf.
Qed.

(** The first move of the sorted list has the greatest key. *)
Lemma sort_desc_head (board : Board) (side : Side) (moves : list Move)
    (m : Move) (rest : list Move) :
  map snd (sort_desc (map (fun m => (order_key board side m, m)) moves)) = m :: rest ->
  m ∈ moves /\
  forall m', m' ∈ moves -> order_key board side m' <= order_key board side m.
Proof.
  set (scored := map (fun m => (order_key board side m, m)) moves).
  intros Hhead.
  pose proof (sort_desc_perm scored) as Hperm.
  pose proof (sort_desc_sorted scored) as Hsorted.
  destruct (sort_desc scored) as [|[k x] sorted]; [done|].
  cbn [map snd] in Hhead. injection Hhead as -> _.
  assert (Hin : forall y, y ∈ (k, m) :: sorted ->
                  y.1 = order_key board side y.2 /\ y.2 ∈ moves).
  { intros y Hy. rewrite Hperm in Hy. unfold scored in Hy.
    apply list_elem_of_fmap in Hy as (m1 & -> & Hm1). done. }
  destruct (Hin (k, m)) as [Hk Hm]; [left|]. cbn [fst snd] in Hk, Hm.
  split; [done|]. intros m' Hm'.
  assert (Hm'in : (order_key board side m', m') ∈ (k, m) :: sorted).
  { rewrite Hperm. unfold scored. apply list_elem_of_fmap. by exists m'. }
  apply elem_of_cons in Hm'in as [[= <- _]|Hm'in]; [lia|].
  apply StronglySorted_inv in Hsorted as [_ Hall].
  rewrite Forall_forall in Hall. specialize (Hall _ Hm'in).
  cbn [fst] in Hall. lia.
Qed.

(** X18. A pass of [_SearchDepth] that starts when the deadline is already
    past (every clock reading exceeds it), on an 8x8 board: it expands no
    node and counts no cut; with no legal move it returns (None, None);
    otherwise it tries only the first move in order and returns that move
    with the evaluation of the position after it. With ordering off that
    is the first legal move. With ordering on it is a legal move whose
    one-ply evaluation is the best for the side: no legal move evaluates
    higher (Black) or lower (White). *)
Theorem SearchDepth_expired (clock : nat -> Q) (self : SearchToolBox) (deadline : Q)
    (board : Board) (side : Side) (depth : nat) (w : World) :
  wf_board board -> expired clock deadline ->
  exists moves r w',
    AllLegalMoves board side = Ret (moves, board) /\
    _SearchDepth clock self deadline board side depth w = Ret ((r, board), w') /\
    NodesExpanded (Analytics w') = NodesExpanded (Analytics w) /\
    AlphaBetaCuts (Analytics w') = AlphaBetaCuts (Analytics w) /\
    (moves = [] -> r = (None, None)) /\
    (moves <> [] ->
     exists m v,
       r = (Some m, Some v) /\ m ∈ moves /\ one_ply_value board m v /\
       (UseOrdering self = false -> head moves = Some m) /\
       (UseOrdering self = true ->
        forall m' v', m' ∈ moves -> one_ply_value board m' v' ->
          match side with Black => v' <= v | White => v <= v' end)).
Proof.
  intros Hwf Hlate. exists (legal_moves board side).
  pose proof (legal_moves_on_board board side Hwf) as Hon.
  unfold _SearchDepth. unfold bindM at 1. unfold time at 1.
  unfold bindM at 1. unfold lift at 1. rewrite AllLegalMoves_wf by done.
  cbv beta iota.
  destruct (legal_moves board side) as [|m0 ms0] eqn:Hms.
  { eexists _, _. split; [done|]. split; [reflexivity|]. by split_and!. }
  rewrite <- Hms in *.
  unfold bindM at 1. rewrite OrderMoves_run by done.
  destruct (UseOrdering self) eqn:HO.
  - destruct (map snd (sort_desc (map (fun m => (order_key board side m, m))
                                      (legal_moves board side))))
      as [|m rest] eqn:Hsorted.
    { apply (f_equal length) in Hsorted.
      rewrite length_map, (Permutation_length (sort_desc_perm _)), length_map, Hms
        in Hsorted. done. }
    destruct (sort_desc_head board side _ m rest Hsorted) as [Hm Hbest].
    assert (Hmon : move_on_board m).
    { rewrite Forall_forall in Hon. by apply Hon. }
    unfold bindM at 1. rewrite (root_loop_expired clock self deadline Hlate) by done.
    eexists _, _. split; [done|]. split; [reflexivity|].
    split; [done|]. split; [done|]. split; [by rewrite Hms|]. intros _.
    exists m, (heuristic (apply_move board m)).
    split_and!; [done|done|by apply one_ply_value_wf|done|].
    intros _ m' v' Hm' Hv'.
    apply one_ply_value_wf in Hv'; [|done|rewrite Forall_forall in Hon; by apply Hon].
    subst v'. specialize (Hbest m' Hm'). unfold order_key in Hbest.
    destruct side.
    + rewrite !bool_decide_eq_true_2 in Hbest by done. lia.
    + rewrite !bool_decide_eq_false_2 in Hbest by done. lia.
  - rewrite Hms. rewrite Hms in Hon. apply Forall_cons in Hon as [Hm0 _].
    unfold bindM at 1. rewrite (root_loop_expired clock self deadline Hlate) by done.
    eexists _, _. split; [done|]. split; [reflexivity|].
    split; [done|]. split; [done|]. split; [done|]. intros _.
    exists m0, (heuristic (apply_move board m0)).
    split_and!; [done|left|by apply one_ply_value_wf|done|done].
Qed.

Lemma late_clock_expired : expired (fun _ => 5%Q) 1%Q.
Proof. intros n. reflexivity. Defined.

Lemma SearchDepth_expired_witness :
  wf_board initial_board /\ expired (fun _ => 5%Q) 1%Q /\
  exists moves r w',
    AllLegalMoves initial_board Black = Ret (moves, initial_board) /\
    _SearchDepth (fun _ => 5%Q) (SearchToolBox_init "alpha-beta-ordering") 1%Q
                 initial_board Black 3 fresh_world
      = Ret ((r, initial_board), w') /\
    NodesExpanded (Analytics w') = NodesExpanded (Analytics fresh_world) /\
    AlphaBetaCuts (Analytics w') = AlphaBetaCuts (Analytics fresh_world) /\
    (moves = [] -> r = (None, None)) /\
    (moves <> [] ->
     exists m v,
       r = (Some m, Some v) /\ m ∈ moves /\ one_ply_value initial_board m v /\
       (UseOrdering (SearchToolBox_init "alpha-beta-ordering") = false ->
        head moves = Some m) /\
       (UseOrdering (SearchToolBox_init "alpha-beta-ordering") = true ->
        forall m' v', m' ∈ moves -> one_ply_value initial_board m' v' ->
          match Black with Black => v' <= v | White => v <= v' end)).
Proof.
  split; [exact initial_board_wf|]. split; [exact late_clock_expired|].
  apply (SearchDepth_expired (fun _ => 5%Q) (SearchToolBox_init "alpha-beta-ordering")
           1%Q initial_board Black 3 fresh_world);
    [exact initial_board_wf|exact late_clock_expired].
Defined.

(** * The bot's turn *)

(** X19. [BotTurn] on an 8x8 board, whatever the clock. When Black has no
    legal move it returns False, prints that the bot has no legal moves,
    and changes neither the board nor the statistics. Otherwise it returns
    True; the board becomes the one [ApplyMove] gives for one of Black's
    legal moves, so a reachable board stays reachable; the analytics record
    of the search, with a zero [MaxFringeSize], is added to the Black
    statistics; and the line printed reports that record under the number
    of records now held. The White statistics are never touched. *)
Theorem BotTurn_plays_legal_move (clock : nat -> Q) (float_add : Q -> Z -> Q)
    (g : PlayingTheGame) (w : World) :
  wf_board (game_Board g) ->
  exists moves ok g' w',
    AllLegalMoves (game_Board g) Black = Ret (moves, game_Board g) /\
    BotTurn clock float_add g w = Ret ((ok, g'), w') /\
    WhiteStats g' = WhiteStats g /\
    (moves = [] ->
     ok = false /\ game_Board g' = game_Board g /\ BlackStats g' = BlackStats g /\
     printed g' = printed g ++ ["Bot has no legal moves."%string]) /\
    (moves <> [] ->
     ok = true /\
     (exists mv, mv ∈ moves /\ ApplyMove (game_Board g) mv = Ret (game_Board g')) /\
     BlackStats g' = Add (BlackStats g) (Analytics w') /\
     MaxFringeSize (Analytics w') = 0 /\
     printed g' =
     printed g ++ [PrettyAnalytics (Z.of_nat (length (PerMove (BlackStats g'))))
                                   "Bot(Black)" (Analytics w')]) /\
    (reachable (game_Board g) -> reachable (game_Board g')).
Proof.
  intros Hwf.
  destruct (ChooseMove_result clock (Bot g) float_add (game_Board g) Black
              (game_SecondsBudget g) (game_PlyLimit g) w Hwf)
    as (result & w' & Hrun & Hzero & Hmem & Hnone).
  exists (legal_moves (game_Board g) Black).
  unfold BotTurn. unfold bindM at 1. rewrite Hrun. cbv beta iota.
  destruct result as [mv|].
  - specialize (Hmem mv eq_refl).
    pose proof (legal_moves_shape _ _ _ Hwf Hmem) as [Hon _].
    destruct (ApplyMove_wf _ _ Hwf Hon) as [Happ Hwf'].
    cbn [game_Board]. unfold bindM at 1. unfold lift at 1. rewrite Happ.
    unfold bindM at 1. cbv beta iota. unfold retM.
    eexists _, _, _. split; [by apply AllLegalMoves_wf|]. split; [reflexivity|].
    cbn [print game_Board WhiteStats BlackStats printed].
    split; [done|]. split.
    { intros Hnil. rewrite Hnil in Hmem. by apply elem_of_nil in Hmem. }
    split.
    { intros _. split_and!; try done. by exists mv. }
    intros Hreach.
    by apply (reachable_move (game_Board g) (game_Board g) _ Black
                (legal_moves (game_Board g) Black) mv);
      [|apply AllLegalMoves_wf| |].
  - unfold retM. eexists _, _, _.
    split; [by apply AllLegalMoves_wf|]. split; [reflexivity|].
    cbn [print game_Board WhiteStats BlackStats printed].
    split; [done|]. split; [done|]. split; [|done].
    intros Hne. by destruct (proj1 Hnone eq_refl).
Qed.

Lemma BotTurn_plays_legal_move_witness :
  wf_board (game_Board (mkGame initial_board (SearchToolBox_init "alpha-beta") 1 2
                               no_analytics no_analytics [])) /\
  exists moves ok g' w',
    AllLegalMoves initial_board Black = Ret (moves, initial_board) /\
    BotTurn still_clock exact_sum
            (mkGame initial_board (SearchToolBox_init "alpha-beta") 1 2
                    no_analytics no_analytics []) fresh_world
      = Ret ((ok, g'), w') /\
    WhiteStats g' = no_analytics /\
    (moves = [] ->
     ok = false /\ game_Board g' = initial_board /\ BlackStats g' = no_analytics /\
     printed g' = [] ++ ["Bot has no legal moves."%string]) /\
    (moves <> [] ->
     ok = true /\
     (exists mv, mv ∈ moves /\ ApplyMove initial_board mv = Ret (game_Board g')) /\
     BlackStats g' = Add no_analytics (Analytics w') /\
     MaxFringeSize (Analytics w') = 0 /\
     printed g' =
     [] ++ [PrettyAnalytics (Z.of_nat (length (PerMove (BlackStats g'))))
                            "Bot(Black)" (Analytics w')]) /\
    (reachable initial_board -> reachable (game_Board g')).
Proof.
  split; [exact initial_board_wf|].
  apply (BotTurn_plays_legal_move still_clock exact_sum
           (mkGame initial_board (SearchToolBox_init "alpha-beta") 1 2
                   no_analytics no_analytics []) fresh_world).
  exact initial_board_wf.
Defined.

(** X20. The game loop calls [BotTurn] right after [IsTerminal] answered
    False; then, on an 8x8 board and whatever the clock, [BotTurn] returns
    True and prints an analytics line: its "no legal moves" branch is never
    taken there. *)
Theorem BotTurn_after_terminal_test (clock : nat -> Q) (float_add : Q -> Z -> Q)
    (g : PlayingTheGame) (w : World) :
  wf_board (game_Board g) ->
  IsTerminal (game_Board g) = Ret (false, game_Board g) ->
  exists g' w',
    BotTurn clock float_add g w = Ret ((true, g'), w') /\
    printed g' <> printed g ++ ["Bot has no legal moves."%string] /\
    length (PerMove (BlackStats g')) = S (length (PerMove (BlackStats g))).
Proof.
  intros Hwf Hterm. rewrite IsTerminal_wf in Hterm by done.
  injection Hterm as Hterm. unfold is_terminal in Hterm.
  apply orb_false_iff in Hterm as [_ Hblack]. apply Z.eqb_neq in Hblack.
  destruct (ChooseMove_result clock (Bot g) float_add (game_Board g) Black
              (game_SecondsBudget g) (game_PlyLimit g) w Hwf)
    as (result & w' & Hrun & Hzero & Hmem & Hnone).
  unfold BotTurn. unfold bindM at 1. rewrite Hrun. cbv beta iota.
  destruct result as [mv|].
  2:{ rewrite (proj1 Hnone eq_refl) in Hblack. done. }
  specialize (Hmem mv eq_refl).
  pose proof (legal_moves_shape _ _ _ Hwf Hmem) as [Hon _].
  destruct (ApplyMove_wf _ _ Hwf Hon) as [Happ Hwf'].
  cbn [game_Board]. unfold bindM at 1. unfold lift at 1. rewrite Happ.
  unfold bindM at 1. cbv beta iota. unfold retM.
  eexists _, _. split; [reflexivity|].
  cbn [print game_Board WhiteStats BlackStats printed Add PerMove].
  split.
  - intros Heq. apply app_inv_head in Heq. injection Heq as Heq.
    unfold PrettyAnalytics in Heq. cbn in Heq. discriminate Heq.
  - rewrite length_app. simpl. lia.
Qed.

Lemma BotTurn_after_terminal_test_witness :
  wf_board (game_Board (mkGame initial_board (SearchToolBox_init "alpha-beta") 1 2
                               no_analytics no_analytics [])) /\
  IsTerminal initial_board = Ret (false, initial_board) /\
  exists g' w',
    BotTurn still_clock exact_sum
            (mkGame initial_board (SearchToolBox_init "alpha-beta") 1 2
                    no_analytics no_analytics []) fresh_world
      = Ret ((true, g'), w') /\
    printed g' <> [] ++ ["Bot has no legal moves."%string] /\
    length (PerMove (BlackStats g')) = S (length (PerMove no_analytics)).
Proof.
  split; [exact initial_board_wf|]. split; [vm_compute; reflexivity|].
  apply (BotTurn_after_terminal_test still_clock exact_sum
           (mkGame initial_board (SearchToolBox_init "alpha-beta") 1 2
                   no_analytics no_analytics []) fresh_world).
  - exact initial_board_wf.
  - vm_compute. reflexivity.
Defined.

(** * Move ordering does not change the score *)

Lemma foldl_max_perm {A} (f : A -> Z) (l l' : list A) (init : Z) :
  l ≡ₚ l' ->
  foldl (fun best m => Z.max best (f m)) init l =
  foldl (fun best m => Z.max best (f m)) init l'.
Proof.
  intros Hperm. revert init.
  induction Hperm as [|x l l' _ IH|x y l|l l' l'' _ IH1 _ IH2]; intros init.
  - done.
  - cbn [foldl]. apply IH.
  - cbn [foldl]. f_equal. lia.
  - by rewrite IH1.
Qed.

Lemma foldl_min_perm {A} (f : A -> Z) (l l' : list A) (init : Z) :
  l ≡ₚ l' ->
  foldl (fun best m => Z.min best (f m)) init l =
  foldl (fun best m => Z.min best (f m)) init l'.
Proof.
  intros Hperm. revert init.
  induction Hperm as [|x l l' _ IH|x y l|l l' l'' _ IH1 _ IH2]; intros init.
  - done.
  - cbn [foldl]. apply IH.
  - cbn [foldl]. f_equal. lia.
  - by rewrite IH1.
Qed.

Section AnyOrder.

Variable clock : nat -> Q.
Variable self : SearchToolBox.
Variable deadline : Q.

(** The contract of [max_value] and [min_value] whatever the order the
    moves are tried in: the maximum and the minimum over the children do
    not depend on it. *)
Lemma node_spec_any_order (d : nat) :
  child_spec clock self deadline (max_value clock self deadline d) (mm_max d) True /\
  child_spec clock self deadline (min_value clock self deadline d) (mm_min d) True.
Proof.
  induction d as [|d [IHmax IHmin]].
  - split; intros bd a be Hwf.
    + rewrite max_value_eq. apply node_entry_spec; [done|].
      by apply static_value_spec.
    + rewrite min_value_eq. apply node_entry_spec; [done|].
      by apply static_value_spec.
  - split; intros bd a be Hwf.
    + rewrite max_value_eq. apply node_entry_spec; [done|].
      eapply yields_bind; [apply yields_lift, IsTerminal_wf, Hwf|]. intros ? ->.
      cbn [mm_max]. destruct (is_terminal bd); [by apply static_value_spec|].
      eapply yields_bind; [apply yields_lift, AllLegalMoves_wf, Hwf|]. intros ? ->.
      pose proof (legal_moves_on_board bd Black Hwf) as Hon.
      destruct (legal_moves bd Black) as [|m ms] eqn:Hms; [by apply static_value_spec|].
      rewrite <- Hms in *.
      eapply yields_bind; [by apply OrderMoves_spec|]. intros ordered [Hperm _].
      eapply yields_bind.
      { apply (max_loop_spec clock self deadline _ (mm_min d) True bd be).
        - exact IHmin.
        - done.
        - by rewrite Hperm.
        - unfold INF. lia. }
      intros r (Hr1 & Hr2 & Hr3). apply yields_ret.
      split; [done|]. cbn [fst]. split.
      { split; [|lia]. apply Hr2. intros ->.
        apply Permutation_nil_l in Hperm. by rewrite Hms in Hperm. }
      intros Hlive _.
      destruct (Hr3 Hlive I) as [Hex Hwin].
      rewrite <- (foldl_max_perm (fun m => mm_min d (apply_move bd m)) _ _ (- INF) Hperm).
      split.
      * intros HAB. by apply Hex.
      * intros HAB Ha Hlt Hbe.
        apply (Hwin HAB a (- INF) Ha Hbe).
        unfold max_inv. lia.
    + rewrite min_value_eq. apply node_entry_spec; [done|].
      eapply yields_bind; [apply yields_lift, IsTerminal_wf, Hwf|]. intros ? ->.
      cbn [mm_min]. destruct (is_terminal bd); [by apply static_value_spec|].
      eapply yields_bind; [apply yields_lift, AllLegalMoves_wf, Hwf|]. intros ? ->.
      pose proof (legal_moves_on_board bd White Hwf) as Hon.
      destruct (legal_moves bd White) as [|m ms] eqn:Hms; [by apply static_value_spec|].
      rewrite <- Hms in *.
      eapply yields_bind; [by apply OrderMoves_spec|]. intros ordered [Hperm _].
      eapply yields_bind.
      { apply (min_loop_spec clock self deadline _ (mm_max d) True bd a).
        - exact IHmax.
        - done.
        - by rewrite Hperm.
        - unfold INF. lia. }
      intros r (Hr1 & Hr2 & Hr3). apply yields_ret.
      split; [done|]. cbn [fst]. split.
      { split; [lia|]. apply Hr2. intros ->.
        apply Permutation_nil_l in Hperm. by rewrite Hms in Hperm. }
      intros Hlive _.
      destruct (Hr3 Hlive I) as [Hex Hwin].
      rewrite <- (foldl_min_perm (fun m => mm_max d (apply_move bd m)) _ _ INF Hperm).
      split.
      * intros HAB. by apply Hex.
      * intros HAB Ha Hlt Hbe.
        apply (Hwin HAB be INF Ha Hbe).
        unfold min_inv. lia.
Qed.

(** A pass of [_SearchDepth] that the deadline does not cut short returns
    the minimax score of the root, in every mode. *)
Lemma SearchDepth_any_order (board : Board) (side : Side) (depth : nat) :
  wf_board board ->
  yields (_SearchDepth clock self deadline board side depth)
    (fun r =>
       r.2 = board /\
       (legal_moves board side = [] -> r.1 = (None, None)) /\
       (legal_moves board side <> [] ->
        r.1.1 <> None /\
        exists s, r.1.2 = Some s /\
          (live clock deadline -> root_score board side (Nat.pred depth) s))).
Proof.
  intros Hwf. unfold _SearchDepth.
  eapply yields_bind; [apply yields_time|]. intros start _.
  eapply yields_bind; [apply yields_lift, AllLegalMoves_wf, Hwf|]. intros ? ->.
  pose proof (legal_moves_on_board board side Hwf) as Hon.
  destruct (legal_moves board side) as [|m0 ms0] eqn:Hms.
  { apply yields_ret. by split_and!. }
  rewrite <- Hms in *.
  assert (Hne : legal_moves board side <> []) by (by rewrite Hms).
  eapply yields_bind; [by apply OrderMoves_spec|]. intros ordered [Hperm _].
  assert (Hone : ordered <> []).
  { intros ->. by apply Permutation_nil_l in Hperm. }
  assert (Hon' : Forall move_on_board ordered) by by rewrite Hperm.
  destruct (node_spec_any_order (Nat.pred depth)) as [Hmax Hmin].
  destruct side; cbn [bool_decide decide_rel Side_eq_dec]; cbv beta iota.
  - eapply yields_bind.
    { change (bool_decide (White = Black)) with false.
      apply (root_loop_min_spec clock self deadline _ _ board Hmax Hwf ordered Hon'
               0 None INF); [unfold INF; lia|done]. }
    intros [bm bs] (Hbs & Hsome & _ & Hval). cbn [fst snd] in *.
    eapply yields_bind; [apply yields_time|]. intros t _.
    eapply yields_bind; [apply yields_update; by intros []|]. intros _ _.
    apply yields_ret. cbn [fst snd]. split; [done|]. split; [done|]. intros _.
    destruct (Hsome Hone) as [Hbm Hhi]. split; [done|].
    exists bs. split; [done|].
    intros Hlive. unfold root_score.
    apply (is_min_of_perm (map (fun m => mm_max (Nat.pred depth) (apply_move board m))
                               ordered)); [by rewrite Hperm|].
    rewrite (Hval Hlive I). apply foldl_min_is_min; [done|].
    intros m _. pose proof (proj1 (mm_bounds (Nat.pred depth) (apply_move board m))).
    unfold INF. lia.
  - eapply yields_bind.
    { change (bool_decide (Black = Black)) with true.
      apply (root_loop_max_spec clock self deadline _ _ board Hmin Hwf ordered Hon'
               0 None (- INF)); [unfold INF; lia|done]. }
    intros [bm bs] (Hbs & Hsome & _ & Hval). cbn [fst snd] in *.
    eapply yields_bind; [apply yields_time|]. intros t _.
    eapply yields_bind; [apply yields_update; by intros []|]. intros _ _.
    apply yields_ret. cbn [fst snd]. split; [done|]. split; [done|]. intros _.
    destruct (Hsome Hone) as [Hbm Hlo]. split; [done|].
    exists bs. split; [done|].
    intros Hlive. unfold root_score.
    apply (is_max_of_perm (map (fun m => mm_min (Nat.pred depth) (apply_move board m))
                               ordered)); [by rewrite Hperm|].
    rewrite (Hval Hlive I). apply foldl_max_is_max; [done|].
    intros m _. pose proof (proj2 (mm_bounds (Nat.pred depth) (apply_move board m))).
    unfold INF. lia.
Qed.

End AnyOrder.

(** X21. When the deadline never expires, the score a pass of
    [_SearchDepth] returns does not depend on the mode: at every depth
    (from 1, the least [ChooseMove] uses), on every 8x8 board and for
    either side, two tool boxes, whatever their pruning and ordering flags
    and the worlds they start from, return the same score. In particular
    "alpha-beta-ordering" scores as "minimax" does. *)
Theorem score_independent_of_mode (clock : nat -> Q) (deadline : Q)
    (self1 self2 : SearchToolBox) (board : Board) (side : Side) (depth : nat)
    (w1 w2 : World) :
  wf_board board -> (1 <= depth)%nat -> live clock deadline ->
  exists mv1 mv2 score w1' w2',
    _SearchDepth clock self1 deadline board side depth w1
      = Ret ((mv1, score, board), w1') /\
    _SearchDepth clock self2 deadline board side depth w2
      = Ret ((mv2, score, board), w2').
Proof.
  intros Hwf _ Hlive.
  destruct (SearchDepth_any_order clock self1 deadline board side depth Hwf w1)
    as ([[mv1 s1] b1] & w1' & Hrun1 & _ & Hb1 & Hnil1 & Hsome1).
  destruct (SearchDepth_any_order clock self2 deadline board side depth Hwf w2)
    as ([[mv2 s2] b2] & w2' & Hrun2 & _ & Hb2 & Hnil2 & Hsome2).
  cbn [fst snd] in *. subst b1 b2.
  assert (Hsame : s2 = s1).
  { destruct (decide (legal_moves board side = [])) as [Hnil|Hne].
    - specialize (Hnil1 Hnil). specialize (Hnil2 Hnil). congruence.
    - destruct (Hsome1 Hne) as (_ & x1 & Hs1 & Hx1).
      destruct (Hsome2 Hne) as (_ & x2 & Hs2 & Hx2).
      rewrite Hs1, Hs2. f_equal.
      apply (root_score_unique board side (Nat.pred depth)); [by apply Hx2|by apply Hx1]. }
  exists mv1, mv2, s1, w1', w2'. split; [exact Hrun1|]. rewrite Hsame in Hrun2. exact Hrun2.
Qed.

Lemma score_independent_of_mode_witness :
  wf_board initial_board /\ (1 <= 2)%nat /\ live still_clock 1%Q /\
  exists mv1 mv2 score w1' w2',
    _SearchDepth still_clock (SearchToolBox_init "minimax") 1%Q
                 initial_board White 2 fresh_world
      = Ret ((mv1, score, initial_board), w1') /\
    _SearchDepth still_clock (SearchToolBox_init "alpha-beta-ordering") 1%Q
                 initial_board White 2 fresh_world
      = Ret ((mv2, score, initial_board), w2').
Proof.
  split; [exact initial_board_wf|]. split; [lia|]. split; [exact still_clock_live|].
  apply (score_independent_of_mode still_clock 1%Q (SearchToolBox_init "minimax")
           (SearchToolBox_init "alpha-beta-ordering") initial_board White 2
           fresh_world fresh_world);
    [exact initial_board_wf|lia|exact still_clock_live].
Defined.

(** * Invariants of the boards a game reaches *)

(** One step of [reachable], read on well-formed boards. *)
Lemma reachable_step (b b1 b' : Board) (side : Side) (moves : list Move) (mv : Move) :
  wf_board b ->
  AllLegalMoves b side = Ret (moves, b1) -> mv ∈ moves -> ApplyMove b1 mv = Ret b' ->
  mv ∈ legal_moves b side /\ move_on_board mv /\ b' = apply_move b mv.
Proof.
  intros Hwf Hmoves Hmv Happ.
  rewrite AllLegalMoves_wf in Hmoves by done. injection Hmoves as <- <-.
  pose proof (legal_moves_shape b side mv Hwf Hmv) as [Hon _].
  destruct (ApplyMove_wf b mv Hwf Hon) as [Hrun _].
  rewrite Hrun in Happ. injection Happ as <-. done.
Qed.

(** X22. On every board a game can reach, each side has at most the twelve
    pieces it started with. *)
Theorem at_most_twelve_pieces (b : Board) :
  reachable b -> (pieces b White <= 12)%nat /\ (pieces b Black <= 12)%nat.
Proof.
  induction 1 as [b Hinit|b b1 b' side moves mv Hreach [IHw IHb] Hmoves Hmv Happ].
  - rewrite InitialBoard_value in Hinit. injection Hinit as <-.
    split; vm_compute; lia.
  - destruct (reachable_invariant b Hreach) as [Hwf _].
    destruct (reachable_step b b1 b' side moves mv Hwf Hmoves Hmv Happ)
      as (Hlegal & _ & ->).
    destruct (apply_move_pieces b side mv Hwf Hlegal) as [Hown Hopp].
    destruct side; cbn [other] in Hopp; lia.
Qed.

Lemma at_most_twelve_pieces_witness :
  reachable after_opening /\
  (pieces after_opening White <= 12)%nat /\ (pieces after_opening Black <= 12)%nat.
Proof.
  split; [exact after_opening_reachable|].
  apply (at_most_twelve_pieces after_opening). exact after_opening_reachable.
Defined.

Lemma promoted_man (p : cell) (r : Z) :
  (promoted p r = WMan -> r <> 0) /\ (promoted p r = BMan -> r <> 7).
Proof.
  unfold promoted, size.
  destruct p; cbn [bool_decide decide_rel cell_eq_dec andb];
    destruct (Z.eqb_spec r 0), (Z.eqb_spec r (8 - 1)); split; intros; try done; lia.
Qed.

(** No White man on row 0 and no Black man on row 7. *)
Definition men_off_back_rows (b : Board) : Prop :=
  forall rc, on_board rc ->
    (cell_at b rc = WMan -> rc.1 <> 0) /\ (cell_at b rc = BMan -> rc.1 <> 7).

Lemma reachable_men_off_back_rows (b : Board) :
  reachable b -> men_off_back_rows b.
Proof.
  induction 1 as [b Hinit|b b1 b' side moves mv Hreach IH Hmoves Hmv Happ].
  - rewrite InitialBoard_value in Hinit. injection Hinit as <-.
    intros rc Hrc. apply elem_of_all_squares in Hrc. vm_compute in Hrc.
    repeat (apply elem_of_cons in Hrc as [->|Hrc]; [by vm_compute|]).
    by apply elem_of_nil in Hrc.
  - destruct (reachable_invariant b Hreach) as [Hwf _].
    destruct (reachable_step b b1 b' side moves mv Hwf Hmoves Hmv Happ)
      as (_ & Hon & ->).
    intros rc Hrc. rewrite cell_at_apply_move by done.
    destruct (decide (rc = TargetingMoveLocation mv)) as [->|Hne].
    { apply promoted_man. }
    case_decide; [done|]. by apply IH.
Qed.

(** X23. On every board a game can reach, no White man stands on row 0
    and no Black man on row 7: a man that ends its move on its crowning
    row is always a king afterwards. *)
Theorem no_man_on_crowning_row (b : Board) :
  reachable b ->
  forall c, 0 <= c < 8 ->
    PieceAt b (0, c) <> Ret WMan /\ PieceAt b (7, c) <> Ret BMan.
Proof.
  intros Hreach c Hc.
  destruct (reachable_invariant b Hreach) as [Hwf _].
  pose proof (reachable_men_off_back_rows b Hreach) as Hmen.
  assert (H0 : on_board (0, c)) by (apply on_board_bounds; simpl; lia).
  assert (H7 : on_board (7, c)) by (apply on_board_bounds; simpl; lia).
  rewrite !PieceAt_wf by done. split; intros [= Hp].
  - by apply (proj1 (Hmen (0, c) H0)).
  - by apply (proj2 (Hmen (7, c) H7)).
Qed.

Lemma no_man_on_crowning_row_witness :
  reachable after_opening /\
  forall c, 0 <= c < 8 ->
    PieceAt after_opening (0, c) <> Ret WMan /\ PieceAt after_opening (7, c) <> Ret BMan.
Proof.
  split; [exact after_opening_reachable|].
  apply (no_man_on_crowning_row after_opening). exact after_opening_reachable.
Defined.

(** * Entering a move *)

Lemma Pretty_total (b : Board) : wf_board b -> exists shown, Pretty b = Ret shown.
Proof.
  intros Hwf. explode_board b Hwf. eexists. cbv -[cell_chr]. reflexivity.
Qed.

(** [m] has the entered start and target squares. *)
Definition entered (s t : Coordinate) (m : Move) : Prop :=
  StartingMoveLocation m = s /\ TargetingMoveLocation m = t.

Lemma first_match_Some (legal : list Move) (s t : Coordinate) (m : Move) :
  first_match legal s t = Some m ->
  exists i, legal !! i = Some m /\ entered s t m /\
            forall j m', (j < i)%nat -> legal !! j = Some m' -> ~ entered s t m'.
Proof.
  induction legal as [|x legal IH]; [done|]. cbn [first_match].
  destruct (bool_decide (StartingMoveLocation x = s)) eqn:Hs;
    [destruct (bool_decide (TargetingMoveLocation x = t)) eqn:Ht|]; cbn [andb].
  - intros [= ->]. apply bool_decide_eq_true in Hs, Ht.
    exists 0%nat. split_and!; [done|done|]. intros j m' Hj. lia.
  - intros Hm. destruct (IH Hm) as (i & Hi & He & Hfirst).
    exists (S i). split_and!; [done|done|].
    intros [|j] m' Hj Hm'.
    + injection Hm' as <-. apply bool_decide_eq_false in Ht. by intros [_ ?].
    + apply (Hfirst j); [lia|done].
  - intros Hm. destruct (IH Hm) as (i & Hi & He & Hfirst).
    exists (S i). split_and!; [done|done|].
    intros [|j] m' Hj Hm'.
    + injection Hm' as <-. apply bool_decide_eq_false in Hs. by intros [? _].
    + apply (Hfirst j); [lia|done].
Qed.

Lemma first_match_None (legal : list Move) (s t : Coordinate) :
  first_match legal s t = None <-> forall m, m ∈ legal -> ~ entered s t m.
Proof.
  induction legal as [|x legal IH]; cbn [first_match].
  { split; [|done]. by intros _ m ?%elem_of_nil. }
  destruct (decide (entered s t x)) as [[Hs Ht]|Hno].
  - rewrite !bool_decide_eq_true_2 by done. cbn [andb]. split; [done|].
    intros Hall. destruct (Hall x); [left|done].
  - assert (Hb : bool_decide (StartingMoveLocation x = s)
                 && bool_decide (TargetingMoveLocation x = t) = false).
    { apply andb_false_iff. unfold entered in Hno.
      destruct (decide (StartingMoveLocation x = s)).
      - right. apply bool_decide_eq_false. tauto.
      - left. by apply bool_decide_eq_false. }
    rewrite Hb, IH. split.
    + intros Hall m [->|Hm]%elem_of_cons; [done|by apply Hall].
    + intros Hall m Hm. apply Hall. by right.
Qed.

(** X24. [InputMove] on an 8x8 board. It prints the board first. When
    four integers are read, whatever their values, it does not fail and
    leaves the board as it was; it returns the first move, in the order of
    [AllLegalMoves] for White, whose start and target are the squares
    entered, and returns None, printing the "Illegal move" line, exactly
    when no legal move has them. When a read raises among the first four,
    it returns None and prints the "Invalid input" line. *)
Theorem InputMove_first_match (g : PlayingTheGame) :
  wf_board (game_Board g) ->
  exists shown legal,
    Pretty (game_Board g) = Ret shown /\
    AllLegalMoves (game_Board g) White = Ret (legal, game_Board g) /\
    (forall sx sy tx ty rest,
       exists r g',
         InputMove g (Some sx :: Some sy :: Some tx :: Some ty :: rest)
           = Ret (r, g', rest) /\
         game_Board g' = game_Board g /\
         (forall m, r = Some m ->
            printed g' = printed g ++ [shown] /\
            exists i, legal !! i = Some m /\ entered (sx, sy) (tx, ty) m /\
              forall j m', (j < i)%nat -> legal !! j = Some m' ->
                           ~ entered (sx, sy) (tx, ty) m') /\
         (r = None <-> forall m, m ∈ legal -> ~ entered (sx, sy) (tx, ty) m) /\
         (r = None ->
          printed g' =
          printed g ++
            [shown;
             "Illegal move (note: captures are mandatory if available). Try again."%string]))
    /\
    (forall stdin rest,
       read_ints 4 stdin = (None, rest) ->
       exists g',
         InputMove g stdin = Ret (None, g', rest) /\
         game_Board g' = game_Board g /\
         printed g' =
         printed g ++ [shown; "Invalid input. Please enter integers 0..7."%string]).
Proof.
  intros Hwf. destruct (Pretty_total _ Hwf) as [shown Hshown].
  exists shown, (legal_moves (game_Board g) White).
  split; [exact Hshown|]. split; [by apply AllLegalMoves_wf|]. split.
  - intros sx sy tx ty rest. unfold InputMove. rewrite Hshown. cbn [bind].
    cbn [read_ints fmap option_fmap option_map print game_Board].
    rewrite AllLegalMoves_wf by done. cbn [bind].
    destruct (first_match (legal_moves (game_Board g) White) (sx, sy) (tx, ty))
      as [m|] eqn:Hfind.
    + eexists _, _. split; [reflexivity|]. cbn [game_Board printed].
      split; [done|]. split_and!.
      * intros m' [= <-]. split; [done|]. by apply first_match_Some.
      * split; [done|]. intros Hall. apply first_match_None in Hall. congruence.
      * done.
    + eexists _, _. split; [reflexivity|]. cbn [game_Board printed print].
      split; [done|]. split_and!.
      * done.
      * split; [|done]. intros _. by apply first_match_None.
      * intros _. by rewrite <- app_assoc.
  - intros stdin rest Hread. unfold InputMove. rewrite Hshown. cbn [bind].
    rewrite Hread. eexists. split; [reflexivity|].
    cbn [game_Board printed print]. split; [done|]. by rewrite <- app_assoc.
Qed.

Lemma InputMove_first_match_witness :
  wf_board (game_Board (mkGame ring_board (SearchToolBox_init "minimax") 1 5
                               no_analytics no_analytics [])) /\
  exists shown legal,
    Pretty ring_board = Ret shown /\
    AllLegalMoves ring_board White = Ret (legal, ring_board) /\
    (forall sx sy tx ty rest,
       exists r g',
         InputMove (mkGame ring_board (SearchToolBox_init "minimax") 1 5
                           no_analytics no_analytics [])
                   (Some sx :: Some sy :: Some tx :: Some ty :: rest)
           = Ret (r, g', rest) /\
         game_Board g' = ring_board /\
         (forall m, r = Some m ->
            printed g' = [] ++ [shown] /\
            exists i, legal !! i = Some m /\ entered (sx, sy) (tx, ty) m /\
              forall j m', (j < i)%nat -> legal !! j = Some m' ->
                           ~ entered (sx, sy) (tx, ty) m') /\
         (r = None <-> forall m, m ∈ legal -> ~ entered (sx, sy) (tx, ty) m) /\
         (r = None ->
          printed g' =
          [] ++
            [shown;
             "Illegal move (note: captures are mandatory if available). Try again."%string]))
    /\
    (forall stdin rest,
       read_ints 4 stdin = (None, rest) ->
       exists g',
         InputMove (mkGame ring_board (SearchToolBox_init "minimax") 1 5
                           no_analytics no_analytics []) stdin
           = Ret (None, g', rest) /\
         game_Board g' = ring_board /\
         printed g' =
         [] ++ [shown; "Invalid input. Please enter integers 0..7."%string]).
Proof.
  split; [exact ring_board_wf|].
  apply (InputMove_first_match
           (mkGame ring_board (SearchToolBox_init "minimax") 1 5
                   no_analytics no_analytics [])).
  exact ring_board_wf.
Defined.

(** On [ring_board] the White king has two round trips, one each way
    round; both start and end on (2,1), so entering those squares always
    gives the first, and the second cannot be entered. *)
Example round_trips_entered_alike :
  exists m1 m2 shown,
    AllLegalMoves ring_board White = Ret ([m1; m2], ring_board) /\
    m1 <> m2 /\ entered (2, 1) (2, 1) m1 /\ entered (2, 1) (2, 1) m2 /\
    InputMove (mkGame ring_board (SearchToolBox_init "minimax") 1 5
                      no_analytics no_analytics [])
              [Some 2; Some 1; Some 2; Some 1]
    = Ret (Some m1,
           mkGame ring_board (SearchToolBox_init "minimax") 1 5
                  no_analytics no_analytics [shown], []).
Proof.
  eexists _, _, _. split; [vm_compute; reflexivity|].
  split; [discriminate|]. split; [done|]. split; [done|].
  vm_compute. reflexivity.
Qed.

(** * The move of a completed pass *)

(** ** Runs under clocks that agree on the readings taken *)

(** A run never turns the count of readings back, and [m'] runs as [m]
    does whenever the run of [m] ends with at most [N] readings taken. *)
Definition same_run {A} (N : nat) (m m' : M A) : Prop :=
  forall w a w', m w = Ret (a, w') ->
    (ticks w <= ticks w')%nat /\ ((ticks w' <= N)%nat -> m' w = Ret (a, w')).

Lemma same_run_ret {A} (N : nat) (a : A) : same_run N (retM a) (retM a).
Proof. intros w a' w' H. apply retM_Ret in H as [-> ->]. by split. Qed.

Lemma same_run_lift {A} (N : nat) (o : outcome A) : same_run N (lift o) (lift o).
Proof.
  intros w a w' H. unfold lift in *. destruct o; [|done].
  injection H as <- <-. by split.
Qed.

Lemma same_run_update (N : nat) (f : MoveAnalytics -> MoveAnalytics) :
  same_run N (update_analytics f) (update_analytics f).
Proof.
  intros w a w' H. unfold update_analytics in *. injection H as <- <-. by split.
Qed.

Lemma same_run_bind {A B} (N : nat) (m m' : M A) (k k' : A -> M B) :
  same_run N m m' -> (forall a, same_run N (k a) (k' a)) ->
  same_run N (bindM m k) (bindM m' k').
Proof.
  intros Hm Hk w b w' H. apply bindM_Ret in H as (a & w1 & Hrun & Hrest).
  destruct (Hm _ _ _ Hrun) as [Hle1 Hsame1].
  destruct (Hk a _ _ _ Hrest) as [Hle2 Hsame2].
  split; [lia|]. intros HN. unfold bindM. rewrite Hsame1 by lia. by apply Hsame2.
Qed.

Lemma same_run_time (N : nat) (c c' : nat -> Q) :
  (forall n, (n < N)%nat -> c n = c' n) -> same_run N (time c) (time c').
Proof.
  intros Hagree w t w' H. unfold time in *. injection H as <- <-. cbn [ticks].
  split; [lia|]. intros HN. by rewrite Hagree by lia.
Qed.

Section SameReadings.

Variables c c' : nat -> Q.
Variable self : SearchToolBox.
Variable deadline : Q.
Variable N : nat.
Hypothesis agree : forall n, (n < N)%nat -> c n = c' n.

Lemma same_run_OrderMoves (board : Board) (side : Side) (moves : list Move) :
  same_run N (_OrderMoves self board side moves) (_OrderMoves self board side moves).
Proof.
  unfold _OrderMoves. destruct (negb _); [apply same_run_ret|].
  apply same_run_bind; [apply same_run_lift|]. intros scored. cbv beta zeta.
  apply same_run_bind; [apply same_run_update|]. intros _. apply same_run_ret.
Qed.

Lemma same_run_static (bd : Board) : same_run N (static_value bd) (static_value bd).
Proof.
  unfold static_value. apply same_run_bind; [apply same_run_lift|].
  intros h. apply same_run_ret.
Qed.

Lemma same_run_max_loop (child child' : Board -> Z -> Z -> M (Z * Board)) :
  (forall bd a be, same_run N (child bd a be) (child' bd a be)) ->
  forall bd ordered best a be,
    same_run N (max_loop self child bd ordered best a be)
               (max_loop self child' bd ordered best a be).
Proof.
  intros Hchild bd ordered.
  induction ordered as [|m rest IH]; intros best a be; cbn [max_loop].
  { apply same_run_ret. }
  apply same_run_bind; [apply same_run_lift|]. intros clone. cbv beta.
  apply same_run_bind; [apply Hchild|]. intros [val bd']. cbv beta iota zeta.
  destruct (UseAlphaBeta self && _); [|apply IH].
  apply same_run_bind; [apply same_run_update|]. intros _. apply same_run_ret.
Qed.

Lemma same_run_min_loop (child child' : Board -> Z -> Z -> M (Z * Board)) :
  (forall bd a be, same_run N (child bd a be) (child' bd a be)) ->
  forall bd ordered best a be,
    same_run N (min_loop self child bd ordered best a be)
               (min_loop self child' bd ordered best a be).
Proof.
  intros Hchild bd ordered.
  induction ordered as [|m rest IH]; intros best a be; cbn [min_loop].
  { apply same_run_ret. }
  apply same_run_bind; [apply same_run_lift|]. intros clone. cbv beta.
  apply same_run_bind; [apply Hchild|]. intros [val bd']. cbv beta iota zeta.
  destruct (UseAlphaBeta self && _); [|apply IH].
  apply same_run_bind; [apply same_run_update|]. intros _. apply same_run_ret.
Qed.

Lemma same_run_node (d : nat) :
  (forall bd a be, same_run N (max_value c self deadline d bd a be)
                              (max_value c' self deadline d bd a be)) /\
  (forall bd a be, same_run N (min_value c self deadline d bd a be)
                              (min_value c' self deadline d bd a be)).
Proof.
  induction d as [|d [IHmax IHmin]]; split; intros bd a be.
  - rewrite !max_value_eq.
    apply same_run_bind; [by apply same_run_time|]. intros t.
    destruct (Qgtb t deadline); [apply same_run_static|].
    apply same_run_bind; [apply same_run_update|]. intros _. apply same_run_static.
  - rewrite !min_value_eq.
    apply same_run_bind; [by apply same_run_time|]. intros t.
    destruct (Qgtb t deadline); [apply same_run_static|].
    apply same_run_bind; [apply same_run_update|]. intros _. apply same_run_static.
  - rewrite !max_value_eq.
    apply same_run_bind; [by apply same_run_time|]. intros t.
    destruct (Qgtb t deadline); [apply same_run_static|].
    apply same_run_bind; [apply same_run_update|]. intros _.
    apply same_run_bind; [apply same_run_lift|]. intros [[] bd0];
      [apply same_run_static|].
    apply same_run_bind; [apply same_run_lift|]. intros [[|m ms] bd1];
      [apply same_run_static|].
    apply same_run_bind; [apply same_run_OrderMoves|]. intros ordered.
    apply same_run_bind; [by apply same_run_max_loop|]. intros best.
    apply same_run_ret.
  - rewrite !min_value_eq.
    apply same_run_bind; [by apply same_run_time|]. intros t.
    destruct (Qgtb t deadline); [apply same_run_static|].
    apply same_run_bind; [apply same_run_update|]. intros _.
    apply same_run_bind; [apply same_run_lift|]. intros [[] bd0];
      [apply same_run_static|].
    apply same_run_bind; [apply same_run_lift|]. intros [[|m ms] bd1];
      [apply same_run_static|].
    apply same_run_bind; [apply same_run_OrderMoves|]. intros ordered.
    apply same_run_bind; [by apply same_run_min_loop|]. intros best.
    apply same_run_ret.
Qed.

Lemma same_run_root_loop (maximizing : bool) (d : nat) (board : Board)
    (moves : list Move) :
  forall idx best_move best_score alpha beta,
    same_run N (root_loop c self deadline maximizing d board moves idx
                          best_move best_score alpha beta)
               (root_loop c' self deadline maximizing d board moves idx
                          best_move best_score alpha beta).
Proof.
  destruct (same_run_node d) as [Hmax Hmin].
  induction moves as [|m rest IH]; intros idx bm bs a be; cbn [root_loop].
  { apply same_run_ret. }
  apply same_run_bind; [apply same_run_lift|]. intros clone. cbv beta.
  apply same_run_bind.
  { destruct maximizing.
    - apply same_run_bind; [apply Hmin|]. intros [score bd']. cbv beta iota.
      apply same_run_bind; [|intros [bm' bs']; apply same_run_ret].
      destruct (score >? bs); [|apply same_run_ret].
      apply same_run_bind; [|intros _; apply same_run_ret].
      destruct (idx >? 0); [apply same_run_update|apply same_run_ret].
    - apply same_run_bind; [apply Hmax|]. intros [score bd']. cbv beta iota.
      apply same_run_bind; [|intros [bm' bs']; apply same_run_ret].
      destruct (score <? bs); [|apply same_run_ret].
      apply same_run_bind; [|intros _; apply same_run_ret].
      destruct (idx >? 0); [apply same_run_update|apply same_run_ret]. }
  intros [[[bm' bs'] a'] be']. cbv beta iota.
  apply same_run_bind; [by apply same_run_time|]. intros t.
  destruct (Qgtb t deadline); [apply same_run_ret|apply IH].
Qed.

(** A pass of [_SearchDepth] runs alike under two clocks that agree on the
    readings it takes. *)
Lemma same_run_SearchDepth (board : Board) (side : Side) (depth : nat) :
  same_run N (_SearchDepth c self deadline board side depth)
             (_SearchDepth c' self deadline board side depth).
Proof.
  unfold _SearchDepth.
  apply same_run_bind; [by apply same_run_time|]. intros start. cbv beta zeta.
  apply same_run_bind; [apply same_run_lift|]. intros [[|m ms] bd];
    [apply same_run_ret|].
  apply same_run_bind; [apply same_run_OrderMoves|]. intros ordered.
  apply same_run_bind; [apply same_run_root_loop|]. intros [bm bs]. cbv beta iota.
  apply same_run_bind; [by apply same_run_time|]. intros t.
  apply same_run_bind; [apply same_run_update|]. intros _. apply same_run_ret.
Qed.

End SameReadings.

(** ** The best move *)

(** [m] is a best move of [side] among [moves] in a search [depth] plies
    deep: it is one of [moves], and the position it leads to, searched the
    remaining [depth - 1] plies, has the greatest minimax value among those
    [moves] lead to when Black is to move, and the least when White is. *)
Definition best_move_among (moves : list Move) (board : Board) (side : Side)
    (depth : nat) (m : Move) : Prop :=
  m ∈ moves /\
  forall m', m' ∈ moves ->
    match side with
    | Black => mm_min (Nat.pred depth) (apply_move board m')
               <= mm_min (Nat.pred depth) (apply_move board m)
    | White => mm_max (Nat.pred depth) (apply_move board m)
               <= mm_max (Nat.pred depth) (apply_move board m')
    end.

Lemma yields_and {A} (m : M A) (P Q : A -> Prop) :
  yields m P -> yields m Q -> yields m (fun a => P a /\ Q a).
Proof.
  intros HP HQ w. destruct (HP w) as (a & w' & Hrun & Hf & Ha).
  exists a, w'. split; [done|]. split; [done|]. split; [done|].
  by apply (yields_Ret m Q w w').
Qed.

Section BestMove.

Variable clock : nat -> Q.
Variable self : SearchToolBox.
Variable deadline : Q.

(** Root loop for Black, when the deadline never expires: the move it ends
    with is the one it started with, if no move scored higher than the
    score it started with, and otherwise one of the moves tried whose
    minimax value is the score returned. *)
Lemma root_loop_max_best (d : nat) (board : Board) :
  wf_board board ->
  forall moves, Forall move_on_board moves ->
  forall idx best_move best_score,
    - INF <= best_score <= 640 ->
  yields (root_loop clock self deadline true d board moves idx
                    best_move best_score best_score INF)
    (fun r =>
       live clock deadline -> forall mb, r.1 = Some mb ->
         (mb ∈ moves /\ mm_min d (apply_move board mb) = r.2) \/
         (best_move = Some mb /\ r.2 = best_score)).
Proof.
  intros Hwf moves Hms.
  destruct (node_spec_any_order clock self deadline d) as [_ Hchild].
  induction Hms as [|m ms Hm Hms IH]; intros idx best_move best_score Hbs.
  - cbn [root_loop]. apply yields_ret. cbn [fst snd]. intros _ mb ->. by right.
  - cbn [root_loop]. rewrite Clone_same.
    destruct (ApplyMove_wf board m Hwf Hm) as [Happ Hwf'].
    eapply yields_bind; [apply yields_lift, Happ|]. intros ? ->.
    cbv beta iota.
    eapply (yields_bind _ _ (fun r =>
        exists score, node_post clock self deadline
                        (mm_min d (apply_move board m)) (apply_move board m)
                        best_score INF True (score, apply_move board m) /\
          r = (if score >? best_score then Some m else best_move,
               Z.max best_score score, Z.max best_score score, INF))).
    { eapply yields_bind; [apply (Hchild _ best_score INF Hwf')|].
      intros [score bd'] Hpost. cbv beta iota.
      destruct Hpost as (Hbd & Hv & Hval). cbn [fst snd] in Hbd, Hv, Hval. subst bd'.
      destruct (Z.gtb_spec score best_score) as [Hgt|Hle].
      - eapply yields_bind.
        { eapply yields_bind.
          { destruct (idx >? 0); [apply yields_update; by intros []|by apply yields_ret]. }
          intros _ _. by apply (yields_ret _ (fun x => x = (Some m, score))). }
        intros ? ->. cbv beta iota.
        apply yields_ret. exists score. split; [done|].
        destruct (Z.gtb_spec score best_score); [|lia].
        by replace (Z.max best_score score) with score by lia.
      - eapply yields_bind;
          [by apply (yields_ret _ (fun x => x = (best_move, best_score)))|].
        intros ? ->. cbv beta iota.
        apply yields_ret. exists score. split; [done|].
        destruct (Z.gtb_spec score best_score); [lia|].
        replace (Z.max best_score score) with best_score by lia.
        by rewrite Z.max_id. }
    intros r (score & (_ & Hv & Hval) & ->). cbn [fst] in Hv, Hval.
    eapply yields_bind; [apply yields_time|]. intros t [n ->].
    destruct (Qgtb (clock n) deadline) eqn:Hexp.
    { apply yields_ret. intros Hlive. specialize (Hlive n). congruence. }
    eapply yields_mono; [apply (IH (idx + 1)); lia|].
    intros r Hr Hlive mb Hmb.
    assert (Hscore : best_score < score -> score = mm_min d (apply_move board m)).
    { intros Hgt. destruct (Hval Hlive I) as [Hex Hwin].
      destruct (UseAlphaBeta self) eqn:HAB; [|by apply Hex].
      pose proof (proj2 (mm_bounds d (apply_move board m))) as HV.
      assert (Hlt : best_score < INF) by (unfold INF; lia).
      specialize (Hwin eq_refl (proj1 Hbs) Hlt (Z.le_refl _)).
      unfold window_ok, INF in *. lia. }
    destruct (Hr Hlive mb Hmb) as [[Hin Hmbv]|[Hbm Hr2]].
    + left. split; [by right|done].
    + destruct (Z.gtb_spec score best_score) as [Hgt|Hle].
      * injection Hbm as <-. left. split; [left|].
        rewrite Hr2, <- Hscore by lia. lia.
      * right. split; [done|]. lia.
Qed.

(** Root loop for White, the mirror image. *)
Lemma root_loop_min_best (d : nat) (board : Board) :
  wf_board board ->
  forall moves, Forall move_on_board moves ->
  forall idx best_move best_score,
    -640 <= best_score <= INF ->
  yields (root_loop clock self deadline false d board moves idx
                    best_move best_score (- INF) best_score)
    (fun r =>
       live clock deadline -> forall mb, r.1 = Some mb ->
         (mb ∈ moves /\ mm_max d (apply_move board mb) = r.2) \/
         (best_move = Some mb /\ r.2 = best_score)).
Proof.
  intros Hwf moves Hms.
  destruct (node_spec_any_order clock self deadline d) as [Hchild _].
  induction Hms as [|m ms Hm Hms IH]; intros idx best_move best_score Hbs.
  - cbn [root_loop]. apply yields_ret. cbn [fst snd]. intros _ mb ->. by right.
  - cbn [root_loop]. rewrite Clone_same.
    destruct (ApplyMove_wf board m Hwf Hm) as [Happ Hwf'].
    eapply yields_bind; [apply yields_lift, Happ|]. intros ? ->.
    cbv beta iota.
    eapply (yields_bind _ _ (fun r =>
        exists score, node_post clock self deadline
                        (mm_max d (apply_move board m)) (apply_move board m)
                        (- INF) best_score True (score, apply_move board m) /\
          r = (if score <? best_score then Some m else best_move,
               Z.min best_score score, - INF, Z.min best_score score))).
    { eapply yields_bind; [apply (Hchild _ (- INF) best_score Hwf')|].
      intros [score bd'] Hpost. cbv beta iota.
      destruct Hpost as (Hbd & Hv & Hval). cbn [fst snd] in Hbd, Hv, Hval. subst bd'.
      destruct (Z.ltb_spec score best_score) as [Hgt|Hle].
      - eapply yields_bind.
        { eapply yields_bind.
          { destruct (idx >? 0); [apply yields_update; by intros []|by apply yields_ret]. }
          intros _ _. by apply (yields_ret _ (fun x => x = (Some m, score))). }
        intros ? ->. cbv beta iota.
        apply yields_ret. exists score. split; [done|].
        destruct (Z.ltb_spec score best_score); [|lia].
        by replace (Z.min best_score score) with score by lia.
      - eapply yields_bind;
          [by apply (yields_ret _ (fun x => x = (best_move, best_score)))|].
        intros ? ->. cbv beta iota.
        apply yields_ret. exists score. split; [done|].
        destruct (Z.ltb_spec score best_score); [lia|].
        replace (Z.min best_score score) with best_score by lia.
        by rewrite Z.min_id. }
    intros r (score & (_ & Hv & Hval) & ->). cbn [fst] in Hv, Hval.
    eapply yields_bind; [apply yields_time|]. intros t [n ->].
    destruct (Qgtb (clock n) deadline) eqn:Hexp.
    { apply yields_ret. intros Hlive. specialize (Hlive n). congruence. }
    eapply yields_mono; [apply (IH (idx + 1)); lia|].
    intros r Hr Hlive mb Hmb.
    assert (Hscore : score < best_score -> score = mm_max d (apply_move board m)).
    { intros Hgt. destruct (Hval Hlive I) as [Hex Hwin].
      destruct (UseAlphaBeta self) eqn:HAB; [|by apply Hex].
      pose proof (proj1 (mm_bounds d (apply_move board m))) as HV.
      assert (Hlt : - INF < best_score) by (unfold INF; lia).
      specialize (Hwin eq_refl (Z.le_refl _) Hlt (proj2 Hbs)).
      unfold window_ok, INF in *. lia. }
    destruct (Hr Hlive mb Hmb) as [[Hin Hmbv]|[Hbm Hr2]].
    + left. split; [by right|done].
    + destruct (Z.ltb_spec score best_score) as [Hgt|Hle].
      * injection Hbm as <-. left. split; [left|].
        rewrite Hr2, <- Hscore by lia. lia.
      * right. split; [done|]. lia.
Qed.

(** A pass of [_SearchDepth] that the deadline does not cut short returns
    a best move of its depth, in every mode. *)
Lemma SearchDepth_best (board : Board) (side : Side) (depth : nat) :
  wf_board board ->
  yields (_SearchDepth clock self deadline board side depth)
    (fun r =>
       live clock deadline -> forall m, r.1.1 = Some m ->
         best_move_among (legal_moves board side) board side depth m).
Proof.
  intros Hwf. unfold _SearchDepth.
  eapply yields_bind; [apply yields_time|]. intros start _.
  eapply yields_bind; [apply yields_lift, AllLegalMoves_wf, Hwf|]. intros ? ->.
  pose proof (legal_moves_on_board board side Hwf) as Hon.
  destruct (legal_moves board side) as [|m0 ms0] eqn:Hms.
  { apply yields_ret. by intros _ m. }
  rewrite <- Hms in *.
  eapply yields_bind; [by apply OrderMoves_spec|]. intros ordered [Hperm _].
  assert (Hone : ordered <> []).
  { intros ->. apply Permutation_nil_l in Hperm. by rewrite Hms in Hperm. }
  assert (Hon' : Forall move_on_board ordered) by by rewrite Hperm.
  destruct (node_spec_any_order clock self deadline (Nat.pred depth)) as [Hmax Hmin].
  destruct side; cbn [bool_decide decide_rel Side_eq_dec]; cbv beta iota.
  - eapply yields_bind.
    { change (bool_decide (White = Black)) with false.
      apply yields_and.
      - apply (root_loop_min_spec clock self deadline _ _ board Hmax Hwf ordered Hon'
                 0 None INF); [unfold INF; lia|done].
      - apply (root_loop_min_best _ board Hwf ordered Hon' 0 None INF).
        unfold INF; lia. }
    intros [bm bs] [(_ & _ & _ & Hval) Hbest]. cbn [fst snd] in *.
    eapply yields_bind; [apply yields_time|]. intros t _.
    eapply yields_bind; [apply yields_update; by intros []|]. intros _ _.
    apply yields_ret. cbn [fst snd]. intros Hlive m ->.
    destruct (Hbest Hlive m eq_refl) as [[Hin Hm]|[? _]]; [|done].
    split; [by rewrite <- Hperm|]. intros m' Hm'.
    rewrite Hm, (Hval Hlive I).
    assert (Hmin' : is_min_of (map (fun m => mm_max (Nat.pred depth) (apply_move board m))
                                   ordered)
                      (foldl (fun best m => Z.min best (mm_max (Nat.pred depth)
                                                             (apply_move board m)))
                             INF ordered)).
    { apply foldl_min_is_min; [done|]. intros x _.
      pose proof (proj1 (mm_bounds (Nat.pred depth) (apply_move board x))).
      unfold INF. lia. }
    apply Hmin'. apply list_elem_of_fmap. exists m'. split; [done|]. by rewrite Hperm.
  - eapply yields_bind.
    { change (bool_decide (Black = Black)) with true.
      apply yields_and.
      - apply (root_loop_max_spec clock self deadline _ _ board Hmin Hwf ordered Hon'
                 0 None (- INF)); [unfold INF; lia|done].
      - apply (root_loop_max_best _ board Hwf ordered Hon' 0 None (- INF)).
        unfold INF; lia. }
    intros [bm bs] [(_ & _ & _ & Hval) Hbest]. cbn [fst snd] in *.
    eapply yields_bind; [apply yields_time|]. intros t _.
    eapply yields_bind; [apply yields_update; by intros []|]. intros _ _.
    apply yields_ret. cbn [fst snd]. intros Hlive m ->.
    destruct (Hbest Hlive m eq_refl) as [[Hin Hm]|[? _]]; [|done].
    split; [by rewrite <- Hperm|]. intros m' Hm'.
    rewrite Hm, (Hval Hlive I).
    assert (Hmax' : is_max_of (map (fun m => mm_min (Nat.pred depth) (apply_move board m))
                                   ordered)
                      (foldl (fun best m => Z.max best (mm_min (Nat.pred depth)
                                                             (apply_move board m)))
                             (- INF) ordered)).
    { apply foldl_max_is_max; [done|]. intros x _.
      pose proof (proj2 (mm_bounds (Nat.pred depth) (apply_move board x))).
      unfold INF. lia. }
    apply Hmax'. apply list_elem_of_fmap. exists m'. split; [done|]. by rewrite Hperm.
Qed.

End BestMove.

(** Under a clock that does not run backwards, a pass whose poll is within
    the deadline was not cut short, and its move is a best move of its
    depth. *)
Lemma completed_pass_best (clock : nat -> Q) (self : SearchToolBox) (deadline : Q)
    (board : Board) (side : Side) (depths : list Z) (w : World) (a : Attempt)
    (m : Move) :
  wf_board board -> monotone clock ->
  a ∈ attempts clock self deadline board side depths w ->
  at_completed a = true -> at_move a = Some m ->
  best_move_among (legal_moves board side) board side (Z.to_nat (at_depth a)) m.
Proof.
  intros Hwf Hmono. revert w.
  induction depths as [|depth rest IH]; intros w; cbn [attempts].
  { by intros ?%elem_of_nil. }
  destruct (_SearchDepth clock self deadline board side (Z.to_nat depth) w)
    as [[[[mv s] b] w1]|e] eqn:Hrun; [|by intros ?%elem_of_nil].
  intros [->|Hin]%elem_of_cons; [|by eapply IH].
  cbn [at_completed at_move at_depth]. intros Hc ->.
  apply negb_true_iff, Qgtb_false in Hc.
  set (clock' := fun n => clock (Nat.min n (ticks w1))).
  assert (Hlive : live clock' deadline).
  { intros n. apply Qgtb_false. eapply Qle_trans; [|exact Hc].
    apply Hmono. lia. }
  assert (Hagree : forall n, (n < ticks w1)%nat -> clock n = clock' n).
  { intros n Hn. unfold clock'. by rewrite Nat.min_l by lia. }
  destruct (same_run_SearchDepth clock clock' self deadline (ticks w1) Hagree
              board side (Z.to_nat depth) w _ _ Hrun) as [_ Hsame].
  specialize (Hsame (le_n _)).
  by apply (yields_Ret _ _ _ _ _
              (SearchDepth_best clock' self deadline board side _ Hwf) Hsame Hlive).
Qed.

(** * What [ChooseMove] returns *)

(** C6. [ChooseMove] reads the clock once, sets the deadline to that
    reading plus [max(1, SecondsBudget)], added as floats are, and runs
    [_SearchDepth] at depths 1 to [max(1, PlyLimit)], polling the clock
    after each. It returns the move of the last pass of the completed
    prefix, which is a move whenever the side has a legal move; it returns
    the first legal move, or none when there is none, when the first pass
    did not complete or the side has no legal move. Under a clock that does
    not run backwards, no reading taken up to the poll of a completed pass
    was past the deadline, so a pass cut short by the deadline is never
    among the completed; and the move returned after a completed pass is a
    best move of the depth of the last completed pass: among the legal
    moves it leads to a position of greatest minimax value at the
    remaining depth for Black, of least for White. *)
Theorem ChooseMove_deepest_completed (clock : nat -> Q) (self : SearchToolBox)
    (float_add : Q -> Z -> Q)
    (board : Board) (side : Side) (SecondsBudget PlyLimit : Z) (w : World) :
  wf_board board ->
  let deadline := float_add (clock (ticks w)) (Z.max 1 SecondsBudget) in
  let depths := range 1 (Z.max 1 PlyLimit + 1) in
  let atts := attempts clock self deadline board side depths
                       (mkWorld fresh_analytics (S (ticks w))) in
  exists moves result w',
    AllLegalMoves board side = Ret (moves, board) /\
    ChooseMove clock self float_add board side SecondsBudget PlyLimit w
      = Ret ((result, board), w') /\
    (forall d, d ∈ depths <-> 1 <= d <= Z.max 1 PlyLimit) /\
    map at_depth atts = depths /\
    (moves = [] \/ completed_prefix atts = [] -> result = head moves) /\
    (forall a, moves <> [] -> last (completed_prefix atts) = Some a ->
       result = at_move a /\ result <> None) /\
    (monotone clock -> forall a, a ∈ completed_prefix atts ->
       forall t, (t <= at_poll a)%nat -> Qgtb (clock t) deadline = false) /\
    (monotone clock -> forall a m,
       last (completed_prefix atts) = Some a -> result = Some m ->
       best_move_among moves board side (Z.to_nat (at_depth a)) m).
Proof.
  intros Hwf deadline depths atts.
  destruct (ChooseMove_runs clock self float_add board side SecondsBudget PlyLimit w Hwf)
    as ([result b] & w' & Hrun & Hb & _ & Hres).
  cbn [fst snd] in Hb, Hres. subst b. fold deadline depths atts in Hres.
  exists (legal_moves board side), result, w'.
  split; [by apply AllLegalMoves_wf|]. split; [exact Hrun|].
  assert (Hfacts : forall a, a ∈ completed_prefix atts ->
            (at_move a = None <-> legal_moves board side = []) /\
            at_completed a = negb (Qgtb (clock (at_poll a)) deadline) /\
            at_completed a = true).
  { intros a [Hin Hc]%elem_of_completed_prefix.
    destruct (attempts_facts clock self deadline board side Hwf depths _ a Hin)
      as (H1 & H2 & _). done. }
  assert (Hlast : forall a, legal_moves board side <> [] ->
            last (completed_prefix atts) = Some a ->
            result = at_move a /\ result <> None).
  { intros a Hne Hlast.
    assert (Hsome : forall x, x ∈ completed_prefix atts -> at_move x <> None).
    { intros x Hx Hn. apply Hne. by apply (Hfacts x Hx). }
    rewrite (last_omap_some at_move _ a Hsome Hlast) in Hres.
    assert (Ha : a ∈ completed_prefix atts).
    { rewrite last_lookup in Hlast. by eapply list_elem_of_lookup_2. }
    specialize (Hsome a Ha). destruct (at_move a) eqn:Hm; [|done].
    by rewrite Hres. }
  assert (Hnone : legal_moves board side = [] -> result = None).
  { intros Hnil. rewrite omap_all_none in Hres; [by rewrite Hres, Hnil|].
    intros a Ha. by apply (Hfacts a Ha). }
  split_and!.
  - intros d. unfold depths. rewrite elem_of_range. lia.
  - by apply attempts_depths.
  - intros [Hnil|Hnil].
    + by rewrite Hnone, Hnil.
    + by rewrite Hnil in Hres.
  - exact Hlast.
  - intros Hmono a Ha t Ht. destruct (Hfacts a Ha) as (_ & Hpoll & Hc).
    rewrite Hc in Hpoll. symmetry in Hpoll. apply negb_true_iff in Hpoll.
    apply Qgtb_false. apply Qgtb_false in Hpoll.
    eapply Qle_trans; [by apply Hmono|done].
  - intros Hmono a m Ha Hm.
    assert (Hne : legal_moves board side <> []).
    { intros Hnil. rewrite (Hnone Hnil) in Hm. done. }
    destruct (Hlast a Hne Ha) as [Hmv _]. rewrite Hm in Hmv.
    assert (Hin : a ∈ completed_prefix atts).
    { rewrite last_lookup in Ha. by eapply list_elem_of_lookup_2. }
    apply elem_of_completed_prefix in Hin as [Hin Hc].
    apply (completed_pass_best clock self deadline board side depths
             (mkWorld fresh_analytics (S (ticks w))) a m); done.
Qed.

Lemma ChooseMove_deepest_completed_witness :
  wf_board initial_board /\
  let deadline := exact_sum (still_clock (ticks fresh_world)) (Z.max 1 1) in
  let depths := range 1 (Z.max 1 2 + 1) in
  let atts := attempts still_clock (SearchToolBox_init "alpha-beta") deadline
                       initial_board Black depths
                       (mkWorld fresh_analytics (S (ticks fresh_world))) in
  exists moves result w',
    AllLegalMoves initial_board Black = Ret (moves, initial_board) /\
    ChooseMove still_clock (SearchToolBox_init "alpha-beta") exact_sum
               initial_board Black 1 2 fresh_world
      = Ret ((result, initial_board), w') /\
    (forall d, d ∈ depths <-> 1 <= d <= Z.max 1 2) /\
    map at_depth atts = depths /\
    (moves = [] \/ completed_prefix atts = [] -> result = head moves) /\
    (forall a, moves <> [] -> last (completed_prefix atts) = Some a ->
       result = at_move a /\ result <> None) /\
    (monotone still_clock -> forall a, a ∈ completed_prefix atts ->
       forall t, (t <= at_poll a)%nat -> Qgtb (still_clock t) deadline = false) /\
    (monotone still_clock -> forall a m,
       last (completed_prefix atts) = Some a -> result = Some m ->
       best_move_among moves initial_board Black (Z.to_nat (at_depth a)) m).
Proof.
  split; [exact initial_board_wf|].
  apply (ChooseMove_deepest_completed still_clock (SearchToolBox_init "alpha-beta")
           exact_sum initial_board Black 1 2 fresh_world).
  exact initial_board_wf.
Defined.

(** A clock that passes the deadline during the third pass. The first two
    passes complete; the third is abandoned with another move in hand; and
    [ChooseMove] returns the move of the second pass. *)
Definition cut_clock : nat -> Q :=
  fun n => if (n <=? 100)%nat then 0%Q else 5%Q.

Example abandoned_pass_discarded :
  let self := SearchToolBox_init "alpha-beta" in
  let second := mkMove (5, 0) (4, 1) [(5, 0); (4, 1)] false [] in
  let third := mkMove (5, 2) (4, 1) [(5, 2); (4, 1)] false [] in
  map (fun a => (at_depth a, at_completed a, at_move a))
      (attempts cut_clock self (exact_sum (cut_clock 0) (Z.max 1 1))
                after_opening White (range 1 (Z.max 1 3 + 1))
                (mkWorld fresh_analytics 1))
    = [(1, true, Some second); (2, true, Some second); (3, false, Some third)] /\
  exists w',
    ChooseMove cut_clock self exact_sum after_opening White 1 3 fresh_world
    = Ret ((Some second, after_opening), w').
Proof. split; [vm_compute; reflexivity|]. eexists. vm_compute. reflexivity. Qed.
